(** * A shallow embedding of the tableau Simplex solver of LPSolver

    Source: [src/lpsolver/solver.py] (class [LPSolver]),
    [src/lpsolver/model.py] (class [LPModel]),
    [src/lpsolver/variables.py] and [src/lpsolver/parser.py].

    The numpy arrays of the solver hold float64 numbers.  A float is
    modelled by its exact rational value, with the sign bit of a zero and
    the special values [inf], [-inf] and [nan] of IEEE arithmetic and numpy;
    rounding is not modelled, so every finite result is the exact rational
    one.  The tolerance [1e-10] of the source is the rational [1/10^10].
    The methods of [LPSolver] mutate [self]; they are modelled in a small
    state-and-exception monad over the instance record.

    The module [Exact] below repeats the numeric methods of the solver over
    [Q] alone.  On tableaus of finite numbers whose pivots are nonzero the
    float methods compute the same values (lemmas [*_transport]), which is
    how the proofs about the arithmetic of the simplex method are done. *)

From Stdlib Require Import String Bool QArith Qabs ZArith Lia Lqa List Sorted.
Import ListNotations.
Open Scope Q_scope.

(** ** Python exceptions and a state-and-exception monad *)

(** The message of a [ValueError].  Those of [min()] on an empty sequence,
    of a failed tuple unpacking and of a failed numpy broadcast differ
    between Python and numpy versions, and are kept abstract. *)
Inductive pymsg : Type :=
| Msg (s : string)
| MinEmptyArg
| UnpackCount (got : nat)
| BroadcastShapes (src dst : nat).
Coercion Msg : string >-> pymsg.

Inductive exn : Type :=
| ValueError (msg : pymsg)
| IndexError.
Arguments ValueError msg%_string.

Inductive res (A : Type) : Type :=
| Ok (a : A)
| Raise (e : exn).
Arguments Ok {A} a.
Arguments Raise {A} e.

(** A computation on an object of type [S] (the [self] of a method):
    a result and the new object, or an exception. *)
Definition ST (S A : Type) : Type := S -> res (A * S).

Definition ret {S A} (a : A) : ST S A := fun s => Ok (a, s).
Definition bind {S A B} (m : ST S A) (k : A -> ST S B) : ST S B :=
  fun s => match m s with
           | Ok (a, s') => k a s'
           | Raise e => Raise e
           end.
Definition get {S} : ST S S := fun s => Ok (s, s).
Definition put {S} (s : S) : ST S unit := fun _ => Ok (tt, s).
Definition raise {S A} (e : exn) : ST S A := fun _ => Raise e.

Notation "x <- m ;; k" := (bind m (fun x => k))
  (at level 61, m at next level, right associativity).
Notation "m ;;; k" := (bind m (fun _ => k))
  (at level 61, right associativity).

(** ** Numeric helpers *)

(** The tolerance [1e-10] used in every sign test of the solver. *)
Definition EPS : Q := 1 # 10000000000.

(** numpy's default relative tolerance of [np.isclose]. *)
Definition RTOL : Q := 1 # 100000.

Definition Qltb (x y : Q) : bool := negb (Qle_bool y x).

(** [np.isclose(a, b, atol=atol)] on finite numbers:
    [|a - b| <= atol + rtol * |b|]. *)
Definition isclose (a b atol : Q) : bool :=
  Qle_bool (Qabs (a - b)) (atol + RTOL * Qabs b).

(** ** Floats *)

(** A float: a finite value [Flt q neg] of value [q], where [neg] is the
    sign bit of a zero ([Flt 0 true] is [-0.0]; for a nonzero value the
    operations below keep [neg = false]), or [inf], [-inf], [nan]. *)
Inductive pyfloat : Type :=
| Flt (q : Q) (neg : bool)
| PInf
| NInf
| NaN.

(** The finite result of value [q]; [neg] is its sign bit when [q] is 0. *)
Definition mkflt (q : Q) (neg : bool) : pyfloat := Flt q (Qeq_bool q 0 && neg).

(** The float literal of value [q] ([0.0] for 0). *)
Definition fl (q : Q) : pyfloat := Flt q false.

Definition signbit (x : pyfloat) : bool :=
  match x with
  | Flt q neg => if Qeq_bool q 0 then neg else Qltb q 0
  | PInf => false
  | NInf => true
  | NaN => false
  end.

Definition finf (neg : bool) : pyfloat := if neg then NInf else PInf.

(** Unary [-x]. *)
Definition fneg (x : pyfloat) : pyfloat :=
  match x with
  | Flt q neg => mkflt (- q) (negb neg)
  | PInf => NInf
  | NInf => PInf
  | NaN => NaN
  end.

(** [x + y]: an exact zero sum is [-0.0] only when both operands have the
    sign bit. *)
Definition fadd (x y : pyfloat) : pyfloat :=
  match x, y with
  | NaN, _ | _, NaN => NaN
  | PInf, NInf | NInf, PInf => NaN
  | PInf, _ | _, PInf => PInf
  | NInf, _ | _, NInf => NInf
  | Flt a _, Flt b _ => mkflt (a + b) (signbit x && signbit y)
  end.

Definition fsub (x y : pyfloat) : pyfloat := fadd x (fneg y).

(** [x * y]: [0 * inf] is [nan]. *)
Definition fmul (x y : pyfloat) : pyfloat :=
  let neg := xorb (signbit x) (signbit y) in
  match x, y with
  | NaN, _ | _, NaN => NaN
  | Flt a _, Flt b _ => mkflt (a * b) neg
  | Flt a _, _ => if Qeq_bool a 0 then NaN else finf neg
  | _, Flt b _ => if Qeq_bool b 0 then NaN else finf neg
  | _, _ => finf neg
  end.

(** numpy's [x / y] (no exception): [0 / 0] and [inf / inf] are [nan], a
    nonzero number divided by a zero is an infinity, a finite number divided
    by an infinity is a zero. *)
Definition fdiv (x y : pyfloat) : pyfloat :=
  let neg := xorb (signbit x) (signbit y) in
  match x, y with
  | NaN, _ | _, NaN => NaN
  | Flt a _, Flt b _ =>
      if Qeq_bool b 0 then (if Qeq_bool a 0 then NaN else finf neg)
      else mkflt (a / b) neg
  | Flt _ _, _ => mkflt 0 neg
  | _, Flt _ _ => finf neg
  | _, _ => NaN
  end.

(** [x <= y] and [x < y]: false whenever one side is [nan]. *)
Definition fle (x y : pyfloat) : bool :=
  match x, y with
  | NaN, _ | _, NaN => false
  | NInf, _ | _, PInf => true
  | PInf, _ | _, NInf => false
  | Flt p _, Flt q _ => Qle_bool p q
  end.

Definition flt (x y : pyfloat) : bool :=
  match x, y with
  | NaN, _ | _, NaN => false
  | PInf, _ | _, NInf => false
  | NInf, _ | _, PInf => true
  | Flt p _, Flt q _ => Qltb p q
  end.

(** [np.isclose(a, b, atol=atol)]: two infinities are close when they are
    equal, an infinity and a finite number never are, [nan] never is. *)
Definition fisclose (a b : pyfloat) (atol : Q) : bool :=
  match a, b with
  | Flt p _, Flt q _ => isclose p q atol
  | PInf, PInf | NInf, NInf => true
  | _, _ => false
  end.

(** ** Lists used as numpy rows and Python lists *)

(** [l[i] = x] on an index inside the list. *)
Fixpoint set_nth {A} (i : nat) (x : A) (l : list A) : list A :=
  match l, i with
  | [], _ => []
  | _ :: l', O => x :: l'
  | y :: l', S i' => y :: set_nth i' x l'
  end.

(** Element-wise combination of two numpy rows of equal length. *)
Fixpoint map2 {A B C} (f : A -> B -> C) (l1 : list A) (l2 : list B) : list C :=
  match l1, l2 with
  | x :: l1', y :: l2' => f x y :: map2 f l1' l2'
  | _, _ => []
  end.

(** A 2-D numpy array of shape [(length mrows, mcols)], given by its rows;
    the arrays the solver is called with have rows of [mcols] entries. *)
Record Mat : Type := mkMat {
  mrows : list (list pyfloat);
  mcols : nat
}.

(** The value numpy stores in a 1-D slice of [n] entries by [x[...] = v]:
    [v] itself, or its single entry repeated; [None] when the shapes do not
    broadcast ([ValueError]). *)
Definition broadcast (v : list pyfloat) (n : nat) : option (list pyfloat) :=
  if Nat.eqb (length v) n then Some v
  else match v with
       | [x] => Some (repeat x n)
       | _ => None
       end.

(** ** The instance *)

(** Fields of a [LPSolver] instance ([__init__]).  [tableau] and [basis]
    start as Python [None]; the empty list stands for it, since [solve]
    overwrites both before reading them. *)
Record LPSolver : Type := mkSolver {
  tableau : list (list pyfloat);
  num_variables : nat;
  num_constraints : nat;
  basis : list nat;
  objective_value : option pyfloat;
  solution : option (list pyfloat)
}.

Definition LPSolver_init : LPSolver :=
  mkSolver [] 0 0 [] None None.

Definition M (A : Type) : Type := ST LPSolver A.

(** [T[i]] and [T[i, k]] of the tableau. *)
Definition row (T : list (list pyfloat)) (i : nat) : list pyfloat := nth i T [].
Definition at_ (T : list (list pyfloat)) (i k : nat) : pyfloat := nth k (row T i) (fl 0).

(** [r[-1]] (the RHS entry) of a row. *)
Definition rhs_of (r : list pyfloat) : pyfloat := last r (fl 0).

(** ** [standard_form], [create_initial_tableau], [initialize_basis] *)

(** Row [i] of [np.eye(m)]. *)
Definition eye_row (m i : nat) : list pyfloat :=
  map (fun k => if Nat.eqb k i then fl 1 else fl 0) (seq 0 m).

(** The rows of [np.hstack([A, np.eye(m)])], from row [i] of [np.eye(m)]. *)
Fixpoint hstack_eye (A : list (list pyfloat)) (m i : nat) : list (list pyfloat) :=
  match A with
  | [] => []
  | r :: A' => (r ++ eye_row m i) :: hstack_eye A' m (S i)
  end.

Definition standard_form (c : list pyfloat) (A : Mat) (b : list pyfloat)
  : list pyfloat * Mat * list pyfloat :=
  let m := length (mrows A) in
  let A_new := mkMat (hstack_eye (mrows A) m 0) (mcols A + m) in
  let c_new := c ++ repeat (fl 0) m in
  (c_new, A_new, b).

(** [tableau = np.zeros((m + 1, n + 1))], then [tableau[0, :-1] = -c],
    [tableau[1:, :-1] = A] and [tableau[1:, -1] = b]; the two assignments
    of vectors raise when the vector does not broadcast to the slice. *)
Definition create_initial_tableau (c : list pyfloat) (A : Mat) (b : list pyfloat)
  : res (list (list pyfloat)) :=
  let m := length (mrows A) in
  let n := mcols A in
  match broadcast (map fneg c) n with
  | None => Raise (ValueError (BroadcastShapes (length c) n))
  | Some row0 =>
      match broadcast b m with
      | None => Raise (ValueError (BroadcastShapes (length b) m))
      | Some bcol =>
          Ok ((row0 ++ [fl 0]) :: map (fun '(r, bi) => r ++ [bi]) (combine (mrows A) bcol))
      end
  end.

Definition initialize_basis : M (list nat) :=
  s <- get ;;
  let lo := (num_variables s - num_constraints s)%nat in
  ret (seq lo (num_variables s - lo)%nat).

(** ** [get_entering_variable] (Bland's rule) *)

(** The [for j, coeff in enumerate(obj_row)] loop. *)
Fixpoint bland (obj_row : list pyfloat) (j : nat) : option nat :=
  match obj_row with
  | [] => None
  | coeff :: rest =>
      if flt coeff (fl (- EPS)) && negb (fisclose coeff (fl 0) EPS) then Some j
      else bland rest (S j)
  end.

Definition get_entering_variable : M (option nat) :=
  s <- get ;;
  let obj_row := removelast (row (tableau s) 0) in
  if forallb (fun x => fle (fl (- EPS)) x) obj_row then ret None
  else ret (bland obj_row 0).

(** ** [get_leaving_variable] (minimum-ratio test) *)

(** The [for i in range(len(b))] loop building [ratios]. *)
Fixpoint ratios_of (column b : list pyfloat) (i : nat) : list (pyfloat * nat) :=
  match column, b with
  | ci :: column', bi :: b' =>
      (if flt (fl EPS) ci then fdiv bi ci else PInf, i) :: ratios_of column' b' (S i)
  | _, _ => []
  end.

(** Python's [min(xs, key=lambda x: x[0])]: the first element of least key;
    an element replaces the current one only when its key is smaller. *)
Fixpoint min_from (cur : pyfloat * nat) (xs : list (pyfloat * nat)) : pyfloat * nat :=
  match xs with
  | [] => cur
  | x :: xs' => min_from (if flt (fst x) (fst cur) then x else cur) xs'
  end.

Definition py_min (xs : list (pyfloat * nat)) : option (pyfloat * nat) :=
  match xs with
  | [] => None
  | x :: xs' => Some (min_from x xs')
  end.

Definition get_leaving_variable (entering_idx : nat) : M (option nat) :=
  s <- get ;;
  let rows := tl (tableau s) in
  let column := map (fun r => nth entering_idx r (fl 0)) rows in
  let b := map rhs_of rows in
  if forallb (fun x => fle x (fl EPS)) column then ret None
  else
    let ratios := ratios_of column b 0 in
    match py_min (filter (fun r => fle (fl 0) (fst r)) ratios) with
    | Some (_, leaving_idx) => ret (Some leaving_idx)
    | None => raise (ValueError MinEmptyArg)
    end.

(** ** [pivot] *)

(** The loop [for i in range(rows): if i != pivot_row:
    T[i] = T[i] - T[i, entering_idx] * T[pivot_row]], where [T[pivot_row]]
    is already the normalised row [prow] and is not changed by the loop. *)
Fixpoint eliminate (T : list (list pyfloat)) (i pivot_row entering_idx : nat)
    (prow : list pyfloat) : list (list pyfloat) :=
  match T with
  | [] => []
  | r :: T' =>
      (if Nat.eqb i pivot_row then r
       else map2 (fun x y => fsub x (fmul (nth entering_idx r (fl 0)) y)) r prow)
      :: eliminate T' (S i) pivot_row entering_idx prow
  end.

Definition pivot_tableau (T : list (list pyfloat)) (entering_idx pivot_row : nat)
    : list (list pyfloat) :=
  let pivot_element := at_ T pivot_row entering_idx in
  let prow := map (fun x => fdiv x pivot_element) (row T pivot_row) in
  let T1 := set_nth pivot_row prow T in
  eliminate T1 0 pivot_row entering_idx prow.

Definition pivot (entering_idx leaving_idx : nat) : M unit :=
  s <- get ;;
  let pivot_row := S leaving_idx in
  put {| tableau := pivot_tableau (tableau s) entering_idx pivot_row;
         num_variables := num_variables s;
         num_constraints := num_constraints s;
         basis := set_nth leaving_idx entering_idx (basis s);
         objective_value := objective_value s;
         solution := solution s |}.

(** ** [extract_solution] *)

(** The loop [for i, var_idx in enumerate(self.basis)]. *)
Fixpoint fill_basic (T : list (list pyfloat)) (n_orig : nat) (bs : list nat) (i : nat)
    (sol : list pyfloat) : list pyfloat :=
  match bs with
  | [] => sol
  | var_idx :: bs' =>
      fill_basic T n_orig bs' (S i)
        (if Nat.ltb var_idx n_orig
         then set_nth var_idx (rhs_of (row T (S i))) sol else sol)
  end.

Definition extract_solution : M (list pyfloat * pyfloat) :=
  s <- get ;;
  let n_orig := (num_variables s - num_constraints s)%nat in
  let sol := fill_basic (tableau s) n_orig (basis s) 0
               (repeat (fl 0) (num_variables s)) in
  let objective := fneg (rhs_of (row (tableau s) 0)) in
  ret (firstn n_orig sol, objective).

(** ** [solve] *)

(** The dictionary returned by [solve], by its ["status"]. *)
Inductive SolveResult : Type :=
| Optimal (sol : list pyfloat) (objective : pyfloat) (iterations : Z)
| Unbounded (iterations : Z)
| IterationLimit (iterations : Z).

Definition status (r : SolveResult) : string :=
  match r with
  | Optimal _ _ _ => "optimal"
  | Unbounded _ => "unbounded"
  | IterationLimit _ => "iteration_limit"
  end.

Definition iterations_of (r : SolveResult) : Z :=
  match r with
  | Optimal _ _ k | Unbounded k | IterationLimit k => k
  end.

(** One pass of the body of [while iteration < max_iterations]: [Some r]
    when the body returns [r], [None] when it pivots and goes on. *)
Definition body (iteration : Z) : M (option SolveResult) :=
  entering <- get_entering_variable ;;
  match entering with
  | None =>
      so <- extract_solution ;;
      s <- get ;;
      put {| tableau := tableau s; num_variables := num_variables s;
             num_constraints := num_constraints s; basis := basis s;
             objective_value := Some (snd so); solution := Some (fst so) |} ;;;
      ret (Some (Optimal (fst so) (snd so) iteration))
  | Some entering_idx =>
      leaving <- get_leaving_variable entering_idx ;;
      match leaving with
      | None => ret (Some (Unbounded iteration))
      | Some leaving_idx =>
          pivot entering_idx leaving_idx ;;; ret None
      end
  end.

(** The [while] loop; [fuel] is the number of times the test
    [iteration < max_iterations] still succeeds. *)
Fixpoint loop (fuel : nat) (iteration max_iterations : Z) : M SolveResult :=
  match fuel with
  | O => ret (IterationLimit max_iterations)
  | S fuel' =>
      r <- body iteration ;;
      match r with
      | Some result => ret result
      | None => loop fuel' (iteration + 1)%Z max_iterations
      end
  end.

(** Everything [solve] does before its main loop.  An exception of
    [create_initial_tableau] leaves the call; the instance is then not
    used again by the statements below. *)
Definition setup (c : list pyfloat) (A : Mat) (b : list pyfloat) : M unit :=
  s <- get ;;
  let nc := length (mrows A) in
  let '(c_std, A_std, b_std) := standard_form c A b in
  let nv := mcols A_std in
  match create_initial_tableau c_std A_std b_std with
  | Raise e => raise e
  | Ok T =>
      put {| tableau := T; num_variables := nv; num_constraints := nc;
             basis := basis s; objective_value := objective_value s;
             solution := solution s |} ;;;
      bs <- initialize_basis ;;
      s1 <- get ;;
      put {| tableau := tableau s1; num_variables := num_variables s1;
             num_constraints := num_constraints s1; basis := bs;
             objective_value := objective_value s1; solution := solution s1 |}
  end.

Definition solve (c : list pyfloat) (A : Mat) (b : list pyfloat)
    (max_iterations : Z) : M SolveResult :=
  setup c A b ;;;
  loop (Z.to_nat max_iterations) 0 max_iterations.

(** [solve] on a fresh instance, forgetting the final instance state. *)
Definition run_solve (c : list pyfloat) (A : Mat) (b : list pyfloat)
    (max_iterations : Z) : res SolveResult :=
  match solve c A b max_iterations LPSolver_init with
  | Ok (r, _) => Ok r
  | Raise e => Raise e
  end.

Definition DEFAULT_MAX_ITERATIONS : Z := 1000.

(** ** [LPModel.to_standard_form] ([src/lpsolver/model.py]) *)

(** An [LPExpression]: its [terms] dictionary, keyed by variables, is
    given by the [index] of each key variable, in insertion order.  The
    coefficients and the constant are the values of the Python floats
    (a zero coefficient is taken to be [0.0], not [-0.0]). *)
Record LPExpression : Type := mkExpr {
  terms : list (nat * Q);
  constant : Q
}.

Record LPConstraint : Type := mkConstraint {
  lhs : LPExpression;
  sense : string;
  rhs : Q
}.

Record LPModel : Type := mkModel {
  variables : list string;
  constraints : list LPConstraint;
  objective : option LPExpression;
  model_sense : string
}.

(** numpy item assignment [v[idx] = x]; an index past the end raises. *)
Definition np_set (idx : nat) (x : pyfloat) (v : list pyfloat) : res (list pyfloat) :=
  if Nat.ltb idx (length v) then Ok (set_nth idx x v) else Raise IndexError.

(** [for var, coef in expr.terms.items(): v[var.index] = f(coef)]. *)
Fixpoint set_terms (f : Q -> pyfloat) (ts : list (nat * Q)) (v : list pyfloat)
    : res (list pyfloat) :=
  match ts with
  | [] => Ok v
  | (idx, coef) :: ts' =>
      match np_set idx (f coef) v with
      | Ok v' => set_terms f ts' v'
      | Raise e => Raise e
      end
  end.

Definition unsupported_sense (sn : string) : exn :=
  ValueError ("Unsupported constraint sense: " ++ sn).

(** Row [i] of [A] and entry [b[i]] for one constraint:
    [A[i, var.index] = coef], [b[i] = constraint.rhs - constraint.lhs.constant],
    both negated for ['>=']. *)
Definition constraint_row (n_vars : nat) (con : LPConstraint)
    : res (list pyfloat * pyfloat) :=
  match set_terms fl (terms (lhs con)) (repeat (fl 0) n_vars) with
  | Raise e => Raise e
  | Ok r =>
      if String.eqb (sense con) "<=" then
        Ok (r, fsub (fl (rhs con)) (fl (constant (lhs con))))
      else if String.eqb (sense con) ">=" then
        Ok (map fneg r, fneg (fsub (fl (rhs con)) (fl (constant (lhs con)))))
      else if String.eqb (sense con) "=" then
        Ok (r, fsub (fl (rhs con)) (fl (constant (lhs con))))
      else Raise (unsupported_sense (sense con))
  end.

Fixpoint constraint_rows (n_vars : nat) (cs : list LPConstraint)
    : res (list (list pyfloat) * list pyfloat) :=
  match cs with
  | [] => Ok ([], [])
  | con :: cs' =>
      match constraint_row n_vars con with
      | Raise e => Raise e
      | Ok (r, bi) =>
          match constraint_rows n_vars cs' with
          | Raise e => Raise e
          | Ok (A, b) => Ok (r :: A, bi :: b)
          end
      end
  end.

(** [c = np.zeros(n_vars)], [A = np.zeros((n_constraints, n_vars))],
    [b = np.zeros(n_constraints)], filled in. *)
Definition to_standard_form (mdl : LPModel)
    : res (list pyfloat * Mat * list pyfloat) :=
  let n_vars := length (variables mdl) in
  let c0 := repeat (fl 0) n_vars in
  let c := match objective mdl with
           | None => Ok c0
           | Some obj =>
               set_terms (fun coef => if String.eqb (model_sense mdl) "maximize"
                                      then fl coef else fneg (fl coef))
                 (terms obj) c0
           end in
  match c with
  | Raise e => Raise e
  | Ok c =>
      match constraint_rows n_vars (constraints mdl) with
      | Raise e => Raise e
      | Ok (A, b) => Ok (c, mkMat A n_vars, b)
      end
  end.
(** ** The other methods of [LPModel] ([src/lpsolver/model.py]) *)

(** The characters of a [string] stand for the code points [0..255]. *)

(** Python's [str(n)] of a non-negative [int]: its decimal digits. *)
Definition digit_char (d : nat) : Ascii.ascii := Ascii.ascii_of_nat (48 + d)%nat.

Fixpoint str_nat_fuel (fuel n : nat) (acc : string) : string :=
  match fuel with
  | O => acc
  | S f =>
      let acc' := String (digit_char (n mod 10)%nat) acc in
      match (n / 10)%nat with
      | O => acc'
      | q => str_nat_fuel f q acc'
      end
  end.

Definition py_str_nat (n : nat) : string := str_nat_fuel (S n) n EmptyString.

(** [str.lower] on the code points [0..255]: ['A'..'Z'] and the Latin-1
    capitals [U+00C0..U+00DE] (except the sign [U+00D7]) move up by 32. *)
Definition lower_char (a : Ascii.ascii) : Ascii.ascii :=
  let n := Ascii.nat_of_ascii a in
  if ((65 <=? n) && (n <=? 90)) || ((192 <=? n) && (n <=? 222) && negb (n =? 215))
  then Ascii.ascii_of_nat (n + 32)%nat else a.

Fixpoint py_lower (s : string) : string :=
  match s with
  | EmptyString => EmptyString
  | String a s' => String (lower_char a) (py_lower s')
  end.

(** [add_variable(name, lb, ub)]: the new variable's [name] and [index],
    and the model with the variable appended.  The bounds are stored on the
    variable only; [to_standard_form] never reads them. *)
Definition add_variable (nm : option string) (mdl : LPModel) : (string * nat) * LPModel :=
  let n := length (variables mdl) in
  let nm := match nm with Some s => s | None => ("x" ++ py_str_nat n)%string end in
  ((nm, n), mkModel (variables mdl ++ [nm]) (constraints mdl) (objective mdl)
              (model_sense mdl)).

(** The list comprehension of [add_variables], from [i] on. *)
Fixpoint add_variables_from (i k : nat) (prefix : string) (mdl : LPModel)
    : list (string * nat) * LPModel :=
  match k with
  | O => ([], mdl)
  | S k' =>
      let '(v, mdl1) := add_variable (Some (prefix ++ py_str_nat (S i))%string) mdl in
      let '(vs, mdl2) := add_variables_from (S i) k' prefix mdl1 in
      (v :: vs, mdl2)
  end.

(** [add_variables(count, prefix)]: [range(count)] is empty for
    [count <= 0]. *)
Definition add_variables (count : Z) (prefix : string) (mdl : LPModel)
    : list (string * nat) * LPModel :=
  add_variables_from 0 (Z.to_nat count) prefix mdl.

Definition add_constraint (con : LPConstraint) (mdl : LPModel) : LPModel :=
  mkModel (variables mdl) (constraints mdl ++ [con]) (objective mdl) (model_sense mdl).

(** The argument of [set_objective]: an [LPVariable], given by its
    [index], or an [LPExpression]. *)
Inductive objective_arg : Type :=
| ObjVar (index : nat)
| ObjExpr (e : LPExpression).

Definition set_objective (mdl : LPModel) (expr : objective_arg) (sn : string) : LPModel :=
  let expr := match expr with
              | ObjVar idx => mkExpr [(idx, 1)] 0
              | ObjExpr e => e
              end in
  mkModel (variables mdl) (constraints mdl) (Some expr) (py_lower sn).

(** [solution[var.name] = v] on a [str]-keyed dict. *)
Fixpoint str_dict_set {V} (d : list (string * V)) (k : string) (v : V) : list (string * V) :=
  match d with
  | [] => [(k, v)]
  | (k', w) :: d' =>
      if String.eqb k' k then (k', v) :: d' else (k', w) :: str_dict_set d' k v
  end.

(** The loop [for i, var in enumerate(self.variables): if i <
    len(result["solution"]): solution[var.name] = result["solution"][i]]. *)
Fixpoint variable_values_from (i : nat) (names : list string) (sol : list pyfloat)
    (acc : list (string * pyfloat)) : list (string * pyfloat) :=
  match names with
  | [] => acc
  | nm :: names' =>
      variable_values_from (S i) names' sol
        (if Nat.ltb i (length sol) then str_dict_set acc nm (nth i sol (fl 0)) else acc)
  end.

Definition variable_values (names : list string) (sol : list pyfloat)
    : list (string * pyfloat) :=
  variable_values_from 0 names sol [].


(** [sub in s] for [str]. *)
Fixpoint str_contains (sub s : string) : bool :=
  String.prefix sub s ||
  match s with
  | EmptyString => false
  | String _ s' => str_contains sub s'
  end.

(** [s.split(sep)] for a non-empty [sep]: the pieces between the
    occurrences of [sep], found left to right without overlap. *)
Fixpoint split_fuel (fuel : nat) (sep s cur : string) : list string :=
  match fuel with
  | O => [(cur ++ s)%string]
  | S f =>
      match s with
      | EmptyString => [cur]
      | String a s' =>
          if String.prefix sep s
          then cur :: split_fuel f sep (substring (String.length sep) (String.length s) s)
                        EmptyString
          else split_fuel f sep s' (cur ++ String a EmptyString)
      end
  end.

Definition py_split (s sep : string) : list string :=
  split_fuel (String.length s) sep s EmptyString.

(** [str.strip()]: the whitespace code points of [0..255]. *)
Definition is_space (a : Ascii.ascii) : bool :=
  let n := Ascii.nat_of_ascii a in
  ((9 <=? n) && (n <=? 13)) || ((28 <=? n) && (n <=? 32)) || (n =? 133) || (n =? 160).

Fixpoint lstrip (s : string) : string :=
  match s with
  | EmptyString => EmptyString
  | String a s' => if is_space a then lstrip s' else s
  end.

Definition str_rev (s : string) : string :=
  string_of_list_ascii (rev (list_ascii_of_string s)).

Definition py_strip (s : string) : string := str_rev (lstrip (str_rev (lstrip s))).

(** [_parse_expression]: the names of [var_dict] are replaced in a copy of
    [expr_str] that is never read, and an empty [LPExpression()] is
    returned. *)
Definition model_parse_expression (expr_str : string) (var_dict : list (string * nat))
    : LPExpression :=
  mkExpr [] 0.

(** [lhs_str, rhs_str = parts]: a [ValueError] (whose message depends on the
    Python version) when [parts] does not have two elements. *)
Definition unpack2 (parts : list string) : res (string * string) :=
  match parts with
  | [l; r] => Ok (l, r)
  | _ => Raise (ValueError (UnpackCount (length parts)))
  end.

Section ParseConstraint.

(** [float(s)] on a [str]: its value, or the [ValueError] it raises. *)
Variable py_float : string -> res Q.

(** [_parse_constraint]: the constraint it appends to the model. *)
Definition model_parse_constraint (constraint_str : string) (var_dict : list (string * nat))
    (mdl : LPModel) : res LPModel :=
  let sense :=
    if str_contains "<=" constraint_str then Some "<="%string
    else if str_contains ">=" constraint_str then Some ">="%string
    else if str_contains "=" constraint_str && negb (str_contains "==" constraint_str)
    then Some "="%string
    else None in
  match sense with
  | None => Raise (ValueError ("Invalid constraint format: " ++ constraint_str))
  | Some sn =>
      match unpack2 (py_split constraint_str sn) with
      | Raise e => Raise e
      | Ok (lhs_str, rhs_str) =>
          let lhs := model_parse_expression (py_strip lhs_str) var_dict in
          match py_float (py_strip rhs_str) with
          | Raise e => Raise e
          | Ok rhs => Ok (add_constraint (mkConstraint lhs sn rhs) mdl)
          end
      end
  end.

End ParseConstraint.

(** [d[k]] on a [str]-keyed dict; [None] for a missing key ([KeyError]). *)
Fixpoint str_lookup {V} (d : list (string * V)) (k : string) : option V :=
  match d with
  | [] => None
  | (k', v) :: d' => if String.eqb k' k then Some v else str_lookup d' k
  end.

(** The value paired with the last occurrence of [k]. *)
Fixpoint last_value {V} (ps : list (string * V)) (k : string) : option V :=
  match ps with
  | [] => None
  | (k', v) :: ps' =>
      match last_value ps' k with
      | Some w => Some w
      | None => if String.eqb k' k then Some v else None
      end
  end.

(** Reads a string of decimal digits back. *)
Fixpoint parse_dec (s : string) (v : nat) : nat :=
  match s with
  | EmptyString => v
  | String a s' => parse_dec s' (v * 10 + (Ascii.nat_of_ascii a - 48))
  end.


(** ** The numeric methods in exact arithmetic *)

(** The methods of the solver that compute on the tableau, with every
    float a rational number: the same code as above over [Q], where an
    infinite ratio of the ratio test is [Inf].  On a tableau of finite
    floats, the float methods compute these values as long as no pivot
    element is zero (the lemmas [*_transport]); the arithmetic of the
    simplex method is proved on these definitions. *)
Module Exact.

(** Fields of a [LPSolver] instance ([__init__]).  [tableau] and [basis]
    start as Python [None]; the empty list stands for it, since [solve]
    overwrites both before reading them. *)
Record LPSolver : Type := mkSolver {
  tableau : list (list Q);
  num_variables : nat;
  num_constraints : nat;
  basis : list nat;
  objective_value : option Q;
  solution : option (list Q)
}.

Definition LPSolver_init : LPSolver :=
  mkSolver [] 0 0 [] None None.

Definition M (A : Type) : Type := ST LPSolver A.

(** [T[i]] and [T[i, k]] of the tableau. *)
Definition row (T : list (list Q)) (i : nat) : list Q := nth i T [].
Definition at_ (T : list (list Q)) (i k : nat) : Q := nth k (row T i) 0.

(** [r[-1]] (the RHS entry) of a row. *)
Definition rhs_of (r : list Q) : Q := last r 0.

(** ** The initial tableau *)

(** Row [i] of [np.eye(m)]. *)
Definition eye_row (m i : nat) : list Q :=
  map (fun k => if Nat.eqb k i then 1 else 0) (seq 0 m).

Fixpoint hstack_eye (A : list (list Q)) (m i : nat) : list (list Q) :=
  match A with
  | [] => []
  | r :: A' => (r ++ eye_row m i) :: hstack_eye A' m (S i)
  end.

(** [tableau[0, :-1] = -c], [tableau[0, -1] = 0],
    [tableau[1:, :-1] = A], [tableau[1:, -1] = b]. *)
Definition create_initial_tableau (c : list Q) (A : list (list Q)) (b : list Q)
  : list (list Q) :=
  (map Qopp c ++ [0]) :: map (fun '(r, bi) => r ++ [bi]) (combine A b).

(** ** [get_entering_variable] (Bland's rule) *)

(** The [for j, coeff in enumerate(obj_row)] loop. *)
Fixpoint bland (obj_row : list Q) (j : nat) : option nat :=
  match obj_row with
  | [] => None
  | coeff :: rest =>
      if Qltb coeff (- EPS) && negb (isclose coeff 0 EPS) then Some j
      else bland rest (S j)
  end.

Definition get_entering_variable : M (option nat) :=
  s <- get ;;
  let obj_row := removelast (row (tableau s) 0) in
  if forallb (fun x => Qle_bool (- EPS) x) obj_row then ret None
  else ret (bland obj_row 0).

(** ** [get_leaving_variable] (minimum-ratio test) *)

(** A ratio of the test: a float, or [float('inf')]. *)
Inductive ratio : Type :=
| Fin (q : Q)
| Inf.

(** [<] between two ratios. *)
Definition ratio_ltb (x y : ratio) : bool :=
  match x, y with
  | Fin p, Fin q => Qltb p q
  | Fin _, Inf => true
  | Inf, _ => false
  end.

(** The filter [r[0] >= 0]. *)
Definition ratio_nonneg (x : ratio) : bool :=
  match x with Fin q => Qle_bool 0 q | Inf => true end.

(** The [for i in range(len(b))] loop building [ratios]. *)
Fixpoint ratios_of (column b : list Q) (i : nat) : list (ratio * nat) :=
  match column, b with
  | ci :: column', bi :: b' =>
      (if Qltb EPS ci then Fin (bi / ci) else Inf, i) :: ratios_of column' b' (S i)
  | _, _ => []
  end.

(** Python's [min(xs, key=lambda x: x[0])]: the first element of least key;
    an element replaces the current one only when its key is smaller. *)
Fixpoint min_from (cur : ratio * nat) (xs : list (ratio * nat)) : ratio * nat :=
  match xs with
  | [] => cur
  | x :: xs' => min_from (if ratio_ltb (fst x) (fst cur) then x else cur) xs'
  end.

Definition py_min (xs : list (ratio * nat)) : option (ratio * nat) :=
  match xs with
  | [] => None
  | x :: xs' => Some (min_from x xs')
  end.

Definition get_leaving_variable (entering_idx : nat) : M (option nat) :=
  s <- get ;;
  let rows := tl (tableau s) in
  let column := map (fun r => nth entering_idx r 0) rows in
  let b := map rhs_of rows in
  if forallb (fun x => Qle_bool x EPS) column then ret None
  else
    let ratios := ratios_of column b 0 in
    match py_min (filter (fun r => ratio_nonneg (fst r)) ratios) with
    | Some (_, leaving_idx) => ret (Some leaving_idx)
    | None => raise (ValueError MinEmptyArg)
    end.

(** ** [pivot] *)

(** The loop [for i in range(rows): if i != pivot_row:
    T[i] = T[i] - T[i, entering_idx] * T[pivot_row]], where [T[pivot_row]]
    is already the normalised row [prow] and is not changed by the loop. *)
Fixpoint eliminate (T : list (list Q)) (i pivot_row entering_idx : nat)
    (prow : list Q) : list (list Q) :=
  match T with
  | [] => []
  | r :: T' =>
      (if Nat.eqb i pivot_row then r
       else map2 (fun x y => x - nth entering_idx r 0 * y) r prow)
      :: eliminate T' (S i) pivot_row entering_idx prow
  end.

(** Division by a zero pivot element is a float division in numpy (no
    exception); [Q] division by zero yields 0.  The solver only pivots on
    an entry the leaving rule selected. *)
Definition pivot_tableau (T : list (list Q)) (entering_idx pivot_row : nat)
    : list (list Q) :=
  let pivot_element := at_ T pivot_row entering_idx in
  let prow := map (fun x => x / pivot_element) (row T pivot_row) in
  let T1 := set_nth pivot_row prow T in
  eliminate T1 0 pivot_row entering_idx prow.

Definition pivot (entering_idx leaving_idx : nat) : M unit :=
  s <- get ;;
  let pivot_row := S leaving_idx in
  put {| tableau := pivot_tableau (tableau s) entering_idx pivot_row;
         num_variables := num_variables s;
         num_constraints := num_constraints s;
         basis := set_nth leaving_idx entering_idx (basis s);
         objective_value := objective_value s;
         solution := solution s |}.

(** ** [extract_solution] *)

(** The loop [for i, var_idx in enumerate(self.basis)]. *)
Fixpoint fill_basic (T : list (list Q)) (n_orig : nat) (bs : list nat) (i : nat)
    (sol : list Q) : list Q :=
  match bs with
  | [] => sol
  | var_idx :: bs' =>
      fill_basic T n_orig bs' (S i)
        (if Nat.ltb var_idx n_orig
         then set_nth var_idx (rhs_of (row T (S i))) sol else sol)
  end.

Definition extract_solution : M (list Q * Q) :=
  s <- get ;;
  let n_orig := (num_variables s - num_constraints s)%nat in
  let sol := fill_basic (tableau s) n_orig (basis s) 0
               (repeat 0 (num_variables s)) in
  let objective := - rhs_of (row (tableau s) 0) in
  ret (firstn n_orig sol, objective).

(** ** [solve] *)

(** The dictionary returned by [solve], by its ["status"]. *)
Inductive SolveResult : Type :=
| Optimal (sol : list Q) (objective : Q) (iterations : Z)
| Unbounded (iterations : Z)
| IterationLimit (iterations : Z).

(** One pass of the body of [while iteration < max_iterations]: [Some r]
    when the body returns [r], [None] when it pivots and goes on. *)
Definition body (iteration : Z) : M (option SolveResult) :=
  entering <- get_entering_variable ;;
  match entering with
  | None =>
      so <- extract_solution ;;
      s <- get ;;
      put {| tableau := tableau s; num_variables := num_variables s;
             num_constraints := num_constraints s; basis := basis s;
             objective_value := Some (snd so); solution := Some (fst so) |} ;;;
      ret (Some (Optimal (fst so) (snd so) iteration))
  | Some entering_idx =>
      leaving <- get_leaving_variable entering_idx ;;
      match leaving with
      | None => ret (Some (Unbounded iteration))
      | Some leaving_idx =>
          pivot entering_idx leaving_idx ;;; ret None
      end
  end.


(** Constraint row [i] (0-based, tableau row [i + 1]) is a candidate of
    the ratio test in column [j], and its ratio. *)
Definition candidate (T : list (list Q)) (j i : nat) : Prop :=
  EPS < at_ T (S i) j.

Definition ratio_at (T : list (list Q)) (j i : nat) : Q :=
  rhs_of (row T (S i)) / at_ T (S i) j.

(** ** Invariants of the tableau and the objective of the basic solution *)

(** The basis invariant: for every basis position [i], the column of
    variable [basis[i]], restricted to rows [1..m], is the [i]-th standard
    basis vector. *)
Definition unit_columns (T : list (list Q)) (bs : list nat) : Prop :=
  forall i r, (i < length bs)%nat -> (r < length bs)%nat ->
    at_ T (S r) (nth i bs 0%nat) == (if Nat.eqb r i then 1 else 0).

(** The tableau has rows [0..m], each of [w] entries. *)
Definition well_shaped (T : list (list Q)) (m w : nat) : Prop :=
  length T = S m /\ Forall (fun r => length r = w) T.

Definition qsum (l : list Q) : Q := fold_right Qplus 0 l.

(** [sum_i c[basis[i]] * T[i + 1, k]]. *)
Definition cost_sum (c : list Q) (bs : list nat) (T : list (list Q)) (k : nat) : Q :=
  qsum (map (fun i => nth (nth i bs 0%nat) c 0 * at_ T (S i) k) (seq 0 (length bs))).

(** Row 0 holds the reduced costs of the costs [c] (given for the
    [n + m] columns; the RHS column has cost 0):
    [T[0, k] = -c[k] + sum_i c[basis[i]] * T[i + 1, k]] for every column [k]. *)
Definition reduced_costs (c : list Q) (T : list (list Q)) (bs : list nat) (w : nat) : Prop :=
  forall k, (k < w)%nat -> at_ T 0 k + nth k c 0 == cost_sum c bs T k.

(** [c . x] of two vectors of one length. *)
Definition dot (c x : list Q) : Q := qsum (map2 Qmult c x).

(** The basic solution of a state, as [extract_solution] reads it. *)
Definition basic_solution (s : LPSolver) : list Q :=
  let n_orig := (num_variables s - num_constraints s)%nat in
  firstn n_orig (fill_basic (tableau s) n_orig (basis s) 0 (repeat 0 (num_variables s))).

(** The true objective [c . x] of that basic solution. *)
Definition true_objective (c : list Q) (s : LPSolver) : Q := dot c (basic_solution s).

(** Every constraint row has a nonnegative RHS: the basic solution is
    feasible. *)
Definition feasibleb (s : LPSolver) : bool :=
  forallb (fun r => Qle_bool 0 (rhs_of r)) (tl (tableau s)).

(** The invariant of the tableau along a run, for the costs [c] of the
    structural variables: [n + m] variables, a tableau of [m + 1] rows of
    [n + m + 1] entries, one basic variable per constraint row, each with a
    unit column, and the reduced costs in row 0. *)
Definition tableau_invariant (c : list Q) (s : LPSolver) : Prop :=
  let m := num_constraints s in
  let N := num_variables s in
  (length c + m)%nat = N /\
  well_shaped (tableau s) m (S N) /\ length (basis s) = m /\
  unit_columns (tableau s) (basis s) /\
  reduced_costs (c ++ repeat 0 m) (tableau s) (basis s) (S N).

(** [<=] between two ratios, and the order of the row indices. *)
Definition ratio_le (x y : ratio) : Prop := ratio_ltb y x = false.

Definition idx_lt (x y : ratio * nat) : Prop := (snd x < snd y)%nat.

End Exact.

(** ** Notions used by the statements below *)

(** The value of a finite float (the special values are given 0), and
    whether a float is finite. *)
Definition toQ (x : pyfloat) : Q :=
  match x with Flt q _ => q | _ => 0 end.

Definition finiteb (x : pyfloat) : bool :=
  match x with Flt _ _ => true | _ => false end.

Definition qrow (r : list pyfloat) : list Q := map toQ r.
Definition qtab (T : list (list pyfloat)) : list (list Q) := map qrow T.

(** Every entry of the tableau is a finite float. *)
Definition finite_tab (T : list (list pyfloat)) : bool := forallb (forallb finiteb) T.

(** A ratio of the float ratio test and one of the exact test that agree:
    [inf] and [Inf], or two equal finite values. *)
Definition ratio_rel (x : pyfloat) (y : Exact.ratio) : Prop :=
  match x, y with
  | PInf, Exact.Inf => True
  | Flt p _, Exact.Fin q => p = q
  | _, _ => False
  end.

(** Two entries of the float and the exact ratio lists that agree. *)
Definition ratio_pair_rel (a : pyfloat * nat) (b : Exact.ratio * nat) : Prop :=
  ratio_rel (fst a) (fst b) /\ snd a = snd b.

(** The instance with the values of its floats, and likewise a result. *)
Definition qstate (s : LPSolver) : Exact.LPSolver :=
  Exact.mkSolver (qtab (tableau s)) (num_variables s) (num_constraints s) (basis s)
    (option_map toQ (objective_value s)) (option_map qrow (solution s)).

Definition qresult (r : SolveResult) : Exact.SolveResult :=
  match r with
  | Optimal sol obj k => Exact.Optimal (qrow sol) (toQ obj) k
  | Unbounded k => Exact.Unbounded k
  | IterationLimit k => Exact.IterationLimit k
  end.

(** The instance state after [k] passes of the loop body that each pivot
    without terminating, starting at iteration number [iteration]. *)
Fixpoint reach (k : nat) (iteration : Z) (s : LPSolver) : option LPSolver :=
  match k with
  | O => Some s
  | S k' =>
      match body iteration s with
      | Ok (None, s') => reach k' (iteration + 1)%Z s'
      | _ => None
      end
  end.

(** The returned value of a method call, without the final instance. *)
Definition res_fst {A B} (r : res (A * B)) : res A :=
  match r with Ok (a, _) => Ok a | Raise e => Raise e end.

(** The fields of the instance that [solve] reads. *)
Definition same_core (s s' : LPSolver) : Prop :=
  tableau s = tableau s' /\ num_variables s = num_variables s' /\
  num_constraints s = num_constraints s' /\ basis s = basis s'.

(** The instance [solve] has built when its main loop starts. *)
Definition setup_state (c : list pyfloat) (A : Mat) (b : list pyfloat) : LPSolver :=
  match setup c A b LPSolver_init with
  | Ok (_, s) => s
  | Raise _ => LPSolver_init
  end.

(** A problem [c], [A], [b] for [solve] whose shapes agree:
    [c] of shape [(n,)], [A] of shape [(m, n)], [b] of shape [(m,)], all of
    finite floats. *)
Definition well_formed (c : list pyfloat) (A : Mat) (b : list pyfloat) : Prop :=
  length c = mcols A /\ Forall (fun r => length r = mcols A) (mrows A) /\
  length b = length (mrows A) /\
  forallb finiteb c = true /\ finite_tab (mrows A) = true /\ forallb finiteb b = true.





(** numpy's [x == y] on two floats: [-0.0 == 0.0], [nan] equals nothing. *)
Definition feq (x y : pyfloat) : bool := fle x y && fle y x.

(** The tableau has rows [0..m], each of [w] entries. *)
Definition well_shaped (T : list (list pyfloat)) (m w : nat) : Prop :=
  length T = S m /\ Forall (fun r => length r = w) T.

(** The basis invariant: for every basis position [i], the column of
    variable [basis[i]], restricted to rows [1..m], is the [i]-th standard
    basis vector. *)
Definition unit_columns (T : list (list pyfloat)) (bs : list nat) : Prop :=
  forall i r, (i < length bs)%nat -> (r < length bs)%nat ->
    feq (at_ T (S r) (nth i bs 0%nat)) (if Nat.eqb r i then fl 1 else fl 0) = true.

(** Every constraint row has a nonnegative RHS: the basic solution is
    feasible. *)
Definition feasibleb (s : LPSolver) : bool :=
  forallb (fun r => fle (fl 0) (rhs_of r)) (tl (tableau s)).

(** The basic solution of a state, as [extract_solution] reads it, and
    the value [c . x] of the objective [c] there. *)
Definition basic_solution (s : LPSolver) : list pyfloat :=
  let n_orig := (num_variables s - num_constraints s)%nat in
  firstn n_orig (fill_basic (tableau s) n_orig (basis s) 0
                   (repeat (fl 0) (num_variables s))).

Definition true_objective (c : list pyfloat) (s : LPSolver) : Q :=
  Exact.dot (qrow c) (qrow (basic_solution s)).

(** The states [solve c A b] passes through from [setup] by iterations of its
    loop that pivoted, each of them begun at a feasible basic solution. *)
Inductive feasible_run (c : list pyfloat) (A : Mat) (b : list pyfloat) : LPSolver -> Prop :=
| fr_start : feasible_run c A b (setup_state c A b)
| fr_step (it : Z) (s s' : LPSolver) :
    feasible_run c A b s -> feasibleb s = true -> body it s = Ok (None, s') ->
    feasible_run c A b s'.

(** The senses [to_standard_form] recognises. *)
Definition valid_sense (sn : string) : bool :=
  String.eqb sn "<=" || String.eqb sn ">=" || String.eqb sn "=".

(** Every variable of the objective and of the constraints has an index
    of the model (as [add_variable] assigns them). *)
Definition indices_in_model (mdl : LPModel) : Prop :=
  let n := length (variables mdl) in
  (forall obj, objective mdl = Some obj -> Forall (fun t => (fst t < n)%nat) (terms obj)) /\
  Forall (fun con => Forall (fun t => (fst t < n)%nat) (terms (lhs con))) (constraints mdl).

(** A model with a ['>='] and an ['='] constraint. *)
Definition example_model : LPModel :=
  mkModel ["x"%string; "y"%string]
    [mkConstraint (mkExpr [(0%nat, 1); (1%nat, 2)] 1) ">=" 3;
     mkConstraint (mkExpr [(1%nat, 1)] 0) "=" 4]
    (Some (mkExpr [(0%nat, 1); (1%nat, 1)] 0)) "maximize".

(** ** [src/lpsolver/variables.py]: expressions built with Python operators *)

Module Variables.

(** The exceptions the operators raise. *)
Inductive pyexn : Type :=
| TypeError (msg : string)
| ZeroDivisionError (msg : string)
| RecursionError.

Inductive vres (A : Type) : Type :=
| VOk (a : A)
| VRaise (e : pyexn).
Arguments VOk {A} a.
Arguments VRaise {A} e.

(** An [LPVariable] object: [vid] is its identity (Python's [is]); an
    upper bound [float('inf')] is [PInf]. *)
Record LPVariable : Type := mkVar {
  vid : nat;
  name : string;
  lower_bound : Q;
  upper_bound : pyfloat;
  index : option nat
}.

(** [LPExpression]: its [terms] dictionary in insertion order. *)
Record LPExpression : Type := mkExpr {
  terms : list (LPVariable * Q);
  constant : Q
}.

Record LPConstraint : Type := mkConstraint {
  lhs : LPExpression;
  sense : string;
  rhs : Q
}.

(** The right operand of a binary operator: an [int] or [float], an
    [LPVariable], an [LPExpression], or an object of another type, given by
    the text of its [type(other)]. *)
Inductive operand : Type :=
| Num (q : Q)
| Var (v : LPVariable)
| Expr (e : LPExpression)
| Other (type_text : string).

(** Creating objects: the state is the next fresh object identity. *)
Definition VM (A : Type) : Type := nat -> vres (A * nat).

Definition vret {A} (a : A) : VM A := fun n => VOk (a, n).
Definition vbind {A B} (m : VM A) (k : A -> VM B) : VM B :=
  fun n => match m n with
           | VOk (a, n') => k a n'
           | VRaise e => VRaise e
           end.
Definition vraise {A} (e : pyexn) : VM A := fun _ => VRaise e.
Definition vlift {A} (r : vres A) : VM A :=
  fun n => match r with VOk a => VOk (a, n) | VRaise e => VRaise e end.
Definition fresh : VM nat := fun n => VOk (n, S n).

Local Notation "x <-- m ;; k" := (vbind m (fun x => k))
  (at level 61, m at next level, right associativity).

Definition unsupported (op left_type type_text : string) : pyexn :=
  TypeError ("Unsupported operand type(s) for " ++ op ++ ": '" ++ left_type ++
             "' and '" ++ type_text ++ "'").

Section Dicts.

(** Python's [hash] of a [str]: fixed within one run of the interpreter,
    and salted per run, so every function is a possible one. *)
Variable str_hash : string -> Z.

(** [LPVariable.__hash__]. *)
Definition var_hash (v : LPVariable) : Z := str_hash (name v).

(** The test a dict makes between a stored key [k] and a looked-up key
    [key] of the same hash: identity, else [k == key].  [LPVariable.__eq__]
    (the second definition, the one Python keeps) answers with
    [LPConstraint(LPExpression({self: 1.0, other: -1.0}, 0.0), '=', 0.0)];
    building that dict inserts [other] next to [self], which have the same
    hash and are not identical, so it calls [self == other] again: the
    recursion only ends at the interpreter's recursion limit. *)
Definition same_key (k key : LPVariable) : vres bool :=
  if Z.eqb (var_hash k) (var_hash key) then
    if Nat.eqb (vid k) (vid key) then VOk true else VRaise RecursionError
  else VOk false.

(** [key in d] / [d[key]]: the stored value, [None] when absent.  The keys
    of a dict have distinct hashes, so at most one key is compared. *)
Fixpoint dict_lookup {V} (d : list (LPVariable * V)) (key : LPVariable)
    : vres (option V) :=
  match d with
  | [] => VOk None
  | (k, v) :: d' =>
      match same_key k key with
      | VOk true => VOk (Some v)
      | VOk false => dict_lookup d' key
      | VRaise e => VRaise e
      end
  end.

(** [d[key] = v]: replaces the value in place, or appends the key. *)
Fixpoint dict_set {V} (d : list (LPVariable * V)) (key : LPVariable) (v : V)
    : vres (list (LPVariable * V)) :=
  match d with
  | [] => VOk [(key, v)]
  | (k, w) :: d' =>
      match same_key k key with
      | VOk true => VOk ((k, v) :: d')
      | VOk false =>
          match dict_set d' key v with
          | VOk d'' => VOk ((k, w) :: d'')
          | VRaise e => VRaise e
          end
      | VRaise e => VRaise e
      end
  end.

(** [del d[key]] on a key that is present. *)
Fixpoint dict_del {V} (d : list (LPVariable * V)) (key : LPVariable)
    : vres (list (LPVariable * V)) :=
  match d with
  | [] => VOk []
  | (k, w) :: d' =>
      match same_key k key with
      | VOk true => VOk d'
      | VOk false =>
          match dict_del d' key with
          | VOk d'' => VOk ((k, w) :: d'')
          | VRaise e => VRaise e
          end
      | VRaise e => VRaise e
      end
  end.

(** A dict display [{k1: v1, k2: v2}]: the pairs are inserted in order. *)
Fixpoint dict_insert_all {V} (d : list (LPVariable * V)) (kvs : list (LPVariable * V))
    : vres (list (LPVariable * V)) :=
  match kvs with
  | [] => VOk d
  | (k, v) :: kvs' =>
      match dict_set d k v with
      | VOk d' => dict_insert_all d' kvs'
      | VRaise e => VRaise e
      end
  end.

Definition dict_display (kvs : list (LPVariable * Q)) : vres (list (LPVariable * Q)) :=
  dict_insert_all [] kvs.

(** [LPExpression.add_term]. *)
Definition add_term (self : LPExpression) (var : LPVariable) (coefficient : Q)
    : vres LPExpression :=
  match dict_lookup (terms self) var with
  | VRaise e => VRaise e
  | VOk (Some old) =>
      (* [self.terms[var] += coefficient] *)
      let v := old + coefficient in
      match dict_set (terms self) var v with
      | VRaise e => VRaise e
      | VOk d =>
          if Qltb (Qabs v) EPS then
            match dict_del d var with
            | VRaise e => VRaise e
            | VOk d' => VOk (mkExpr d' (constant self))
            end
          else VOk (mkExpr d (constant self))
      end
  | VOk None =>
      match dict_set (terms self) var coefficient with
      | VRaise e => VRaise e
      | VOk d => VOk (mkExpr d (constant self))
      end
  end.

(** [for var, coef in items: result.add_term(var, f(coef))]. *)
Fixpoint add_terms (self : LPExpression) (items : list (LPVariable * Q)) (f : Q -> Q)
    : vres LPExpression :=
  match items with
  | [] => VOk self
  | (var, coef) :: items' =>
      match add_term self var (f coef) with
      | VOk self' => add_terms self' items' f
      | VRaise e => VRaise e
      end
  end.

(** [LPExpression.scale]: each stored key is looked up by itself, which
    the identity test answers. *)
Definition scale (self : LPExpression) (factor : Q) : LPExpression :=
  mkExpr (map (fun '(v, c) => (v, c * factor)) (terms self)) (constant self * factor).

(** [copy.deepcopy] of an expression: every key variable is copied to a
    new object with the same attributes; the floats are shared. *)
Definition copy_var (v : LPVariable) : VM LPVariable :=
  i <-- fresh ;;
  vret (mkVar i (name v) (lower_bound v) (upper_bound v) (index v)).

Fixpoint copy_terms (ts : list (LPVariable * Q)) : VM (list (LPVariable * Q)) :=
  match ts with
  | [] => vret []
  | (v, c) :: ts' =>
      v' <-- copy_var v ;;
      ts'' <-- copy_terms ts' ;;
      vret ((v', c) :: ts'')
  end.

Definition deepcopy (e : LPExpression) : VM LPExpression :=
  ts <-- copy_terms (terms e) ;;
  vret (mkExpr ts (constant e)).

(** *** [LPVariable]'s operators *)

Definition var_add (self : LPVariable) (other : operand) : VM LPExpression :=
  match other with
  | Num q => t <-- vlift (dict_display [(self, 1)]) ;; vret (mkExpr t q)
  | Var o => t <-- vlift (dict_display [(self, 1); (o, 1)]) ;; vret (mkExpr t 0)
  | Expr e => result <-- deepcopy e ;; vlift (add_term result self 1)
  | Other ty => vraise (unsupported "+" "LPVariable" ty)
  end.

Definition var_sub (self : LPVariable) (other : operand) : VM LPExpression :=
  match other with
  | Num q => t <-- vlift (dict_display [(self, 1)]) ;; vret (mkExpr t (- q))
  | Var o => t <-- vlift (dict_display [(self, 1); (o, -1)]) ;; vret (mkExpr t 0)
  | Expr e => result <-- deepcopy e ;; vlift (add_term (scale result (-1)) self 1)
  | Other ty => vraise (unsupported "-" "LPVariable" ty)
  end.

Definition var_rsub (self : LPVariable) (other : operand) : VM LPExpression :=
  match other with
  | Num q => t <-- vlift (dict_display [(self, -1)]) ;; vret (mkExpr t q)
  | Var _ => vraise (unsupported "-" "<class 'lpsolver.variables.LPVariable'>" "LPVariable")
  | Expr _ => vraise (unsupported "-" "<class 'lpsolver.variables.LPExpression'>" "LPVariable")
  | Other ty => vraise (unsupported "-" ty "LPVariable")
  end.

Definition var_mul (self : LPVariable) (other : operand) : VM LPExpression :=
  match other with
  | Num q => t <-- vlift (dict_display [(self, q)]) ;; vret (mkExpr t 0)
  | Var _ => vraise (unsupported "*" "LPVariable" "<class 'lpsolver.variables.LPVariable'>")
  | Expr _ => vraise (unsupported "*" "LPVariable" "<class 'lpsolver.variables.LPExpression'>")
  | Other ty => vraise (unsupported "*" "LPVariable" ty)
  end.

Definition var_truediv (self : LPVariable) (other : operand) : VM LPExpression :=
  match other with
  | Num q =>
      if Qeq_bool q 0 then vraise (ZeroDivisionError "Division by zero")
      else t <-- vlift (dict_display [(self, 1 / q)]) ;; vret (mkExpr t 0)
  | Var _ => vraise (unsupported "/" "LPVariable" "<class 'lpsolver.variables.LPVariable'>")
  | Expr _ => vraise (unsupported "/" "LPVariable" "<class 'lpsolver.variables.LPExpression'>")
  | Other ty => vraise (unsupported "/" "LPVariable" ty)
  end.

Definition var_neg (self : LPVariable) : VM LPExpression :=
  t <-- vlift (dict_display [(self, -1)]) ;; vret (mkExpr t 0).

(** [__le__] ([op = "<="]) and [__ge__] ([op = ">="]). *)
Definition var_cmp (op : string) (self : LPVariable) (other : operand) : VM LPConstraint :=
  match other with
  | Num q => t <-- vlift (dict_display [(self, 1)]) ;; vret (mkConstraint (mkExpr t 0) op q)
  | Var o =>
      t <-- vlift (dict_display [(self, 1); (o, -1)]) ;;
      vret (mkConstraint (mkExpr t 0) op 0)
  | Expr e => l <-- var_sub self (Expr e) ;; vret (mkConstraint l op 0)
  | Other ty => vraise (unsupported op "LPVariable" ty)
  end.

(** *** [LPExpression]'s operators *)

Definition expr_add (self : LPExpression) (other : operand) : VM LPExpression :=
  result <-- deepcopy self ;;
  match other with
  | Num q => vret (mkExpr (terms result) (constant result + q))
  | Var v => vlift (add_term result v 1)
  | Expr o =>
      r <-- vlift (add_terms result (terms o) (fun coef => coef)) ;;
      vret (mkExpr (terms r) (constant r + constant o))
  | Other ty => vraise (unsupported "+" "LPExpression" ty)
  end.

Definition expr_sub (self : LPExpression) (other : operand) : VM LPExpression :=
  result <-- deepcopy self ;;
  match other with
  | Num q => vret (mkExpr (terms result) (constant result - q))
  | Var v => vlift (add_term result v (-1))
  | Expr o =>
      r <-- vlift (add_terms result (terms o) (fun coef => - coef)) ;;
      vret (mkExpr (terms r) (constant r - constant o))
  | Other ty => vraise (unsupported "-" "LPExpression" ty)
  end.

Definition expr_rsub (self : LPExpression) (other : operand) : VM LPExpression :=
  result <-- deepcopy self ;;
  let result := scale result (-1) in
  match other with
  | Num q => vret (mkExpr (terms result) (constant result + q))
  | Var _ => vraise (unsupported "-" "<class 'lpsolver.variables.LPVariable'>" "LPExpression")
  | Expr _ => vraise (unsupported "-" "<class 'lpsolver.variables.LPExpression'>" "LPExpression")
  | Other ty => vraise (unsupported "-" ty "LPExpression")
  end.

Definition expr_mul (self : LPExpression) (other : operand) : VM LPExpression :=
  match other with
  | Num q => result <-- deepcopy self ;; vret (scale result q)
  | Var _ => vraise (unsupported "*" "LPExpression" "<class 'lpsolver.variables.LPVariable'>")
  | Expr _ => vraise (unsupported "*" "LPExpression" "<class 'lpsolver.variables.LPExpression'>")
  | Other ty => vraise (unsupported "*" "LPExpression" ty)
  end.

Definition expr_truediv (self : LPExpression) (other : operand) : VM LPExpression :=
  match other with
  | Num q =>
      if Qeq_bool q 0 then vraise (ZeroDivisionError "Division by zero")
      else result <-- deepcopy self ;; vret (scale result (1 / q))
  | Var _ => vraise (unsupported "/" "LPExpression" "<class 'lpsolver.variables.LPVariable'>")
  | Expr _ => vraise (unsupported "/" "LPExpression" "<class 'lpsolver.variables.LPExpression'>")
  | Other ty => vraise (unsupported "/" "LPExpression" ty)
  end.

Definition expr_neg (self : LPExpression) : VM LPExpression :=
  result <-- deepcopy self ;; vret (scale result (-1)).

(** [__eq__] ([op = "="]), [__le__] ([op = "<="]) and [__ge__] ([op = ">="]). *)
Definition expr_cmp (op : string) (self : LPExpression) (other : operand) : VM LPConstraint :=
  match other with
  | Num q => c <-- deepcopy self ;; vret (mkConstraint c op q)
  | Var v => l <-- expr_sub self (Var v) ;; vret (mkConstraint l op 0)
  | Expr o => l <-- expr_sub self (Expr o) ;; vret (mkConstraint l op 0)
  | Other ty => vraise (unsupported (if String.eqb op "=" then "==" else op) "LPExpression" ty)
  end.

End Dicts.


End Variables.

(** ** The parser ([src/lpsolver/parser.py]) *)

Module Parser.
Import Variables.

(** The exceptions [parse_expression] and [parse_constraint] can raise:
    those of [float], of unpacking and their own [ValueError]s (the type
    [exn]), and those of [LPExpression.add_term] (the type [pyexn]). *)
Inductive pexn : Type :=
| PExn (e : exn)
| PPyExn (e : pyexn).

Inductive pres (A : Type) : Type :=
| POk (a : A)
| PRaise (e : pexn).
Arguments POk {A} a.
Arguments PRaise {A} e.

(** [s.replace(old, new)] for a non-empty [old]: the occurrences of [old],
    found left to right without overlap, replaced by [new]. *)
Fixpoint replace_fuel (fuel : nat) (old new s : string) : string :=
  match fuel with
  | O => s
  | S f =>
      match s with
      | EmptyString => EmptyString
      | String a s' =>
          if String.prefix old s
          then (new ++ replace_fuel f old new
                         (substring (String.length old) (String.length s) s))%string
          else String a (replace_fuel f old new s')
      end
  end.

Definition py_replace (s old new : string) : string :=
  replace_fuel (String.length s) old new s.

(** [s.split(sep, 1)] for a non-empty [sep]: the pieces before and after the
    first occurrence of [sep], or [[s]] without one. *)
Fixpoint split1_fuel (fuel : nat) (sep s cur : string) : list string :=
  match fuel with
  | O => [(cur ++ s)%string]
  | S f =>
      match s with
      | EmptyString => [cur]
      | String a s' =>
          if String.prefix sep s
          then [cur; substring (String.length sep) (String.length s) s]
          else split1_fuel f sep s' (cur ++ String a EmptyString)
      end
  end.

Definition py_split1 (s sep : string) : list string :=
  split1_fuel (String.length s) sep s EmptyString.

(** [s[1:]]. *)
Definition str_tail (s : string) : string :=
  match s with
  | EmptyString => EmptyString
  | String _ s' => s'
  end.

(** [variables[name]] on the dict [variables] of [str] keys, given by its
    items; [None] when [name not in variables]. *)
Fixpoint var_lookup (variables : list (string * LPVariable)) (nm : string)
    : option LPVariable :=
  match variables with
  | [] => None
  | (k, v) :: d => if String.eqb k nm then Some v else var_lookup d nm
  end.

Definition lift_vres {A} (r : vres A) : pres A :=
  match r with
  | VOk a => POk a
  | VRaise e => PRaise (PPyExn e)
  end.

Section Parse.

Variable str_hash : string -> Z.

(** [float(s)] on a [str]: its value, or the exception it raises. *)
Variable py_float : string -> res Q.

(** The end of the loop body of [parse_expression]: [var_name =
    var_name.strip()], then [expression.add_term(variables[var_name], coef)]. *)
Definition add_named_term (variables : list (string * LPVariable))
    (expression : LPExpression) (coef : Q) (var_name : string) : pres LPExpression :=
  let var_name := py_strip var_name in
  match var_lookup variables var_name with
  | Some v => lift_vres (add_term str_hash expression v coef)
  | None => PRaise (PExn (ValueError ("Unknown variable: " ++ var_name)))
  end.

(** The loop body of [parse_expression] on one piece [term] of the split
    string: the expression after it. *)
Definition parse_term (variables : list (string * LPVariable))
    (expression : LPExpression) (term : string) : pres LPExpression :=
  let term := py_strip term in
  if String.eqb term EmptyString then POk expression else
  let negative := String.prefix "-" term in
  let term := if negative then py_strip (str_tail term) else term in
  let signed := fun coef : Q => if negative then - coef else coef in
  if str_contains "*" term then
    match unpack2 (py_split1 term "*") with
    | Raise e => PRaise (PExn e)
    | Ok (coef_str, var_name) =>
        match py_float (py_strip coef_str) with
        | Ok coef => add_named_term variables expression (signed coef) var_name
        | Raise (ValueError _) =>
            match unpack2 (py_split1 term "*") with
            | Raise e => PRaise (PExn e)
            | Ok (var_name, coef_str) =>
                match py_float (py_strip coef_str) with
                | Ok coef => add_named_term variables expression (signed coef) var_name
                | Raise e => PRaise (PExn e)
                end
            end
        | Raise e => PRaise (PExn e)
        end
    end
  else
    match py_float term with
    | Ok coef => POk (mkExpr (terms expression) (constant expression + coef))
    | Raise (ValueError _) =>
        add_named_term variables expression (if negative then -1 else 1) term
    | Raise e => PRaise (PExn e)
    end.

Fixpoint parse_terms (variables : list (string * LPVariable)) (expression : LPExpression)
    (pieces : list string) : pres LPExpression :=
  match pieces with
  | [] => POk expression
  | term :: pieces' =>
      match parse_term variables expression term with
      | POk expression' => parse_terms variables expression' pieces'
      | PRaise e => PRaise e
      end
  end.

Definition parse_expression (expr_str : string) (variables : list (string * LPVariable))
    : pres LPExpression :=
  let expr_str := py_replace (py_replace expr_str "-" "+-") "=" EmptyString in
  parse_terms variables (mkExpr [] 0) (py_split expr_str "+").

Definition parse_constraint (constr_str : string) (variables : list (string * LPVariable))
    : pres LPConstraint :=
  let op := if str_contains "<=" constr_str then Some "<="%string
            else if str_contains ">=" constr_str then Some ">="%string
            else if str_contains "=" constr_str then Some "="%string
            else None in
  match op with
  | None => PRaise (PExn (ValueError ("No operator found in constraint: " ++ constr_str)))
  | Some sense =>
      match unpack2 (py_split1 constr_str sense) with
      | Raise e => PRaise (PExn e)
      | Ok (lhs_str, rhs_str) =>
          match parse_expression lhs_str variables with
          | PRaise e => PRaise e
          | POk lhs =>
              match py_float (py_strip rhs_str) with
              | Ok rhs => POk (mkConstraint lhs sense rhs)
              | Raise (ValueError _) =>
                  match parse_expression rhs_str variables with
                  | PRaise e => PRaise e
                  | POk rhs_expr =>
                      (* [lhs.add_term(var, -coef)] for the items of [rhs_expr.terms] *)
                      match add_terms str_hash lhs (terms rhs_expr) (fun coef => - coef) with
                      | VRaise e => PRaise (PPyExn e)
                      | VOk lhs' => POk (mkConstraint lhs' sense (- constant rhs_expr))
                      end
                  end
              | Raise e => PRaise (PExn e)
              end
          end
      end
  end.

End Parse.

End Parser.

(** ** Proofs *)

Ltac monad_unfold :=
  unfold bind, ret, get, put, raise in *.

Ltac case_match_in H :=
  match type of H with
  | context [match ?x with _ => _ end] => destruct x eqn:?
  end.

Ltac case_match_goal :=
  match goal with
  | |- context [match ?x with _ => _ end] => destruct x eqn:?
  end.

(** *** Lists *)

Lemma length_set_nth {A} (i : nat) (x : A) (l : list A) :
  length (set_nth i x l) = length l.
Proof.
  revert i. induction l as [| y l IH]; intros [| i]; cbn; auto.
Qed.

Lemma nth_set_nth_eq {A} (u : nat) (x d : A) (l : list A) :
  (u < length l)%nat -> nth u (set_nth u x l) d = x.
Proof.
  revert u. induction l as [| y l IH]; intros [| u] H; cbn in *; try lia; auto;
    try (apply IH; lia).
Qed.

Lemma nth_set_nth_neq {A} (u v : nat) (x d : A) (l : list A) :
  v <> u -> nth v (set_nth u x l) d = nth v l d.
Proof.
  revert u v. induction l as [| y l IH]; intros [| u] [| v] H; cbn; auto; try lia;
    try (apply IH; lia).
Qed.

Lemma map_set_nth {A B} (f : A -> B) (i : nat) (x : A) (l : list A) :
  map f (set_nth i x l) = set_nth i (f x) (map f l).
Proof.
  revert i. induction l as [| y l IH]; intros [| i]; cbn; f_equal; auto.
Qed.

Lemma nth_firstn_lt {A} (n v : nat) (l : list A) (d : A) :
  (v < n)%nat -> nth v (firstn n l) d = nth v l d.
Proof.
  revert n v. induction l as [| y l IH]; intros [| n] [| v] H; cbn; auto; try lia;
    try (apply IH; lia).
Qed.

Lemma length_map2 {A B C} (f : A -> B -> C) (l1 : list A) (l2 : list B) :
  length (map2 f l1 l2) = Nat.min (length l1) (length l2).
Proof.
  revert l2. induction l1 as [| x l1 IH]; intros [| y l2]; cbn; auto.
Qed.

Lemma nth_map2 {A B C} (f : A -> B -> C) (l1 : list A) (l2 : list B) (k : nat)
    (d1 : A) (d2 : B) (d : C) :
  (k < length l1)%nat -> (k < length l2)%nat ->
  nth k (map2 f l1 l2) d = f (nth k l1 d1) (nth k l2 d2).
Proof.
  revert l2 k. induction l1 as [| x l1 IH]; intros [| y l2] [| k] H1 H2;
    cbn in *; try lia; auto.
  apply IH; lia.
Qed.


Lemma forallb_false_exists {A} (f : A -> bool) (l : list A) :
  forallb f l = false -> exists x, In x l /\ f x = false.
Proof.
  induction l as [| x l IH]; cbn; [discriminate |].
  destruct (f x) eqn:E; cbn; intro H.
  - destruct (IH H) as (y & Hy & Hf). eauto.
  - eauto.
Qed.

Lemma filter_sorted {A} (R : A -> A -> Prop) (f : A -> bool) (l : list A) :
  StronglySorted R l -> StronglySorted R (filter f l).
Proof.
  induction l as [| x l IH]; intro H; cbn; [constructor |].
  inversion H as [| ? ? Hs Hf]; subst.
  destruct (f x); [constructor |]; auto.
  apply Forall_forall. intros y Hy. apply filter_In in Hy as [Hy _].
  rewrite Forall_forall in Hf. auto.
Qed.

Lemma firstn_repeat_add {A} (x : A) (n m : nat) :
  firstn n (repeat x (n + m)) = repeat x n.
Proof. induction n as [| n IH]; cbn; [reflexivity | rewrite IH; reflexivity]. Qed.

Lemma nth_map_nil {A B} (f : list A -> B) (dflt : B) (l : list (list A)) (d : nat) :
  f [] = dflt -> nth d (map f l) dflt = f (nth d l []).
Proof. intros <-. apply map_nth. Qed.


Lemma last_nth_len {A} (l : list A) (N : nat) (d : A) :
  length l = S N -> last l d = nth N l d.
Proof.
  revert N. induction l as [| x l IH]; intros N H; cbn in H; [discriminate |].
  destruct l as [| y l]; cbn in H.
  - injection H as <-. reflexivity.
  - injection H as H. destruct N as [| N]; [discriminate |].
    change (last (y :: l) d = nth N (y :: l) d). apply IH. cbn. lia.
Qed.

Lemma nth_removelast_lt {A} (l : list A) (n : nat) (d : A) :
  (n < length (removelast l))%nat -> nth n (removelast l) d = nth n l d.
Proof.
  revert n. induction l as [| x l IH]; intros n H; [reflexivity |].
  destruct l as [| y l]; cbn in H; [lia |].
  destruct n as [| n]; [reflexivity |].
  change (nth n (removelast (y :: l)) d = nth n (y :: l) d).
  apply IH. cbn. lia.
Qed.

Lemma length_removelast_S {A} (l : list A) (N : nat) :
  length l = S N -> length (removelast l) = N.
Proof.
  revert N. induction l as [| x l IH]; intros N H; cbn in H; [discriminate |].
  destruct l as [| y l]; cbn in H |- *.
  - lia.
  - injection H as H. destruct N as [| N]; [discriminate |].
    f_equal. apply IH. cbn. lia.
Qed.

Lemma map_removelast {A B} (f : A -> B) (l : list A) :
  map f (removelast l) = removelast (map f l).
Proof.
  induction l as [| x l IH]; [reflexivity |].
  destruct l as [| y l]; [reflexivity |].
  change (f x :: map f (removelast (y :: l)) = f x :: removelast (map f (y :: l))).
  rewrite IH. reflexivity.
Qed.

Lemma map_last_dflt {A B} (f : A -> B) (l : list A) (d : A) :
  f (last l d) = last (map f l) (f d).
Proof.
  induction l as [| x l IH]; [reflexivity |].
  destruct l as [| y l]; [reflexivity |].
  exact IH.
Qed.

(** *** Rational numbers *)

Lemma Qltb_iff (x y : Q) : Qltb x y = true <-> x < y.
Proof.
  unfold Qltb. rewrite negb_true_iff.
  split; intro H.
  - apply Qnot_le_lt. intro H'. apply Qle_bool_iff in H'. congruence.
  - destruct (Qle_bool y x) eqn:E; [| reflexivity].
    apply Qle_bool_iff in E. exfalso. apply (Qlt_not_le _ _ H E).
Qed.



Lemma isclose_below (x : Q) : x < - EPS -> isclose x 0 EPS = false.
Proof.
  intro H. unfold isclose.
  destruct (Qle_bool _ _) eqn:E; [| reflexivity].
  apply Qle_bool_iff in E. exfalso.
  assert (Hx : Qabs (x - 0) == - x).
  { rewrite Qabs_neg; [ring |]. unfold EPS in H. lra. }
  assert (H0 : Qabs 0 == 0) by reflexivity.
  rewrite Hx, H0 in E. unfold EPS, RTOL in *. lra.
Qed.

Lemma div_nonneg_iff (b c : Q) : 0 < c -> (0 <= b / c <-> 0 <= b).
Proof.
  intro Hc. split; intro H.
  - setoid_replace b with ((b / c) * c) by (field; intro Hz; rewrite Hz in Hc; discriminate).
    apply Qmult_le_0_compat; lra.
  - apply Qle_shift_div_l; [exact Hc | lra].
Qed.

Lemma EPS_pos : 0 < EPS.
Proof. reflexivity. Qed.
(** *** The arithmetic of the simplex method, in exact arithmetic *)

Module ExactProofs.
Import Exact.

Lemma ex_bland_some (l : list Q) (k j : nat) :
  bland l k = Some j ->
  exists d, j = (k + d)%nat /\ (d < length l)%nat /\ nth d l 0 < - EPS /\
            forall t, (t < d)%nat -> - EPS <= nth t l 0.
Proof.
  revert k. induction l as [| x l IH]; intros k H; cbn in H; [discriminate |].
  destruct (Qltb x (- EPS)) eqn:E1; cbn in H.
  - apply Qltb_iff in E1. rewrite (isclose_below _ E1) in H. cbn in H.
    inversion H; subst. exists 0%nat. rewrite Nat.add_0_r.
    repeat split; cbn; [lia | exact E1 | intros; lia].
  - assert (Hx : - EPS <= x).
    { apply Qnot_lt_le. intro Hl. apply Qltb_iff in Hl. congruence. }
    destruct (IH _ H) as (d & -> & Hd & Hn & Hb).
    exists (S d). repeat split; cbn; [lia | lia | exact Hn |].
    intros [| t] Ht; [exact Hx | apply Hb; lia].
Qed.

Lemma ex_bland_below (l : list Q) (k : nat) :
  forallb (fun x => Qle_bool (- EPS) x) l = false -> bland l k <> None.
Proof.
  revert k. induction l as [| x l IH]; intros k H; cbn in *; [discriminate |].
  destruct (Qle_bool (- EPS) x) eqn:E; cbn in H.
  - assert (Hn : Qltb x (- EPS) = false).
    { unfold Qltb. rewrite E. reflexivity. }
    rewrite Hn. cbn. apply IH. exact H.
  - assert (Hl : x < - EPS).
    { apply Qnot_le_lt. intro Hle. apply Qle_bool_iff in Hle. congruence. }
    assert (Hn : Qltb x (- EPS) = true) by (apply Qltb_iff; exact Hl).
    rewrite Hn, (isclose_below _ Hl). discriminate.
Qed.

Lemma ex_forallb_nth (l : list Q) :
  forallb (fun x => Qle_bool (- EPS) x) l = true <->
  forall k, (k < length l)%nat -> - EPS <= nth k l 0.
Proof.
  rewrite forallb_forall. split.
  - intros H k Hk. apply Qle_bool_iff, H, nth_In, Hk.
  - intros H x Hx. apply In_nth with (d := 0) in Hx as (k & Hk & <-).
    apply Qle_bool_iff, H, Hk.
Qed.

Lemma ex_ratio_le_trans (x y z : ratio) : ratio_le x y -> ratio_le y z -> ratio_le x z.
Proof.
  unfold ratio_le; destruct x as [p|], y as [q|], z as [r|]; cbn; auto;
    try discriminate.
  intros H1 H2. destruct (Qltb r p) eqn:E; [| reflexivity].
  apply Qltb_iff in E.
  assert (H1' : ~ q < p) by (intro Hc; apply Qltb_iff in Hc; congruence).
  assert (H2' : ~ r < q) by (intro Hc; apply Qltb_iff in Hc; congruence).
  exfalso. apply Qnot_lt_le in H1', H2'. lra.
Qed.

Lemma ex_ratio_le_lt_trans (x y z : ratio) :
  ratio_le x y -> ratio_ltb y z = true -> ratio_ltb x z = true.
Proof.
  unfold ratio_le; destruct x as [p|], y as [q|], z as [r|]; cbn; auto;
    try discriminate.
  intros H1 H2. apply Qltb_iff in H2. apply Qltb_iff.
  assert (H1' : ~ q < p) by (intro Hc; apply Qltb_iff in Hc; congruence).
  apply Qnot_lt_le in H1'. lra.
Qed.

Lemma ex_ratio_lt_le_trans (x y z : ratio) :
  ratio_ltb x y = true -> ratio_le y z -> ratio_ltb x z = true.
Proof.
  unfold ratio_le; destruct x as [p|], y as [q|], z as [r|]; cbn; auto;
    try discriminate.
  intros H1 H2. apply Qltb_iff in H1. apply Qltb_iff.
  assert (H2' : ~ r < q) by (intro Hc; apply Qltb_iff in Hc; congruence).
  apply Qnot_lt_le in H2'. lra.
Qed.

Lemma ex_ratio_le_refl (x : ratio) : ratio_le x x.
Proof.
  unfold ratio_le; destruct x as [p|]; cbn; [| reflexivity].
  destruct (Qltb p p) eqn:E; [| reflexivity].
  apply Qltb_iff in E. exfalso. apply (Qlt_irrefl _ E).
Qed.

(** Python's [min] returns an element of the list, of least key, and the
    first one among those of least key. *)
Lemma ex_min_from_spec (cur : ratio * nat) (xs : list (ratio * nat)) :
  StronglySorted idx_lt (cur :: xs) ->
  let r := min_from cur xs in
  In r (cur :: xs) /\
  (forall y, In y (cur :: xs) -> ratio_le (fst r) (fst y)) /\
  (forall y, In y (cur :: xs) -> (snd y < snd r)%nat -> ratio_ltb (fst r) (fst y) = true).
Proof.
  revert cur. induction xs as [| x xs IH]; intros cur Hs r.
  - subst r. cbn. split; [left; reflexivity |]. split.
    + intros y [<-|[]]. apply ex_ratio_le_refl.
    + intros y [<-|[]] Hl. lia.
  - inversion Hs as [| ? ? Hs' Hf]; subst.
    inversion Hs' as [| ? ? Hs'' Hf']; subst.
    inversion Hf as [| ? ? Hcx Hfx]; subst.
    set (cur' := if ratio_ltb (fst x) (fst cur) then x else cur).
    assert (Hs2 : StronglySorted idx_lt (cur' :: xs)).
    { constructor; [exact Hs'' |]. unfold cur'.
      destruct (ratio_ltb (fst x) (fst cur)); assumption. }
    destruct (IH cur' Hs2) as (Hin & Hle & Hlt).
    assert (Hr : r = min_from cur' xs) by reflexivity.
    rewrite <- Hr in Hin, Hle, Hlt. clearbody r.
    assert (Hcc : ratio_le (fst cur') (fst cur) /\ ratio_le (fst cur') (fst x)).
    { unfold cur'. destruct (ratio_ltb (fst x) (fst cur)) eqn:E.
      - split; [| apply ex_ratio_le_refl]. unfold ratio_le.
        destruct (ratio_ltb (fst cur) (fst x)) eqn:E2; [| reflexivity].
        exfalso. destruct (fst x) as [p|], (fst cur) as [q|]; cbn in E, E2;
          try discriminate.
        apply Qltb_iff in E, E2. lra.
      - split; [apply ex_ratio_le_refl | exact E]. }
    split; [| split].
    + destruct Hin as [Hin|Hin].
      * unfold cur' in Hin. destruct (ratio_ltb _ _); rewrite <- Hin;
          [right; left | left]; reflexivity.
      * right; right; exact Hin.
    + intros y [<-|[<-|Hy]].
      * apply (ex_ratio_le_trans _ (fst cur')); [apply Hle; left; reflexivity | apply Hcc].
      * apply (ex_ratio_le_trans _ (fst cur')); [apply Hle; left; reflexivity | apply Hcc].
      * apply Hle. right. exact Hy.
    + intros y Hy Hlty.
      destruct (ratio_ltb (fst x) (fst cur)) eqn:E.
      * assert (Hc' : cur' = x) by (unfold cur'; rewrite ?E; reflexivity).
        destruct Hy as [<-|[<-|Hy]].
        -- apply (ex_ratio_le_lt_trans _ (fst x)); [| exact E].
           rewrite <- Hc'. apply Hle. left. reflexivity.
        -- apply Hlt; [left; exact Hc' | exact Hlty].
        -- apply Hlt; [right; exact Hy | exact Hlty].
      * assert (Hc' : cur' = cur) by (unfold cur'; rewrite ?E; reflexivity).
        destruct Hy as [<-|[<-|Hy]].
        -- apply Hlt; [left; exact Hc' | exact Hlty].
        -- (* [x] was not kept: [r] comes after [x], hence after [cur] *)
           assert (Hrc : ratio_ltb (fst r) (fst cur) = true).
           { apply Hlt; [left; exact Hc' |]. unfold idx_lt in Hcx. lia. }
           apply (ex_ratio_lt_le_trans _ (fst cur)); [exact Hrc | exact E].
        -- apply Hlt; [right; exact Hy | exact Hlty].
Qed.

Lemma ex_ratios_of_In (col b : list Q) (k i : nat) (x : ratio) :
  In (x, i) (ratios_of col b k) <->
  exists d, i = (k + d)%nat /\ (d < length col)%nat /\ (d < length b)%nat /\
    x = (if Qltb EPS (nth d col 0) then Fin (nth d b 0 / nth d col 0) else Inf).
Proof.
  revert b k. induction col as [| ci col IH]; intros [| bi b] k; cbn.
  - split; [intros [] | intros (d & _ & Hd & _); lia].
  - split; [intros [] | intros (d & _ & Hd & _); lia].
  - split; [intros [] | intros (d & _ & _ & Hd & _); lia].
  - rewrite IH. split.
    + intros [Heq | (d & -> & Hd1 & Hd2 & ->)].
      * inversion Heq; subst. exists 0%nat. repeat split; lia.
      * exists (S d). repeat split; [lia | lia | lia].
    + intros ([| d] & -> & Hd1 & Hd2 & ->).
      * left. rewrite Nat.add_0_r. reflexivity.
      * right. exists d. repeat split; lia.
Qed.

Lemma ex_ratios_of_sorted (col b : list Q) (k : nat) :
  StronglySorted idx_lt (ratios_of col b k).
Proof.
  revert b k. induction col as [| ci col IH]; intros [| bi b] k; cbn;
    constructor; auto.
  apply Forall_forall. intros [x i] Hin. apply ex_ratios_of_In in Hin.
  destruct Hin as (d & -> & _). unfold idx_lt. cbn. lia.
Qed.

Lemma ex_nth_tl (T : list (list Q)) (d : nat) : nth d (tl T) [] = row T (S d).
Proof. destruct T; [destruct d |]; reflexivity. Qed.

Lemma ex_column_nth (T : list (list Q)) (j d : nat) :
  nth d (map (fun r => nth j r 0) (tl T)) 0 = at_ T (S d) j.
Proof.
  rewrite (nth_map_nil (fun r => nth j r 0)); [| destruct j; reflexivity].
  rewrite ex_nth_tl. reflexivity.
Qed.

Lemma ex_rhs_nth (T : list (list Q)) (d : nat) :
  nth d (map rhs_of (tl T)) 0 = rhs_of (row T (S d)).
Proof. rewrite (nth_map_nil rhs_of); [| reflexivity]. rewrite ex_nth_tl. reflexivity. Qed.

Lemma ex_filtered_ratios_In (T : list (list Q)) (j i : nat) (x : ratio) :
  In (x, i) (filter (fun r => ratio_nonneg (fst r))
               (ratios_of (map (fun r => nth j r 0) (tl T))
                          (map rhs_of (tl T)) 0)) <->
  (i < length (tl T))%nat /\
  x = (if Qltb EPS (at_ T (S i) j) then Fin (ratio_at T j i) else Inf) /\
  ratio_nonneg x = true.
Proof.
  rewrite filter_In, ex_ratios_of_In, !length_map. cbn. split.
  - intros ((d & -> & Hd & _ & ->) & Hn).
    rewrite ex_column_nth, ex_rhs_nth in *. auto.
  - intros (Hi & -> & Hn). split; [| exact Hn].
    exists i. rewrite ex_column_nth, ex_rhs_nth. auto.
Qed.

Lemma ex_leaving_some (s : LPSolver) (j : nat) :
  let T := tableau s in
  let m := length (tl T) in
  (exists i, (i < m)%nat /\ candidate T j i /\ 0 <= rhs_of (row T (S i))) ->
  exists li, get_leaving_variable j s = Ok (Some li, s) /\ (li < m)%nat /\
    candidate T j li /\ 0 <= rhs_of (row T (S li)) /\
    forall i, (i < m)%nat -> candidate T j i -> 0 <= rhs_of (row T (S i)) ->
      ratio_at T j li <= ratio_at T j i /\
      ((i < li)%nat -> ratio_at T j li < ratio_at T j i).
Proof.
  intros T m (i0 & Hi0 & Hc0 & Hb0).
  set (F := filter (fun r => ratio_nonneg (fst r))
              (ratios_of (map (fun r => nth j r 0) (tl T)) (map rhs_of (tl T)) 0)).
  assert (HF : forall x i, In (x, i) F <->
            (i < m)%nat /\
            x = (if Qltb EPS (at_ T (S i) j) then Fin (ratio_at T j i) else Inf) /\
            ratio_nonneg x = true) by (intros; apply ex_filtered_ratios_In).
  assert (Hcand : forall i, candidate T j i -> Qltb EPS (at_ T (S i) j) = true)
    by (intros i Hi; apply Qltb_iff; exact Hi).
  assert (Hin0 : In (Fin (ratio_at T j i0), i0) F).
  { apply HF. rewrite Hcand by exact Hc0. split; [exact Hi0 | split; [reflexivity |]].
    cbn. apply Qle_bool_iff. apply div_nonneg_iff; [| exact Hb0].
    unfold candidate in Hc0. pose proof EPS_pos. lra. }
  assert (Hcol : forallb (fun x => Qle_bool x EPS) (map (fun r => nth j r 0) (tl T)) = false).
  { destruct (forallb _ _) eqn:E; [| reflexivity]. exfalso.
    rewrite forallb_forall in E.
    assert (Hx : In (at_ T (S i0) j) (map (fun r => nth j r 0) (tl T))).
    { rewrite <- ex_column_nth. apply nth_In. rewrite length_map. exact Hi0. }
    apply E, Qle_bool_iff in Hx. unfold candidate in Hc0. lra. }
  destruct F as [| x xs] eqn:EF; [destruct Hin0 |].
  assert (Hs : StronglySorted idx_lt (x :: xs)).
  { rewrite <- EF. apply filter_sorted, ex_ratios_of_sorted. }
  destruct (ex_min_from_spec x xs Hs) as (Hin & Hle & Hlt).
  destruct (min_from x xs) as [q li] eqn:Emin.
  assert (Hq : exists v, q = Fin v).
  { specialize (Hle _ Hin0). destruct q as [v|]; [eauto | discriminate]. }
  destruct Hq as [v ->].
  apply HF in Hin as (Hli & Hx & Hnn).
  destruct (Qltb EPS (at_ T (S li) j)) eqn:Eli; [| discriminate].
  inversion Hx; subst v. clear Hx.
  apply Qltb_iff in Eli.
  exists li. split; [| split; [exact Hli | split; [exact Eli | split]]].
  - unfold get_leaving_variable; monad_unfold; cbn. fold T.
    rewrite Hcol. fold F. rewrite EF. cbn. rewrite Emin. reflexivity.
  - cbn in Hnn. apply Qle_bool_iff in Hnn.
    apply div_nonneg_iff in Hnn; [exact Hnn |]. pose proof EPS_pos. lra.
  - intros i Hi Hci Hbi.
    assert (Hini : In (Fin (ratio_at T j i), i) (x :: xs)).
    { apply HF. rewrite Hcand by exact Hci.
      split; [exact Hi | split; [reflexivity |]].
      cbn. apply Qle_bool_iff. apply div_nonneg_iff; [| exact Hbi].
      unfold candidate in Hci. pose proof EPS_pos. lra. }
    split.
    + specialize (Hle _ Hini). unfold ratio_le in Hle. cbn in Hle.
      apply Qnot_lt_le. intro Hc. apply Qltb_iff in Hc. congruence.
    + intro Hil. specialize (Hlt _ Hini Hil). cbn in Hlt.
      apply Qltb_iff. exact Hlt.
Qed.

Lemma ex_column_all_small (T : list (list Q)) (j : nat) :
  forallb (fun x => Qle_bool x EPS) (map (fun r => nth j r 0) (tl T)) = true <->
  forall i, (i < length (tl T))%nat -> ~ candidate T j i.
Proof.
  rewrite forallb_forall. split.
  - intros H i Hi Hc. unfold candidate in Hc.
    assert (Hx : In (at_ T (S i) j) (map (fun r => nth j r 0) (tl T))).
    { rewrite <- ex_column_nth. apply nth_In. rewrite length_map. exact Hi. }
    apply H, Qle_bool_iff in Hx. lra.
  - intros H x Hx. apply In_nth with (d := 0) in Hx as (d & Hd & <-).
    rewrite length_map in Hd. rewrite ex_column_nth. apply Qle_bool_iff.
    apply Qnot_lt_le. exact (H d Hd).
Qed.

Lemma ex_column_some_candidate (T : list (list Q)) (j : nat) :
  forallb (fun x => Qle_bool x EPS) (map (fun r => nth j r 0) (tl T)) = false ->
  exists i, (i < length (tl T))%nat /\ candidate T j i.
Proof.
  intro E. destruct (forallb_false_exists _ _ E) as (x & Hx & Hf).
  apply In_nth with (d := 0) in Hx as (d & Hd & <-).
  rewrite length_map in Hd. exists d. split; [exact Hd |].
  unfold candidate. rewrite <- ex_column_nth.
  apply Qnot_le_lt. intro Hle. apply Qle_bool_iff in Hle. congruence.
Qed.


Lemma ex_feasible_leaving (s s' : LPSolver) (j li : nat) :
  (forall i, (i < length (tl (tableau s)))%nat -> 0 <= rhs_of (row (tableau s) (S i))) ->
  get_leaving_variable j s = Ok (Some li, s') ->
  s' = s /\ (li < length (tl (tableau s)))%nat /\ candidate (tableau s) j li /\
  0 <= rhs_of (row (tableau s) (S li)).
Proof.
  intros Hb H.
  assert (Hex : exists i, (i < length (tl (tableau s)))%nat /\
                  candidate (tableau s) j i /\ 0 <= rhs_of (row (tableau s) (S i))).
  { destruct (forallb (fun x => Qle_bool x EPS)
                (map (fun r => nth j r 0) (tl (tableau s)))) eqn:E.
    - unfold get_leaving_variable in H; monad_unfold; cbn in H.
      rewrite E in H. discriminate.
    - destruct (ex_column_some_candidate _ _ E) as (i & Hi & Hc).
      exists i. auto. }
  destruct (ex_leaving_some s j Hex) as (li' & H' & Hl & Hc & Hr & _).
  rewrite H' in H. inversion H; subst li'. clear H. subst s'. auto.
Qed.

(** When every constraint-row RHS entry is nonnegative and
    [get_leaving_variable j] returns a row, that row's entry in column [j]
    exceeds [eps]: the pivot element is never zero. *)
Lemma ex_leaving_row_positive_pivot (s : LPSolver) (j li : nat) :
  (forall i, (i < length (tl (tableau s)))%nat -> 0 <= rhs_of (row (tableau s) (S i))) ->
  forall s', get_leaving_variable j s = Ok (Some li, s') ->
  EPS < at_ (tableau s) (S li) j /\ ~ (at_ (tableau s) (S li) j == 0).
Proof.
  intros Hb s' H.
  destruct (ex_feasible_leaving _ _ _ _ Hb H) as (_ & _ & Hc & _).
  split; [exact Hc |]. intro Hz. unfold candidate in Hc. rewrite Hz in Hc.
  discriminate.
Qed.

Lemma ex_get_entering_pure (s s' : LPSolver) (r : option nat) :
  get_entering_variable s = Ok (r, s') -> s' = s.
Proof.
  unfold get_entering_variable; monad_unfold; cbn.
  destruct (forallb _ _); intro H; inversion H; reflexivity.
Qed.

Lemma ex_get_leaving_pure (j : nat) (s s' : LPSolver) (r : option nat) :
  get_leaving_variable j s = Ok (r, s') -> s' = s.
Proof.
  unfold get_leaving_variable; monad_unfold; cbn.
  destruct (forallb _ _); [intro H; inversion H; reflexivity |].
  destruct (py_min _) as [[? ?]|]; intro H; inversion H; reflexivity.
Qed.

(** A pass of the loop body that pivots: the entering and leaving
    variables it chose and the pivot it performed. *)
Lemma ex_body_none_inv (it : Z) (s s' : LPSolver) :
  body it s = Ok (None, s') ->
  exists e li, get_entering_variable s = Ok (Some e, s) /\
    get_leaving_variable e s = Ok (Some li, s) /\
    pivot e li s = Ok (tt, s').
Proof.
  unfold body, bind. intro H.
  destruct (get_entering_variable s) as [[[e|] s1]|] eqn:E1; try discriminate.
  - pose proof (ex_get_entering_pure _ _ _ E1); subst s1.
    destruct (get_leaving_variable e s) as [[[li|] s2]|] eqn:E2; try discriminate.
    + pose proof (ex_get_leaving_pure _ _ _ _ E2); subst s2.
      exists e, li. split; [reflexivity | split; [exact E2 |]].
      unfold bind, ret in H. destruct (pivot e li s) as [[[] s3]|]; congruence.
Qed.

Lemma ex_body_none_sizes (it : Z) (s s' : LPSolver) :
  body it s = Ok (None, s') ->
  num_variables s' = num_variables s /\ num_constraints s' = num_constraints s.
Proof.
  intro H. destruct (ex_body_none_inv _ _ _ H) as (e & li & _ & _ & Hp).
  unfold pivot in Hp; monad_unfold. inversion Hp; subst. cbn. auto.
Qed.

Lemma ex_length_eliminate (T : list (list Q)) (i p e : nat) (prow : list Q) :
  length (eliminate T i p e prow) = length T.
Proof.
  revert i. induction T as [| r T IH]; intros i; cbn; auto.
Qed.

Lemma ex_nth_eliminate (T : list (list Q)) (i p e : nat) (prow : list Q) (r : nat) :
  (r < length T)%nat ->
  nth r (eliminate T i p e prow) [] =
  if Nat.eqb (i + r) p then nth r T []
  else map2 (fun x y => x - nth e (nth r T []) 0 * y) (nth r T []) prow.
Proof.
  revert i r. induction T as [| row0 T IH]; intros i [| r] H; cbn in *; try lia.
  - rewrite Nat.add_0_r. reflexivity.
  - rewrite IH by lia. rewrite Nat.add_succ_r. reflexivity.
Qed.

Lemma ex_row_length (T : list (list Q)) (m w r : nat) :
  well_shaped T m w -> (r < S m)%nat -> length (row T r) = w.
Proof.
  intros [HT Hw] Hr. unfold row.
  apply (proj1 (Forall_nth _ _) Hw). lia.
Qed.

Lemma ex_at_overflow (T : list (list Q)) (r k : nat) :
  (length (row T r) <= k)%nat -> at_ T r k = 0.
Proof. intro H. unfold at_. apply nth_overflow. exact H. Qed.

(** Entry [(r, k)] of the pivoted tableau: the pivot row divided by the
    pivot element [a = T[p, e]]; every other row minus its entry in column
    [e] times the normalised pivot row. *)
Lemma ex_pivot_at (T : list (list Q)) (m w e p r k : nat) :
  well_shaped T m w -> (p < S m)%nat -> (r < S m)%nat -> (k < w)%nat ->
  at_ (pivot_tableau T e p) r k =
  if Nat.eqb r p then at_ T p k / at_ T p e
  else at_ T r k - at_ T r e * (at_ T p k / at_ T p e).
Proof.
  intros Hs Hp Hr Hk. pose proof Hs as [HT _].
  pose proof (ex_row_length _ _ _ _ Hs Hp) as Hlp.
  pose proof (ex_row_length _ _ _ _ Hs Hr) as Hlr.
  unfold pivot_tableau, at_ at 1. unfold row at 1.
  rewrite ex_nth_eliminate by (rewrite length_set_nth; lia). cbn [Nat.add].
  destruct (Nat.eqb_spec r p) as [-> | Hne].
  - rewrite nth_set_nth_eq by lia.
    rewrite (nth_indep _ 0 ((fun x => x / at_ T p e) 0)) by (rewrite length_map; lia).
    rewrite (map_nth (fun x => x / at_ T p e) (row T p) 0 k). reflexivity.
  - rewrite nth_set_nth_neq by exact Hne.
    rewrite (nth_map2 _ _ _ _ 0 0) by (unfold row in *; rewrite ?length_map; lia).
    rewrite (nth_indep (map (fun x => x / at_ T p e) (row T p)) 0
               ((fun x => x / at_ T p e) 0)) by (rewrite length_map; lia).
    rewrite (map_nth (fun x => x / at_ T p e) (row T p) 0 k). reflexivity.
Qed.

Lemma ex_pivot_shape (T : list (list Q)) (m w e p : nat) :
  well_shaped T m w -> (p < S m)%nat -> well_shaped (pivot_tableau T e p) m w.
Proof.
  intros Hs Hp. pose proof Hs as [HT Hw]. unfold pivot_tableau.
  split; [rewrite ex_length_eliminate, length_set_nth; exact HT |].
  apply Forall_nth. intros r d Hr.
  rewrite ex_length_eliminate, length_set_nth in Hr.
  rewrite (nth_indep _ d []) by (rewrite ex_length_eliminate, length_set_nth; lia).
  rewrite ex_nth_eliminate by (rewrite length_set_nth; lia). cbn [Nat.add].
  pose proof (ex_row_length _ _ _ _ Hs Hp) as Hlp. unfold row in Hlp.
  destruct (Nat.eqb_spec r p) as [-> | Hne].
  - rewrite nth_set_nth_eq by lia. rewrite length_map. exact Hlp.
  - rewrite nth_set_nth_neq by exact Hne.
    rewrite length_map2, length_map.
    pose proof (ex_row_length _ _ _ r Hs ltac:(lia)) as Hlr. unfold row in *.
    rewrite Hlr, Hlp. apply Nat.min_id.
Qed.

Lemma ex_at_nonzero_col (T : list (list Q)) (m w r k : nat) :
  well_shaped T m w -> (r < S m)%nat -> ~ (at_ T r k == 0) -> (k < w)%nat.
Proof.
  intros Hs Hr Hz. destruct (Nat.lt_ge_cases k w) as [Hk | Hk]; [exact Hk |].
  exfalso. apply Hz. rewrite ex_at_overflow; [reflexivity |].
  rewrite (ex_row_length _ _ _ _ Hs Hr). exact Hk.
Qed.

(** A pivot on a nonzero element of constraint row [li + 1] keeps every
    basic column a unit column, with [e] replacing [basis[li]]. *)
Lemma ex_pivot_tableau_unit_columns (T : list (list Q)) (bs : list nat) (w e li : nat) :
  well_shaped T (length bs) w -> (li < length bs)%nat ->
  ~ (at_ T (S li) e == 0) -> unit_columns T bs ->
  unit_columns (pivot_tableau T e (S li)) (set_nth li e bs).
Proof.
  intros Hs Hli Ha HU i r Hi Hr. rewrite length_set_nth in Hi, Hr.
  pose proof (ex_at_nonzero_col T (length bs) w (S li) e Hs ltac:(lia) Ha) as He.
  destruct (Nat.eqb_spec i li) as [-> | Hne].
  - rewrite nth_set_nth_eq by exact Hli.
    rewrite (ex_pivot_at _ _ _ _ _ _ _ Hs) by lia. cbn [Nat.eqb].
    destruct (Nat.eqb_spec r li) as [-> | Hrl].
    + field. exact Ha.
    + field. exact Ha.
  - rewrite nth_set_nth_neq by exact Hne.
    set (bi := nth i bs 0%nat).
    assert (Hb : (bi < w)%nat).
    { apply (ex_at_nonzero_col T (length bs) w (S i)); [exact Hs | lia |].
      intro Hz. pose proof (HU i i Hi Hi) as Hii. rewrite Nat.eqb_refl in Hii.
      fold bi in Hii. rewrite Hz in Hii. discriminate Hii. }
    pose proof (HU i li Hi Hli) as Hpi.
    rewrite (proj2 (Nat.eqb_neq li i)) in Hpi by lia. fold bi in Hpi.
    rewrite (ex_pivot_at _ _ _ _ _ _ _ Hs) by lia. cbn [Nat.eqb].
    destruct (Nat.eqb_spec r li) as [-> | Hrl].
    + rewrite (proj2 (Nat.eqb_neq li i)) by lia. rewrite Hpi. field. exact Ha.
    + rewrite Hpi. pose proof (HU i r Hi Hr) as Hri. fold bi in Hri.
      rewrite <- Hri. field. exact Ha.
Qed.

Lemma ex_pivot_state (e li : nat) (s s' : LPSolver) :
  pivot e li s = Ok (tt, s') ->
  s' = {| tableau := pivot_tableau (tableau s) e (S li);
          num_variables := num_variables s;
          num_constraints := num_constraints s;
          basis := set_nth li e (basis s);
          objective_value := objective_value s;
          solution := solution s |}.
Proof. unfold pivot; monad_unfold. intro H. inversion H. reflexivity. Qed.



Lemma ex_qsum_ext (f g : nat -> Q) (l : list nat) :
  (forall i, In i l -> f i == g i) -> qsum (map f l) == qsum (map g l).
Proof.
  induction l as [| x l IH]; intro H; cbn; [reflexivity |].
  rewrite (H x (or_introl eq_refl)), IH; [reflexivity |].
  intros i Hi. apply H. right. exact Hi.
Qed.

Lemma ex_qsum_lin (f g h : nat -> Q) (q : Q) (l : list nat) :
  qsum (map (fun i => f i - q * g i + h i) l) ==
  qsum (map f l) - q * qsum (map g l) + qsum (map h l).
Proof.
  induction l as [| x l IH]; cbn; [ring |].
  unfold qsum in IH. rewrite IH. ring.
Qed.

Lemma ex_qsum_zero (f : nat -> Q) (l : list nat) :
  (forall i, In i l -> f i == 0) -> qsum (map f l) == 0.
Proof.
  intro H. rewrite (ex_qsum_ext f (fun _ => 0) l H).
  induction l as [| x l IH]; cbn; [reflexivity |].
  unfold qsum in IH. rewrite IH by (intros; apply H; right; assumption). ring.
Qed.

Lemma ex_qsum_indicator (li : nat) (v : Q) (st m : nat) :
  qsum (map (fun i => if Nat.eqb i li then v else 0) (seq st m)) ==
  (if Nat.leb st li && Nat.ltb li (st + m) then v else 0).
Proof.
  revert st. induction m as [| m IH]; intros st; cbn [seq map qsum fold_right].
  - destruct (Nat.leb_spec st li), (Nat.ltb_spec li (st + 0)); cbn;
      try reflexivity; lia.
  - unfold qsum in IH. rewrite IH. cbv beta.
    destruct (Nat.leb_spec st li), (Nat.leb_spec (S st) li),
      (Nat.ltb_spec li (S st + m)), (Nat.ltb_spec li (st + S m)),
      (Nat.eqb_spec st li); cbn; try ring; lia.
Qed.

(** A pivot on a nonzero element keeps the reduced costs in row 0, for the
    basis updated with [basis[li] = e]. *)
Lemma ex_pivot_tableau_reduced_costs (c : list Q) (T : list (list Q)) (bs : list nat)
    (w e li : nat) :
  well_shaped T (length bs) w -> (li < length bs)%nat ->
  ~ (at_ T (S li) e == 0) -> reduced_costs c T bs w ->
  reduced_costs c (pivot_tableau T e (S li)) (set_nth li e bs) w.
Proof.
  intros Hs Hli Ha HR k Hk.
  pose proof (ex_at_nonzero_col T (length bs) w (S li) e Hs ltac:(lia) Ha) as He.
  rewrite (ex_pivot_at _ _ _ _ _ _ _ Hs) by lia. cbn [Nat.eqb].
  unfold cost_sum. rewrite length_set_nth.
  rewrite (ex_qsum_ext _
    (fun i => nth (nth i bs 0%nat) c 0 * at_ T (S i) k
              - (at_ T (S li) k / at_ T (S li) e) * (nth (nth i bs 0%nat) c 0 * at_ T (S i) e)
              + (if Nat.eqb i li then nth e c 0 * (at_ T (S li) k / at_ T (S li) e) else 0))).
  2:{ intros i Hi. apply in_seq in Hi.
      rewrite (ex_pivot_at _ _ _ _ _ _ _ Hs) by lia. cbn [Nat.eqb].
      destruct (Nat.eqb_spec i li) as [-> | Hne].
      - rewrite nth_set_nth_eq by exact Hli. field. exact Ha.
      - rewrite nth_set_nth_neq by exact Hne. ring. }
  rewrite ex_qsum_lin, ex_qsum_indicator.
  rewrite (proj2 (Nat.ltb_lt _ _)) by lia. cbn [Nat.leb andb].
  pose proof (HR k Hk) as Hk'. pose proof (HR e He) as He'. unfold cost_sum in Hk', He'.
  rewrite <- Hk', <- He'. field. exact Ha.
Qed.

(** *** The objective of the basic solution *)

Lemma ex_rhs_at (T : list (list Q)) (m N r : nat) :
  well_shaped T m (S N) -> (r < S m)%nat -> rhs_of (row T r) = at_ T r N.
Proof.
  intros Hs Hr. unfold rhs_of, at_. apply last_nth_len.
  exact (ex_row_length _ _ _ _ Hs Hr).
Qed.



Lemma ex_nth_pad (c : list Q) (m k : nat) :
  nth k (c ++ repeat 0 m) 0 = if Nat.ltb k (length c) then nth k c 0 else 0.
Proof.
  destruct (Nat.ltb_spec k (length c)) as [Hk | Hk].
  - apply app_nth1. exact Hk.
  - rewrite app_nth2 by exact Hk. apply nth_repeat.
Qed.




(** *** The invariant from [setup] on, and one iteration of the loop *)

Lemma ex_length_hstack_eye (A : list (list Q)) (m i : nat) :
  length (hstack_eye A m i) = length A.
Proof. revert i. induction A as [| r A IH]; intros i; cbn; auto. Qed.

Lemma ex_nth_hstack_eye (A : list (list Q)) (m i r : nat) :
  (r < length A)%nat -> nth r (hstack_eye A m i) [] = nth r A [] ++ eye_row m (i + r).
Proof.
  revert i r. induction A as [| row0 A IH]; intros i [| r] H; cbn in *; try lia.
  - rewrite Nat.add_0_r. reflexivity.
  - rewrite IH by lia. rewrite Nat.add_succ_r. reflexivity.
Qed.

Lemma ex_length_eye_row (m i : nat) : length (eye_row m i) = m.
Proof. unfold eye_row. rewrite length_map, length_seq. reflexivity. Qed.

Lemma ex_initial_row (c : list Q) (H : list (list Q)) (b : list Q) (r : nat) :
  length b = length H -> (r < length H)%nat ->
  row (create_initial_tableau c H b) (S r) = nth r H [] ++ [nth r b 0].
Proof.
  intros Hb Hr. unfold create_initial_tableau, row. cbn [nth].
  rewrite (nth_indep _ [] ((fun '(r, bi) => r ++ [bi]) ([], 0)))
    by (rewrite length_map, length_combine; lia).
  rewrite (map_nth (fun '(r, bi) => r ++ [bi]) (combine H b) ([], 0) r).
  rewrite combine_nth by exact (eq_sym Hb). reflexivity.
Qed.

(** The tableau [create_initial_tableau] builds satisfies the invariant: the
    slack variables are basic, with unit columns, and row 0 is [-c]. *)
Lemma ex_init_invariant (c : list Q) (A : list (list Q)) (b : list Q) (n : nat)
    (ov : option Q) (so : option (list Q)) :
  length c = n -> Forall (fun r => length r = n) A -> length b = length A ->
  tableau_invariant c
    (mkSolver (create_initial_tableau (c ++ repeat 0 (length A)) (hstack_eye A (length A) 0) b)
       (n + length A) (length A) (seq n (length A)) ov so).
Proof.
  intros Hc HA Hb. set (m := length A) in *.
  set (T := create_initial_tableau (c ++ repeat 0 m) (hstack_eye A m 0) b).
  assert (HlenA : forall r, (r < m)%nat -> length (nth r A []) = n)
    by (intros r Hr; apply (proj1 (Forall_nth _ _) HA); exact Hr).
  assert (Hrow : forall r, (r < m)%nat ->
            row T (S r) = (nth r A [] ++ eye_row m r) ++ [nth r b 0]).
  { intros r Hr. unfold T. rewrite ex_initial_row by (rewrite ex_length_hstack_eye; lia).
    rewrite ex_nth_hstack_eye by exact Hr. reflexivity. }
  assert (Hrow0 : row T 0 = map Qopp (c ++ repeat 0 m) ++ [0]) by reflexivity.
  assert (Hs : well_shaped T m (S (n + m))).
  { split.
    - unfold T, create_initial_tableau. cbn [length].
      rewrite length_map, length_combine, ex_length_hstack_eye. lia.
    - apply Forall_nth. intros r d Hr.
      assert (HT : length T = S m).
      { unfold T, create_initial_tableau. cbn [length].
        rewrite length_map, length_combine, ex_length_hstack_eye. lia. }
      rewrite (nth_indep _ d []) by exact Hr.
      destruct r as [| r].
      + change (length (row T 0) = S (n + m)). rewrite Hrow0.
        rewrite length_app, length_map, length_app, repeat_length. cbn. lia.
      + change (length (row T (S r)) = S (n + m)). rewrite Hrow by lia.
        rewrite !length_app, HlenA, ex_length_eye_row by lia. cbn. lia. }
  unfold tableau_invariant. cbn [tableau num_variables num_constraints basis].
  split; [lia |]. split; [exact Hs |]. split; [apply length_seq |]. split.
  - intros i r Hi Hr. rewrite length_seq in Hi, Hr. rewrite seq_nth by exact Hi.
    unfold at_. rewrite Hrow by exact Hr.
    rewrite app_nth1 by (rewrite length_app, HlenA, ex_length_eye_row by exact Hr; lia).
    rewrite app_nth2 by (rewrite HlenA by exact Hr; lia).
    rewrite HlenA by exact Hr. replace (n + i - n)%nat with i by lia.
    unfold eye_row.
    rewrite (nth_indep _ 0 ((fun k => if Nat.eqb k r then 1 else 0) 0%nat))
      by (rewrite length_map, length_seq; lia).
    rewrite (map_nth (fun k => if Nat.eqb k r then 1 else 0) (seq 0 m) 0%nat i).
    rewrite seq_nth by exact Hi. cbn [Nat.add].
    rewrite Nat.eqb_sym. reflexivity.
  - intros k Hk. unfold cost_sum. rewrite ex_qsum_zero.
    2:{ intros i Hi. apply in_seq in Hi. rewrite length_seq in Hi.
        rewrite seq_nth by lia. rewrite ex_nth_pad, (proj2 (Nat.ltb_ge _ _)) by lia.
        ring. }
    unfold at_. rewrite Hrow0.
    destruct (Nat.lt_ge_cases k (n + m)) as [Hkl | Hkl].
    + rewrite app_nth1 by (rewrite length_map, length_app, repeat_length; lia).
      rewrite (nth_indep _ 0 (Qopp 0)) by (rewrite length_map, length_app, repeat_length; lia).
      rewrite (map_nth Qopp (c ++ repeat 0 m) 0 k). ring.
    + replace k with (n + m)%nat by lia.
      rewrite app_nth2 by (rewrite length_map, length_app, repeat_length; lia).
      rewrite length_map, length_app, repeat_length.
      replace (n + m - (length c + m))%nat with 0%nat by lia.
      rewrite (nth_overflow (c ++ repeat 0 m)) by (rewrite length_app, repeat_length; lia).
      reflexivity.
Qed.

Lemma ex_entering_some (s s' : LPSolver) (e N : nat) :
  length (row (tableau s) 0) = S N ->
  get_entering_variable s = Ok (Some e, s') ->
  (e < N)%nat /\ at_ (tableau s) 0 e < - EPS.
Proof.
  intros Hl H. unfold get_entering_variable in H; monad_unfold; cbn in H.
  destruct (forallb (fun x => Qle_bool (- EPS) x) (removelast (row (tableau s) 0)));
    [discriminate |].
  injection H as Hb _. apply ex_bland_some in Hb as (d & -> & Hd & Hn & _).
  rewrite (length_removelast_S _ N Hl) in Hd. cbn [Nat.add].
  split; [exact Hd |]. unfold at_.
  rewrite <- nth_removelast_lt; [exact Hn |].
  rewrite (length_removelast_S _ N Hl). exact Hd.
Qed.

Lemma ex_feasibleb_spec (s : LPSolver) :
  feasibleb s = true ->
  forall i, (i < length (tl (tableau s)))%nat -> 0 <= rhs_of (row (tableau s) (S i)).
Proof.
  unfold feasibleb. intros H i Hi. rewrite forallb_forall in H.
  rewrite <- ex_nth_tl. apply Qle_bool_iff. apply H. apply nth_In. exact Hi.
Qed.

(** One iteration that pivots from a feasible basic solution: the leaving
    row is a candidate, so the pivot element is positive, the invariant is
    kept, and the RHS of row 0 does not decrease. *)
Lemma ex_body_pivot_step (c : list Q) (it : Z) (s s' : LPSolver) :
  tableau_invariant c s -> feasibleb s = true -> body it s = Ok (None, s') ->
  tableau_invariant c s' /\ rhs_of (row (tableau s) 0) <= rhs_of (row (tableau s') 0).
Proof.
  intros Hinv Hf H. pose proof Hinv as (HN & Hs & Hb & HU & HR).
  set (m := num_constraints s) in *. set (N := num_variables s) in *.
  destruct (ex_body_none_inv _ _ _ H) as (e & li & He & Hl & Hp).
  destruct (ex_entering_some s s e N (ex_row_length _ _ _ 0 Hs ltac:(lia)) He) as (HeN & Hneg).
  destruct (ex_feasible_leaving s s e li (ex_feasibleb_spec s Hf) Hl) as (_ & Hli & Hc & Hrhs).
  assert (Htl : length (tl (tableau s)) = m).
  { destruct Hs as [HT _]. destruct (tableau s); cbn in *; lia. }
  rewrite Htl in Hli. unfold candidate in Hc.
  assert (Ha : ~ (at_ (tableau s) (S li) e == 0)).
  { intro Hz. rewrite Hz in Hc. discriminate Hc. }
  assert (Hs' : well_shaped (tableau s) (length (basis s)) (S N)) by (rewrite Hb; exact Hs).
  rewrite (ex_pivot_state _ _ _ _ Hp). split.
  - unfold tableau_invariant. cbn [tableau num_variables num_constraints basis].
    fold m N. rewrite length_set_nth.
    split; [exact HN |]. split; [apply ex_pivot_shape; [exact Hs | lia] |].
    split; [exact Hb |]. split.
    + apply (ex_pivot_tableau_unit_columns _ _ (S N)); [exact Hs' | lia | exact Ha | exact HU].
    + apply ex_pivot_tableau_reduced_costs; [exact Hs' | lia | exact Ha | exact HR].
  - cbn [tableau].
    rewrite (ex_rhs_at _ m N 0 Hs) by lia.
    rewrite (ex_rhs_at _ m N 0 (ex_pivot_shape _ _ _ e (S li) Hs ltac:(lia))) by lia.
    rewrite (ex_pivot_at _ _ _ _ _ _ _ Hs) by lia. cbn [Nat.eqb].
    rewrite <- (ex_rhs_at _ m N (S li) Hs) by lia.
    pose proof EPS_pos as Heps.
    assert (Hq : 0 <= rhs_of (row (tableau s) (S li)) / at_ (tableau s) (S li) e)
      by (apply div_nonneg_iff; [lra | exact Hrhs]).
    assert (Hp0 : 0 <= - at_ (tableau s) 0 e *
                       (rhs_of (row (tableau s) (S li)) / at_ (tableau s) (S li) e))
      by (apply Qmult_le_0_compat; lra).
    lra.
Qed.

Lemma ex_candidate_dec (T : list (list Q)) (j i : nat) :
  Qltb EPS (at_ T (S i) j) = true <-> candidate T j i.
Proof. apply Qltb_iff. Qed.

(** [get_leaving_variable] raises exactly when the tableau has a
    constraint row and every constraint row is a candidate of the entering
    column with a negative ratio: the filtered list of ratios is empty, and
    [min] raises its [ValueError]. *)
Lemma ex_leaving_variable_raises (s : LPSolver) (j : nat) :
  let T := tableau s in
  let m := length (tl T) in
  ((exists e, get_leaving_variable j s = Raise e) <->
   (0 < m)%nat /\ forall i, (i < m)%nat -> candidate T j i /\ ratio_at T j i < 0) /\
  (forall e, get_leaving_variable j s = Raise e ->
     e = ValueError MinEmptyArg).
Proof.
  intros T m.
  assert (HF : forall x i, In (x, i) (filter (fun r => ratio_nonneg (fst r))
                 (ratios_of (map (fun r => nth j r 0) (tl T)) (map rhs_of (tl T)) 0)) <->
            (i < m)%nat /\
            x = (if Qltb EPS (at_ T (S i) j) then Fin (ratio_at T j i) else Inf) /\
            ratio_nonneg x = true) by (intros; apply ex_filtered_ratios_In).
  unfold get_leaving_variable; monad_unfold; cbn. fold T.
  destruct (forallb (fun x => Qle_bool x EPS) (map (fun r => nth j r 0) (tl T))) eqn:E.
  - split; [| discriminate].
    split; [intros [e He]; discriminate |].
    intros [Hm Hall]. pose proof (proj1 (ex_column_all_small T j) E) as E'.
    exfalso. exact (E' 0%nat Hm (proj1 (Hall 0%nat Hm))).
  - destruct (filter _ _) as [| x xs] eqn:EF.
    + cbn. split; [| intros e He; inversion He; reflexivity].
      split; [intros _ | intros _; eauto].
      destruct (ex_column_some_candidate T j E) as (i0 & Hi0 & _).
      split; [unfold m; lia |].
      intros i Hi.
      destruct (Qltb EPS (at_ T (S i) j)) eqn:Ec.
      * split; [apply ex_candidate_dec; exact Ec |].
        destruct (Qlt_le_dec (ratio_at T j i) 0) as [Hlt|Hge]; [exact Hlt |].
        exfalso. apply (proj2 (HF (Fin (ratio_at T j i)) i)).
        rewrite Ec. split; [exact Hi | split; [reflexivity |]].
        cbn. apply Qle_bool_iff. exact Hge.
      * exfalso. apply (proj2 (HF Inf i)).
        rewrite Ec. split; [exact Hi | split; reflexivity].
    + cbn. destruct (min_from x xs) as [? ?].
      split; [| discriminate].
      split; [intros [e He]; discriminate |].
      intros [_ Hall]. exfalso.
      destruct x as [x i].
      destruct (proj1 (HF x i) (or_introl eq_refl)) as (Hi & Hx & Hn).
      destruct (Hall i Hi) as [Hc Hr].
      apply ex_candidate_dec in Hc. rewrite Hc in Hx. subst x.
      cbn in Hn. apply Qle_bool_iff in Hn. lra.
Qed.

Lemma ex_pivot_column_unit (T : list (list Q)) (m w e p : nat) :
  well_shaped T m w -> (p < S m)%nat -> ~ (at_ T p e == 0) ->
  forall r, (r < S m)%nat ->
    at_ (pivot_tableau T e p) r e == (if Nat.eqb r p then 1 else 0).
Proof.
  intros Hs Hp Hnz r Hr.
  pose proof (ex_at_nonzero_col T m w p e Hs Hp Hnz) as Hew.
  rewrite (ex_pivot_at T m w e p r e Hs Hp Hr Hew).
  destruct (Nat.eqb r p); field; exact Hnz.
Qed.



End ExactProofs.

(** *** The control flow of [solve] *)

Lemma get_entering_pure (s s' : LPSolver) (r : option nat) :
  get_entering_variable s = Ok (r, s') -> s' = s.
Proof.
  unfold get_entering_variable; monad_unfold; cbn.
  destruct (forallb _ _); intro H; inversion H; reflexivity.
Qed.

Lemma get_leaving_pure (j : nat) (s s' : LPSolver) (r : option nat) :
  get_leaving_variable j s = Ok (r, s') -> s' = s.
Proof.
  unfold get_leaving_variable; monad_unfold; cbn.
  destruct (forallb _ _); [intro H; inversion H; reflexivity |].
  destruct (py_min _) as [[? ?]|]; intro H; inversion H; reflexivity.
Qed.

Lemma pivot_state (e li : nat) (s s' : LPSolver) :
  pivot e li s = Ok (tt, s') ->
  s' = {| tableau := pivot_tableau (tableau s) e (S li);
          num_variables := num_variables s;
          num_constraints := num_constraints s;
          basis := set_nth li e (basis s);
          objective_value := objective_value s;
          solution := solution s |}.
Proof. unfold pivot; monad_unfold. intro H. inversion H. reflexivity. Qed.

(** A loop body that returns, returns an optimal or unbounded result. *)
Lemma body_returns (it : Z) (s s' : LPSolver) (r : SolveResult) :
  body it s = Ok (Some r, s') ->
  (exists sol obj, r = Optimal sol obj it) \/ r = Unbounded it.
Proof.
  unfold body, get_entering_variable, get_leaving_variable, extract_solution,
    pivot; monad_unfold; intro H.
  repeat (case_match_in H; try discriminate); inversion H; subst; eauto.
Qed.

(** A pass of the loop body that pivots: the entering and leaving
    variables it chose and the pivot it performed. *)
Lemma body_none_inv (it : Z) (s s' : LPSolver) :
  body it s = Ok (None, s') ->
  exists e li, get_entering_variable s = Ok (Some e, s) /\
    get_leaving_variable e s = Ok (Some li, s) /\
    pivot e li s = Ok (tt, s').
Proof.
  unfold body, bind. intro H.
  destruct (get_entering_variable s) as [[[e|] s1]|] eqn:E1; try discriminate.
  - pose proof (get_entering_pure _ _ _ E1); subst s1.
    destruct (get_leaving_variable e s) as [[[li|] s2]|] eqn:E2; try discriminate.
    + pose proof (get_leaving_pure _ _ _ _ E2); subst s2.
      exists e, li. split; [reflexivity | split; [exact E2 |]].
      unfold bind, ret in H. destruct (pivot e li s) as [[[] s3]|]; congruence.
Qed.

Lemma body_none_sizes (it : Z) (s s' : LPSolver) :
  body it s = Ok (None, s') ->
  num_variables s' = num_variables s /\ num_constraints s' = num_constraints s.
Proof.
  intro H. destruct (body_none_inv _ _ _ H) as (e & li & _ & _ & Hp).
  unfold pivot in Hp; monad_unfold. inversion Hp; subst. cbn. auto.
Qed.

(** A pass that returns [optimal] reads the solution and the objective
    value off the tableau, and changes nothing [solve] reads. *)
Lemma body_optimal_state (it : Z) (s s' : LPSolver) sol obj k :
  body it s = Ok (Some (Optimal sol obj k), s') ->
  same_core s s' /\
  sol = firstn (num_variables s - num_constraints s)
          (fill_basic (tableau s) (num_variables s - num_constraints s) (basis s) 0
             (repeat (fl 0) (num_variables s))) /\
  obj = fneg (rhs_of (row (tableau s) 0)).
Proof.
  unfold body, bind. intro H.
  destruct (get_entering_variable s) as [[[e|] s1]|] eqn:E1; try discriminate.
  - destruct (get_leaving_variable e s1) as [[[li|] s2]|]; try discriminate.
    all: try (destruct (pivot e li s2) as [[[] s3]|]; unfold ret in H; discriminate).
    all: unfold ret in H; discriminate.
  - apply get_entering_pure in E1. subst s1.
    unfold extract_solution, get, put, ret in H. cbn in H.
    inversion H; subst. repeat split.
Qed.

Lemma loop_limit_count (f : nat) (it max : Z) (s s' : LPSolver) (k : Z) :
  loop f it max s = Ok (IterationLimit k, s') -> k = max.
Proof.
  revert it s. induction f as [| f IH]; intros it s H; cbn in H.
  - inversion H; reflexivity.
  - unfold bind in H. destruct (body it s) as [[[r|] s1]|e] eqn:Hb; try discriminate.
    + unfold ret in H. inversion H; subst.
      destruct (body_returns _ _ _ _ Hb) as [[sol [obj Hr]]|Hr]; discriminate.
    + exact (IH _ _ H).
Qed.

Lemma loop_reach (f : nat) (it max : Z) (s s' : LPSolver) :
  reach f it s = Some s' -> loop f it max s = Ok (IterationLimit max, s').
Proof.
  revert it s. induction f as [| f IH]; intros it s H; cbn in *.
  - inversion H; reflexivity.
  - unfold bind. destruct (body it s) as [[[r|] s1]|e]; try discriminate.
    exact (IH _ _ H).
Qed.


Lemma loop_optimal (f : nat) (it max : Z) (s s' : LPSolver) sol obj k :
  loop f it max s = Ok (Optimal sol obj k, s') ->
  num_variables s' = num_variables s /\ num_constraints s' = num_constraints s /\
  sol = firstn (num_variables s' - num_constraints s')
          (fill_basic (tableau s') (num_variables s' - num_constraints s') (basis s') 0
             (repeat (fl 0) (num_variables s'))) /\
  obj = fneg (rhs_of (row (tableau s') 0)).
Proof.
  revert it s. induction f as [| f IH]; intros it s H; cbn in H;
    [unfold ret in H; discriminate |].
  unfold bind in H. destruct (body it s) as [[[r|] s1]|e] eqn:Hb; try discriminate.
  - unfold ret in H. inversion H; subst.
    destruct (body_optimal_state _ _ _ _ _ _ Hb) as ((HT & Hnv & Hnc & Hbs) & -> & ->).
    rewrite <- HT, <- Hnv, <- Hnc, <- Hbs. auto.
  - destruct (IH _ _ H) as (Hnv & Hnc & Hrest).
    destruct (body_none_sizes _ _ _ Hb) as [Hnv1 Hnc1].
    split; [congruence | split; [congruence | exact Hrest]].
Qed.

Lemma body_same_core (it : Z) (s s' : LPSolver) :
  same_core s s' ->
  match body it s, body it s' with
  | Ok (r, t), Ok (r', t') => r = r' /\ same_core t t'
  | Raise e, Raise e' => e = e'
  | _, _ => False
  end.
Proof.
  destruct s as [T nv nc bs ov so], s' as [T' nv' nc' bs' ov' so'].
  intros (HT & Hnv & Hnc & Hbs); cbn in HT, Hnv, Hnc, Hbs; subst.
  unfold body, get_entering_variable, get_leaving_variable, extract_solution,
    pivot; monad_unfold; cbn.
  repeat (match goal with
          | |- context [forallb ?f ?l] => destruct (forallb f l)
          | |- context [bland ?l ?k] => destruct (bland l k)
          | |- context [py_min ?l] => destruct (py_min l) as [[? ?]|]
          end; cbn);
  repeat split; reflexivity.
Qed.

Lemma loop_same_core (f : nat) (it max : Z) (s s' : LPSolver) :
  same_core s s' -> res_fst (loop f it max s) = res_fst (loop f it max s').
Proof.
  revert it s s'. induction f as [| f IH]; intros it s s' H; [reflexivity |].
  cbn. unfold bind.
  pose proof (body_same_core it s s' H) as Hb.
  destruct (body it s) as [[r t]|e], (body it s') as [[r' t']|e'];
    try contradiction.
  - destruct Hb as [<- Ht]. destruct r as [r|]; [reflexivity |].
    exact (IH _ _ _ Ht).
  - subst. reflexivity.
Qed.

Lemma setup_same_core (c : list pyfloat) (A : Mat) (b : list pyfloat)
    (s s' : LPSolver) :
  match setup c A b s, setup c A b s' with
  | Ok (_, t), Ok (_, t') => same_core t t'
  | Raise e, Raise e' => e = e'
  | _, _ => False
  end.
Proof.
  unfold setup, initialize_basis, standard_form; monad_unfold; cbn.
  destruct (create_initial_tableau _ _ _); cbn; repeat split.
Qed.

Lemma broadcast_len (v : list pyfloat) (n : nat) :
  length v = n -> broadcast v n = Some v.
Proof. intro H. unfold broadcast. rewrite (proj2 (Nat.eqb_eq _ _) H). reflexivity. Qed.

Lemma length_hstack_eye (A : list (list pyfloat)) (m i : nat) :
  length (hstack_eye A m i) = length A.
Proof. revert i. induction A as [| r A IH]; intros i; cbn; auto. Qed.

(** What [setup] builds when the shapes of [c], [A] and [b] agree. *)
Lemma setup_spec (c : list pyfloat) (A : Mat) (b : list pyfloat) (s : LPSolver) :
  length c = mcols A -> length b = length (mrows A) ->
  let m := length (mrows A) in
  setup c A b s =
  Ok (tt, {| tableau := (map fneg (c ++ repeat (fl 0) m) ++ [fl 0]) ::
                        map (fun '(r, bi) => r ++ [bi]) (combine (hstack_eye (mrows A) m 0) b);
             num_variables := mcols A + m;
             num_constraints := m;
             basis := seq (mcols A) m;
             objective_value := objective_value s;
             solution := solution s |}).
Proof.
  intros Hc Hb m. unfold setup, standard_form, create_initial_tableau, initialize_basis.
  monad_unfold. cbn [mrows mcols].
  rewrite (broadcast_len (map fneg (c ++ repeat (fl 0) m)))
    by (rewrite length_map, length_app, repeat_length; lia).
  rewrite (broadcast_len b) by (rewrite length_hstack_eye; exact Hb).
  cbn. subst m.
  replace (mcols A + length (mrows A) - length (mrows A))%nat with (mcols A) by lia.
  replace (mcols A + length (mrows A) - mcols A)%nat with (length (mrows A)) by lia.
  reflexivity.
Qed.

Lemma setup_ok (c : list pyfloat) (A : Mat) (b : list pyfloat) (s : LPSolver) :
  length c = mcols A -> length b = length (mrows A) ->
  exists s0, setup c A b s = Ok (tt, s0).
Proof. intros Hc Hb. eexists. exact (setup_spec c A b s Hc Hb). Qed.

Lemma length_fill_basic (T : list (list pyfloat)) (n : nat) (bs : list nat) (i : nat)
    (sol : list pyfloat) :
  length (fill_basic T n bs i sol) = length sol.
Proof.
  revert i sol. induction bs as [| u bs IH]; intros i sol; cbn [fill_basic];
    [reflexivity |].
  rewrite IH. destruct (Nat.ltb u n); [apply length_set_nth | reflexivity].
Qed.

(** The loop of [extract_solution]: a variable takes the RHS of a row it
    is basic in (the last one), and keeps its value when it is basic in
    no row. *)
Lemma fill_basic_spec (T : list (list pyfloat)) (n : nat) (bs : list nat) (i : nat)
    (sol : list pyfloat) (v : nat) :
  (v < n)%nat -> (v < length sol)%nat ->
  (exists k, nth_error bs k = Some v /\
     nth v (fill_basic T n bs i sol) (fl 0) = rhs_of (row T (S (i + k)))) \/
  ((forall k, nth_error bs k <> Some v) /\
   nth v (fill_basic T n bs i sol) (fl 0) = nth v sol (fl 0)).
Proof.
  revert i sol. induction bs as [| u bs IH]; intros i sol Hvn Hvl; cbn [fill_basic].
  - right. split; [intros [|k]; discriminate | reflexivity].
  - set (sol' := if Nat.ltb u n then set_nth u (rhs_of (row T (S i))) sol else sol).
    assert (Hl : length sol' = length sol)
      by (unfold sol'; destruct (Nat.ltb u n); [apply length_set_nth | reflexivity]).
    destruct (IH (S i) sol' Hvn ltac:(lia)) as [(k & Hk & Hv) | (Hk & Hv)].
    + left. exists (S k). split; [exact Hk |]. rewrite Hv. do 3 f_equal. lia.
    + destruct (Nat.eq_dec u v) as [<- | Huv].
      * left. exists 0%nat. split; [reflexivity |]. rewrite Hv.
        unfold sol'. rewrite (proj2 (Nat.ltb_lt _ _) Hvn).
        rewrite Nat.add_0_r. apply nth_set_nth_eq. exact Hvl.
      * right. split.
        -- intros [| k]; cbn; [congruence | apply Hk].
        -- rewrite Hv. unfold sol'. destruct (Nat.ltb u n); [| reflexivity].
           apply nth_set_nth_neq. congruence.
Qed.

Lemma fill_basic_skip (T : list (list pyfloat)) (n : nat) (bs : list nat) (i : nat)
    (sol : list pyfloat) :
  (forall v, In v bs -> (n <= v)%nat) -> fill_basic T n bs i sol = sol.
Proof.
  revert i sol. induction bs as [| v bs IH]; intros i sol H; cbn [fill_basic]; [reflexivity |].
  rewrite (proj2 (Nat.ltb_ge v n)) by (apply H; left; reflexivity).
  apply IH. intros u Hu. apply H. right. exact Hu.
Qed.


(** *** Finite floats compute as rationals *)

Section Finite.

Variables x y : pyfloat.
Hypothesis Hx : finiteb x = true.
Hypothesis Hy : finiteb y = true.

Lemma fadd_finite : finiteb (fadd x y) = true /\ toQ (fadd x y) = toQ x + toQ y.
Proof. destruct x, y; try discriminate. split; reflexivity. Qed.

Lemma fneg_finite : finiteb (fneg x) = true /\ toQ (fneg x) = - toQ x.
Proof. destruct x; try discriminate. split; reflexivity. Qed.

Lemma fsub_finite : finiteb (fsub x y) = true /\ toQ (fsub x y) = toQ x - toQ y.
Proof. destruct x, y; try discriminate. split; reflexivity. Qed.

Lemma fmul_finite : finiteb (fmul x y) = true /\ toQ (fmul x y) = toQ x * toQ y.
Proof. destruct x, y; try discriminate. split; reflexivity. Qed.

Lemma fdiv_finite :
  ~ (toQ y == 0) -> finiteb (fdiv x y) = true /\ toQ (fdiv x y) = toQ x / toQ y.
Proof.
  destruct x as [a na| | |], y as [b nb| | |]; try discriminate. cbn. intro Hb.
  destruct (Qeq_bool b 0) eqn:E; [apply Qeq_bool_eq in E; contradiction |].
  split; reflexivity.
Qed.

Lemma fle_finite : fle x y = Qle_bool (toQ x) (toQ y).
Proof. destruct x, y; try discriminate. reflexivity. Qed.


Lemma fisclose_finite (atol : Q) : fisclose x y atol = isclose (toQ x) (toQ y) atol.
Proof. destruct x, y; try discriminate. reflexivity. Qed.

Lemma feq_finite : feq x y = true <-> toQ x == toQ y.
Proof.
  destruct x as [a na| | |], y as [b nb| | |]; try discriminate. unfold feq. cbn.
  rewrite andb_true_iff, !Qle_bool_iff.
  split; [intros [H1 H2]; apply Qle_antisym; assumption |].
  intro H. rewrite H. split; apply Qle_refl.
Qed.

End Finite.

(** *** Rows and tableaus of finite floats *)

Lemma finite_row_nth (r : list pyfloat) (k : nat) :
  forallb finiteb r = true -> finiteb (nth k r (fl 0)) = true.
Proof.
  intro H. destruct (nth_in_or_default k r (fl 0)) as [Hin | ->]; [| reflexivity].
  exact (proj1 (forallb_forall _ _) H _ Hin).
Qed.

Lemma finite_tab_In (T : list (list pyfloat)) (r : list pyfloat) :
  finite_tab T = true -> In r T -> forallb finiteb r = true.
Proof. intros H Hin. exact (proj1 (forallb_forall _ _) H _ Hin). Qed.

Lemma finite_tab_row (T : list (list pyfloat)) (i : nat) :
  finite_tab T = true -> forallb finiteb (row T i) = true.
Proof.
  intro H. unfold row. destruct (nth_in_or_default i T []) as [Hin | ->]; [| reflexivity].
  exact (finite_tab_In T _ H Hin).
Qed.

Lemma finite_at (T : list (list pyfloat)) (i k : nat) :
  finite_tab T = true -> finiteb (at_ T i k) = true.
Proof. intro H. apply finite_row_nth, finite_tab_row, H. Qed.

Lemma finite_rhs (r : list pyfloat) :
  forallb finiteb r = true -> finiteb (rhs_of r) = true.
Proof.
  unfold rhs_of. induction r as [| x r IH]; [reflexivity |].
  cbn [forallb]. intro H. apply andb_prop in H as [Hx Hr].
  destruct r as [| y r]; [exact Hx | exact (IH Hr)].
Qed.

Lemma forallb_removelast {A} (f : A -> bool) (l : list A) :
  forallb f l = true -> forallb f (removelast l) = true.
Proof.
  induction l as [| x l IH]; [reflexivity |].
  cbn [forallb]. intro H. apply andb_prop in H as [Hx Hl].
  destruct l as [| y l]; [reflexivity |].
  change (forallb f (x :: removelast (y :: l)) = true). cbn [forallb].
  rewrite Hx. exact (IH Hl).
Qed.

Lemma In_tl {A} (x : A) (l : list A) : In x (tl l) -> In x l.
Proof. destruct l; cbn; auto. Qed.

Lemma finite_set_nth {A} (f : A -> bool) (i : nat) (x : A) (l : list A) :
  f x = true -> forallb f l = true -> forallb f (set_nth i x l) = true.
Proof.
  revert i. induction l as [| y l IH]; intros [| i] Hx Hl; cbn in *; auto.
  - apply andb_prop in Hl as [_ Hl]. rewrite Hx. exact Hl.
  - apply andb_prop in Hl as [Hy Hl]. rewrite Hy. exact (IH i Hx Hl).
Qed.

(** A test on the entries of a list of finite floats is the test on their
    values. *)
Lemma forallb_transport (P : pyfloat -> bool) (P' : Q -> bool) (l : list pyfloat) :
  (forall x, finiteb x = true -> P x = P' (toQ x)) ->
  forallb finiteb l = true -> forallb P l = forallb P' (qrow l).
Proof.
  intros HP. induction l as [| x l IH]; [reflexivity |].
  cbn [forallb]. intro H. apply andb_prop in H as [Hx Hl].
  unfold qrow. cbn [map forallb]. rewrite (HP x Hx). f_equal. exact (IH Hl).
Qed.

Lemma forallb_map_ext {A B} (f : A -> bool) (g : B -> bool) (h : A -> B) (l : list A) :
  (forall x, In x l -> f x = g (h x)) -> forallb f l = forallb g (map h l).
Proof.
  induction l as [| x l IH]; intro H; [reflexivity |].
  cbn. rewrite (H x (or_introl eq_refl)). f_equal. apply IH.
  intros y Hy. apply H. right. exact Hy.
Qed.

Lemma toQ_at (T : list (list pyfloat)) (i k : nat) :
  toQ (at_ T i k) = Exact.at_ (qtab T) i k.
Proof.
  unfold at_, Exact.at_, row, Exact.row, qtab.
  rewrite (nth_map_nil qrow [] T i eq_refl).
  symmetry. exact (map_nth toQ (nth i T []) (fl 0) k).
Qed.

Lemma qrow_row (T : list (list pyfloat)) (i : nat) :
  qrow (row T i) = Exact.row (qtab T) i.
Proof.
  unfold row, Exact.row, qtab. symmetry. exact (nth_map_nil qrow [] T i eq_refl).
Qed.

Lemma toQ_rhs (r : list pyfloat) : toQ (rhs_of r) = Exact.rhs_of (qrow r).
Proof. unfold rhs_of, Exact.rhs_of, qrow. exact (map_last_dflt toQ r (fl 0)). Qed.

Lemma qtab_tl (T : list (list pyfloat)) : qtab (tl T) = tl (qtab T).
Proof. destruct T; reflexivity. Qed.

Lemma tableau_qstate (s : LPSolver) : Exact.tableau (qstate s) = qtab (tableau s).
Proof. reflexivity. Qed.

(** *** The methods on a tableau of finite floats *)

Lemma bland_transport (l : list pyfloat) (k : nat) :
  forallb finiteb l = true -> bland l k = Exact.bland (qrow l) k.
Proof.
  revert k. induction l as [| x l IH]; intros k H; [reflexivity |].
  cbn [forallb] in H. apply andb_prop in H as [Hx Hl].
  destruct x as [q n| | |]; try discriminate.
  cbn [bland Exact.bland qrow map toQ flt fisclose fl].
  rewrite (IH (S k) Hl). reflexivity.
Qed.

Lemma entering_transport (s : LPSolver) :
  finite_tab (tableau s) = true ->
  exists r, get_entering_variable s = Ok (r, s) /\
    Exact.get_entering_variable (qstate s) = Ok (r, qstate s).
Proof.
  intro HT. unfold get_entering_variable, Exact.get_entering_variable; monad_unfold.
  rewrite tableau_qstate, <- qrow_row. unfold qrow. rewrite <- map_removelast.
  assert (Hl : forallb finiteb (removelast (row (tableau s) 0)) = true)
    by (apply forallb_removelast, finite_tab_row, HT).
  rewrite (forallb_transport (fun x => fle (fl (- EPS)) x) (fun x => Qle_bool (- EPS) x))
    by (exact Hl || (intros x Hx; exact (fle_finite (fl (- EPS)) x eq_refl Hx))).
  fold (qrow (removelast (row (tableau s) 0))).
  destruct (forallb _ (qrow _)).
  - exists None. split; reflexivity.
  - exists (bland (removelast (row (tableau s) 0)) 0). split; [reflexivity |].
    rewrite (bland_transport _ 0 Hl). reflexivity.
Qed.

Lemma ratio_ltb_transport (x y : pyfloat) (x' y' : Exact.ratio) :
  ratio_rel x x' -> ratio_rel y y' -> flt x y = Exact.ratio_ltb x' y'.
Proof.
  destruct x, x', y, y'; cbn; intros H1 H2; try contradiction; subst; reflexivity.
Qed.

Lemma nonneg_transport (x : pyfloat) (x' : Exact.ratio) :
  ratio_rel x x' -> fle (fl 0) x = Exact.ratio_nonneg x'.
Proof. destruct x, x'; cbn; intro H; try contradiction; subst; reflexivity. Qed.

Lemma ratios_transport (col b : list pyfloat) (i : nat) :
  forallb finiteb col = true -> forallb finiteb b = true ->
  Forall2 ratio_pair_rel (ratios_of col b i) (Exact.ratios_of (qrow col) (qrow b) i).
Proof.
  revert b i. induction col as [| ci col IH]; intros [| bi b] i Hc Hb; cbn;
    try apply Forall2_nil.
  cbn in Hc, Hb. apply andb_prop in Hc as [Hci Hc]. apply andb_prop in Hb as [Hbi Hb].
  apply Forall2_cons; [| exact (IH b (S i) Hc Hb)].
  split; [| reflexivity]. cbn [fst].
  destruct ci as [q n| | |]; try discriminate. destruct bi as [p np| | |]; try discriminate.
  cbn [flt fl toQ]. destruct (Qltb EPS q) eqn:E; [| exact I].
  assert (Hq : ~ (toQ (Flt q n) == 0)).
  { cbn. apply Qltb_iff in E. intro Hz. rewrite Hz in E. discriminate. }
  destruct (fdiv_finite (Flt p np) (Flt q n) eq_refl eq_refl Hq) as [Hf Hv].
  destruct (fdiv (Flt p np) (Flt q n)); try discriminate. cbn. exact Hv.
Qed.

Lemma filter_transport (xs : list (pyfloat * nat)) (ys : list (Exact.ratio * nat)) :
  Forall2 ratio_pair_rel xs ys ->
  Forall2 ratio_pair_rel (filter (fun r => fle (fl 0) (fst r)) xs)
    (filter (fun r => Exact.ratio_nonneg (fst r)) ys).
Proof.
  induction 1 as [| x y xs ys [Hr Hs] _ IH]; cbn [filter]; [constructor |].
  rewrite (nonneg_transport _ _ Hr).
  destruct (Exact.ratio_nonneg _); [constructor; [split |] |]; assumption.
Qed.

Lemma min_from_transport (cur : pyfloat * nat) (cur' : Exact.ratio * nat)
    (xs : list (pyfloat * nat)) (ys : list (Exact.ratio * nat)) :
  ratio_pair_rel cur cur' -> Forall2 ratio_pair_rel xs ys ->
  ratio_pair_rel (min_from cur xs) (Exact.min_from cur' ys).
Proof.
  intros Hc H. revert cur cur' Hc.
  induction H as [| x y xs ys Hxy _ IH]; intros cur cur' Hc; cbn; [exact Hc |].
  apply IH. rewrite (ratio_ltb_transport _ _ _ _ (proj1 Hxy) (proj1 Hc)).
  destruct (Exact.ratio_ltb _ _); assumption.
Qed.

Lemma py_min_transport (xs : list (pyfloat * nat)) (ys : list (Exact.ratio * nat)) :
  Forall2 ratio_pair_rel xs ys ->
  match py_min xs, Exact.py_min ys with
  | None, None => True
  | Some a, Some a' => ratio_pair_rel a a'
  | _, _ => False
  end.
Proof.
  intro H. destruct H as [| x y xs ys Hxy H]; cbn; [exact I |].
  exact (min_from_transport x y xs ys Hxy H).
Qed.

Lemma column_transport (T : list (list pyfloat)) (j : nat) :
  map (fun r => nth j r 0) (tl (qtab T)) = qrow (map (fun r => nth j r (fl 0)) (tl T)).
Proof.
  rewrite <- qtab_tl. unfold qtab, qrow. rewrite !map_map.
  apply map_ext. intro r. exact (map_nth toQ r (fl 0) j).
Qed.

Lemma rhs_column_transport (T : list (list pyfloat)) :
  map Exact.rhs_of (tl (qtab T)) = qrow (map rhs_of (tl T)).
Proof.
  rewrite <- qtab_tl. unfold qtab, qrow. rewrite !map_map.
  apply map_ext. intro r. symmetry. apply toQ_rhs.
Qed.

Lemma leaving_transport (j : nat) (s : LPSolver) :
  finite_tab (tableau s) = true ->
  (exists r, get_leaving_variable j s = Ok (r, s) /\
     Exact.get_leaving_variable j (qstate s) = Ok (r, qstate s)) \/
  (exists e, get_leaving_variable j s = Raise e /\
     Exact.get_leaving_variable j (qstate s) = Raise e).
Proof.
  intro HT. unfold get_leaving_variable, Exact.get_leaving_variable; monad_unfold.
  rewrite tableau_qstate, column_transport, rhs_column_transport.
  set (col := map (fun r => nth j r (fl 0)) (tl (tableau s))).
  set (bs := map rhs_of (tl (tableau s))).
  assert (Hc : forallb finiteb col = true).
  { apply forallb_forall. intros x Hx. apply in_map_iff in Hx as (r & <- & Hr).
    apply finite_row_nth, (finite_tab_In (tableau s)); [exact HT | apply In_tl, Hr]. }
  assert (Hb : forallb finiteb bs = true).
  { apply forallb_forall. intros x Hx. apply in_map_iff in Hx as (r & <- & Hr).
    apply finite_rhs, (finite_tab_In (tableau s)); [exact HT | apply In_tl, Hr]. }
  rewrite (forallb_transport (fun x => fle x (fl EPS)) (fun x => Qle_bool x EPS) col)
    by (exact Hc || (intros x Hx; exact (fle_finite x (fl EPS) Hx eq_refl))).
  destruct (forallb _ (qrow col)).
  - left. exists None. split; reflexivity.
  - pose proof (py_min_transport _ _ (filter_transport _ _ (ratios_transport col bs 0 Hc Hb)))
      as Hm.
    destruct (py_min _) as [[a i]|], (Exact.py_min _) as [[a' i']|]; try contradiction.
    + left. destruct Hm as [_ Hi]. cbn in Hi. subst i'.
      exists (Some i). split; reflexivity.
    + right. exists (ValueError MinEmptyArg). split; reflexivity.
Qed.

Lemma map2_transport (r p : list pyfloat) (z : pyfloat) :
  forallb finiteb r = true -> forallb finiteb p = true -> finiteb z = true ->
  qrow (map2 (fun x y => fsub x (fmul z y)) r p) =
    map2 (fun x y => x - toQ z * y) (qrow r) (qrow p) /\
  forallb finiteb (map2 (fun x y => fsub x (fmul z y)) r p) = true.
Proof.
  revert p. induction r as [| x r IH]; intros [| y p] Hr Hp Hz; cbn; try (split; reflexivity).
  cbn in Hr, Hp. apply andb_prop in Hr as [Hx Hr]. apply andb_prop in Hp as [Hy Hp].
  destruct (IH p Hr Hp Hz) as [E F].
  destruct (fmul_finite z y Hz Hy) as [Fm Tm].
  destruct (fsub_finite x (fmul z y) Hx Fm) as [Fs Ts].
  split.
  - unfold qrow in *. cbn [map]. rewrite Ts, Tm, E. reflexivity.
  - rewrite Fs. exact F.
Qed.

Lemma eliminate_transport (T : list (list pyfloat)) (i p e : nat) (prow : list pyfloat) :
  finite_tab T = true -> forallb finiteb prow = true ->
  qtab (eliminate T i p e prow) = Exact.eliminate (qtab T) i p e (qrow prow) /\
  finite_tab (eliminate T i p e prow) = true.
Proof.
  revert i. induction T as [| r T IH]; intros i HT Hp; [split; reflexivity |].
  unfold finite_tab in HT. cbn [forallb] in HT. apply andb_prop in HT as [Hr HT].
  destruct (IH (S i) HT Hp) as [E F].
  cbn [eliminate]. unfold qtab in *. cbn [map Exact.eliminate].
  destruct (Nat.eqb i p).
  - split; [rewrite E; reflexivity |].
    unfold finite_tab. cbn [forallb]. rewrite Hr. exact F.
  - destruct (map2_transport r prow (nth e r (fl 0)) Hr Hp (finite_row_nth r e Hr))
      as [E2 F2].
    split.
    + rewrite E2, E. f_equal. f_equal.
      replace (nth e (qrow r) 0) with (toQ (nth e r (fl 0)));
        [reflexivity | symmetry; exact (map_nth toQ r (fl 0) e)].
    + unfold finite_tab. cbn [forallb]. rewrite F2. exact F.
Qed.

Lemma pivot_tableau_transport (T : list (list pyfloat)) (e p : nat) :
  finite_tab T = true -> ~ (toQ (at_ T p e) == 0) ->
  qtab (pivot_tableau T e p) = Exact.pivot_tableau (qtab T) e p /\
  finite_tab (pivot_tableau T e p) = true.
Proof.
  intros HT Hnz. unfold pivot_tableau, Exact.pivot_tableau. cbv zeta.
  assert (Hpe : finiteb (at_ T p e) = true) by (apply finite_at, HT).
  assert (Hrow : forallb finiteb (row T p) = true) by (apply finite_tab_row, HT).
  set (prow := map (fun x => fdiv x (at_ T p e)) (row T p)).
  assert (Hpf : forallb finiteb prow = true).
  { apply forallb_forall. intros x Hx. apply in_map_iff in Hx as (y & <- & Hy).
    exact (proj1 (fdiv_finite y _ (proj1 (forallb_forall _ _) Hrow y Hy) Hpe Hnz)). }
  assert (Hpq : qrow prow = map (fun x => x / Exact.at_ (qtab T) p e) (Exact.row (qtab T) p)).
  { unfold prow. rewrite <- qrow_row, <- toQ_at. unfold qrow. rewrite !map_map.
    apply map_ext_in. intros y Hy.
    exact (proj2 (fdiv_finite y _ (proj1 (forallb_forall _ _) Hrow y Hy) Hpe Hnz)). }
  assert (HT1 : finite_tab (set_nth p prow T) = true) by (apply finite_set_nth; assumption).
  destruct (eliminate_transport (set_nth p prow T) 0 p e prow HT1 Hpf) as [E F].
  split; [| exact F].
  rewrite E. unfold qtab at 1. rewrite map_set_nth. rewrite Hpq. reflexivity.
Qed.

Lemma pivot_transport (e li : nat) (s s' : LPSolver) :
  finite_tab (tableau s) = true -> ~ (toQ (at_ (tableau s) (S li) e) == 0) ->
  pivot e li s = Ok (tt, s') ->
  Exact.pivot e li (qstate s) = Ok (tt, qstate s') /\ finite_tab (tableau s') = true.
Proof.
  intros HT Hnz Hp. apply pivot_state in Hp. subst s'.
  destruct (pivot_tableau_transport _ _ _ HT Hnz) as [E F].
  split; [| exact F].
  unfold Exact.pivot; monad_unfold. cbv beta iota.
  rewrite tableau_qstate, <- E. reflexivity.
Qed.

Lemma qrow_fill_basic (T : list (list pyfloat)) (n : nat) (bs : list nat) (i : nat)
    (sol : list pyfloat) :
  qrow (fill_basic T n bs i sol) = Exact.fill_basic (qtab T) n bs i (qrow sol).
Proof.
  revert i sol. induction bs as [| v bs IH]; intros i sol; [reflexivity |].
  cbn [fill_basic Exact.fill_basic]. rewrite IH. f_equal.
  destruct (Nat.ltb v n); [| reflexivity].
  unfold qrow at 1. rewrite map_set_nth, toQ_rhs, qrow_row. reflexivity.
Qed.

Lemma basic_solution_transport (s : LPSolver) :
  qrow (basic_solution s) = Exact.basic_solution (qstate s).
Proof.
  unfold basic_solution, Exact.basic_solution, qstate. cbn [Exact.tableau
    Exact.num_variables Exact.num_constraints Exact.basis].
  unfold qrow at 1. rewrite <- firstn_map. fold (qrow (fill_basic (tableau s)
    (num_variables s - num_constraints s) (basis s) 0 (repeat (fl 0) (num_variables s)))).
  rewrite qrow_fill_basic. unfold qrow. rewrite map_repeat. reflexivity.
Qed.


Lemma feasibleb_transport (s : LPSolver) :
  finite_tab (tableau s) = true -> feasibleb s = Exact.feasibleb (qstate s).
Proof.
  intro HT. unfold feasibleb, Exact.feasibleb. rewrite tableau_qstate, <- qtab_tl.
  apply forallb_map_ext. intros r Hr.
  rewrite <- toQ_rhs.
  exact (fle_finite (fl 0) (rhs_of r) eq_refl
           (finite_rhs r (finite_tab_In _ r HT (In_tl _ _ Hr)))).
Qed.

Lemma unit_columns_transport (T : list (list pyfloat)) (bs : list nat) :
  finite_tab T = true -> (unit_columns T bs <-> Exact.unit_columns (qtab T) bs).
Proof.
  intro HT. unfold unit_columns, Exact.unit_columns.
  split; intros H i r Hi Hr; specialize (H i r Hi Hr).
  - rewrite <- toQ_at. destruct (Nat.eqb r i);
      [exact (proj1 (feq_finite _ (fl 1) (finite_at T _ _ HT) eq_refl) H) |
       exact (proj1 (feq_finite _ (fl 0) (finite_at T _ _ HT) eq_refl) H)].
  - rewrite <- toQ_at in H. destruct (Nat.eqb r i);
      [exact (proj2 (feq_finite _ (fl 1) (finite_at T _ _ HT) eq_refl) H) |
       exact (proj2 (feq_finite _ (fl 0) (finite_at T _ _ HT) eq_refl) H)].
Qed.

Lemma well_shaped_transport (T : list (list pyfloat)) (m w : nat) :
  well_shaped T m w <-> Exact.well_shaped (qtab T) m w.
Proof.
  unfold well_shaped, Exact.well_shaped, qtab. rewrite length_map, Forall_map.
  split; intros [H1 H2]; split; try exact H1;
    (eapply Forall_impl; [| exact H2]); intros r Hr; unfold qrow in *;
    rewrite length_map in *; exact Hr.
Qed.

(** A pass of the loop body on a feasible tableau of finite floats does
    what the exact pass does. *)
Lemma body_transport (it : Z) (s : LPSolver) :
  finite_tab (tableau s) = true -> feasibleb s = true ->
  match body it s with
  | Ok (r, s') => Exact.body it (qstate s) = Ok (option_map qresult r, qstate s') /\
                  finite_tab (tableau s') = true
  | Raise e => Exact.body it (qstate s) = Raise e
  end.
Proof.
  intros HT Hf.
  destruct (entering_transport s HT) as (r & E1 & E2).
  unfold body, Exact.body, bind. cbv beta.
  rewrite E1, E2. cbv beta iota. destruct r as [e|].
  - destruct (leaving_transport e s HT) as [(r2 & L1 & L2) | (ex & L1 & L2)];
      rewrite L1, L2; cbv beta iota; [| reflexivity].
    destruct r2 as [li|]; [| split; [reflexivity | exact HT]].
    assert (Hfe : Exact.feasibleb (qstate s) = true)
      by (rewrite <- feasibleb_transport; assumption).
    destruct (ExactProofs.ex_leaving_row_positive_pivot (qstate s) e li
                (ExactProofs.ex_feasibleb_spec _ Hfe) _ L2) as [_ Hnz].
    rewrite tableau_qstate, <- toQ_at in Hnz.
    destruct (pivot e li s) as [[[] s3]|e3] eqn:Hp.
    + destruct (pivot_transport e li s s3 HT Hnz Hp) as [Hp' F].
      rewrite Hp'. split; [reflexivity | exact F].
    + unfold pivot in Hp; monad_unfold. discriminate.
  - unfold extract_solution, Exact.extract_solution; monad_unfold. cbv beta iota.
    split; [| exact HT].
    pose proof (basic_solution_transport s) as Hsol.
    assert (Hobj : toQ (fneg (rhs_of (row (tableau s) 0))) =
                   - Exact.rhs_of (Exact.row (qtab (tableau s)) 0)).
    { rewrite <- qrow_row, <- toQ_rhs.
      exact (proj2 (fneg_finite _ (finite_rhs _ (finite_tab_row _ 0 HT)))). }
    unfold basic_solution, Exact.basic_solution, qstate in Hsol.
    unfold qresult, qstate. cbn [option_map Exact.tableau Exact.num_variables
      Exact.num_constraints Exact.basis Exact.objective_value Exact.solution tableau
      num_variables num_constraints basis objective_value solution fst snd] in *.
    rewrite Hsol, Hobj. reflexivity.
Qed.

(** *** The initial tableau *)

Lemma qrow_fneg (l : list pyfloat) :
  forallb finiteb l = true -> qrow (map fneg l) = map Qopp (qrow l).
Proof.
  induction l as [| x l IH]; intro H; [reflexivity |].
  cbn [forallb] in H. apply andb_prop in H as [Hx Hl].
  unfold qrow in *. cbn [map]. rewrite (proj2 (fneg_finite x Hx)), (IH Hl). reflexivity.
Qed.

Lemma finite_fneg (l : list pyfloat) :
  forallb finiteb l = true -> forallb finiteb (map fneg l) = true.
Proof.
  induction l as [| x l IH]; intro H; [reflexivity |].
  cbn [forallb] in H. apply andb_prop in H as [Hx Hl].
  cbn [map forallb]. rewrite (proj1 (fneg_finite x Hx)). exact (IH Hl).
Qed.

Lemma finite_repeat0 (m : nat) : forallb finiteb (repeat (fl 0) m) = true.
Proof. induction m as [| m IH]; [reflexivity | exact IH]. Qed.

Lemma qrow_repeat0 (m : nat) : qrow (repeat (fl 0) m) = repeat 0 m.
Proof. unfold qrow. rewrite map_repeat. reflexivity. Qed.

Lemma qrow_eye_row (m i : nat) : qrow (eye_row m i) = Exact.eye_row m i.
Proof.
  unfold qrow, eye_row, Exact.eye_row. rewrite map_map.
  apply map_ext. intro k. destruct (Nat.eqb k i); reflexivity.
Qed.

Lemma finite_eye_row (m i : nat) : forallb finiteb (eye_row m i) = true.
Proof.
  unfold eye_row. apply forallb_forall. intros x Hx.
  apply in_map_iff in Hx as (k & <- & _). destruct (Nat.eqb k i); reflexivity.
Qed.

Lemma qtab_hstack_eye (A : list (list pyfloat)) (m i : nat) :
  qtab (hstack_eye A m i) = Exact.hstack_eye (qtab A) m i.
Proof.
  revert i. induction A as [| r A IH]; intro i; [reflexivity |].
  unfold qtab in *. cbn [hstack_eye Exact.hstack_eye map]. rewrite IH. f_equal.
  unfold qrow at 1. rewrite map_app. fold (qrow r). rewrite <- qrow_eye_row. reflexivity.
Qed.

Lemma finite_hstack_eye (A : list (list pyfloat)) (m i : nat) :
  finite_tab A = true -> finite_tab (hstack_eye A m i) = true.
Proof.
  revert i. induction A as [| r A IH]; intros i H; [reflexivity |].
  unfold finite_tab in *. cbn [hstack_eye forallb] in *.
  apply andb_prop in H as [Hr HA]. rewrite forallb_app, Hr, finite_eye_row. exact (IH _ HA).
Qed.

Lemma qtab_rows_rhs (H : list (list pyfloat)) (b : list pyfloat) :
  qtab (map (fun '(r, bi) => r ++ [bi]) (combine H b)) =
  map (fun '(r, bi) => r ++ [bi]) (combine (qtab H) (qrow b)).
Proof.
  revert b. induction H as [| r H IH]; intros [| bi b]; try reflexivity.
  unfold qtab, qrow in *. cbn [combine map]. rewrite IH. f_equal.
  rewrite map_app. reflexivity.
Qed.

Lemma finite_rows_rhs (H : list (list pyfloat)) (b : list pyfloat) :
  finite_tab H = true -> forallb finiteb b = true ->
  finite_tab (map (fun '(r, bi) => r ++ [bi]) (combine H b)) = true.
Proof.
  revert b. induction H as [| r H IH]; intros [| bi b] HH Hb; try reflexivity.
  unfold finite_tab in *. cbn [combine map forallb] in *.
  apply andb_prop in HH as [Hr HH]. apply andb_prop in Hb as [Hbi Hb].
  rewrite forallb_app, Hr. cbn. rewrite Hbi. exact (IH b HH Hb).
Qed.

(** The state [solve] starts its loop in, on a problem of finite floats
    whose shapes agree: its tableau is of finite floats and its values are
    those of the exact initial tableau. *)
Lemma setup_transport (c : list pyfloat) (A : Mat) (b : list pyfloat) :
  well_formed c A b ->
  let m := length (mrows A) in
  finite_tab (tableau (setup_state c A b)) = true /\
  qstate (setup_state c A b) =
  Exact.mkSolver
    (Exact.create_initial_tableau (qrow c ++ repeat 0 m)
       (Exact.hstack_eye (qtab (mrows A)) m 0) (qrow b))
    (mcols A + m) m (seq (mcols A) m) None None.
Proof.
  intros (Hc & HA & Hb & Fc & FA & Fb) m.
  unfold setup_state. rewrite (setup_spec c A b LPSolver_init Hc Hb). cbn [tableau]. fold m.
  assert (Fc0 : forallb finiteb (c ++ repeat (fl 0) m) = true)
    by (rewrite forallb_app, Fc; apply finite_repeat0).
  split.
  - unfold finite_tab. cbn [forallb]. rewrite forallb_app, (finite_fneg _ Fc0).
    cbn. apply finite_rows_rhs; [apply finite_hstack_eye, FA | exact Fb].
  - unfold qstate. cbn [tableau num_variables num_constraints basis objective_value
      solution option_map LPSolver_init]. f_equal.
    unfold Exact.create_initial_tableau, qtab at 1. cbn [map].
    fold m. f_equal.
    + unfold qrow at 1. rewrite map_app. fold (qrow (map fneg (c ++ repeat (fl 0) m))).
      rewrite (qrow_fneg _ Fc0). unfold qrow at 1. rewrite map_app. fold (qrow c).
      fold (qrow (repeat (fl 0) m)). rewrite qrow_repeat0. reflexivity.
    + fold (qtab (map (fun '(r, bi) => r ++ [bi]) (combine (hstack_eye (mrows A) m 0) b))).
      rewrite qtab_rows_rhs, qtab_hstack_eye. reflexivity.
Qed.

(** Along a feasible run the tableau is of finite floats and its values
    satisfy the invariant of the simplex method. *)
Lemma feasible_run_invariant (c : list pyfloat) (A : Mat) (b : list pyfloat) (s : LPSolver) :
  well_formed c A b -> feasible_run c A b s ->
  finite_tab (tableau s) = true /\ Exact.tableau_invariant (qrow c) (qstate s).
Proof.
  intros Hw Hr. induction Hr as [| it s s' Hr IH Hf Hb].
  - destruct (setup_transport c A b Hw) as [F E]. split; [exact F |].
    rewrite E. destruct Hw as (Hc & HA & Hb & _).
    pose proof (ExactProofs.ex_init_invariant (qrow c) (qtab (mrows A)) (qrow b) (mcols A)
                  None None) as Hi.
    assert (Hl : length (qtab (mrows A)) = length (mrows A)) by apply length_map.
    rewrite Hl in Hi. apply Hi.
    + unfold qrow. rewrite length_map. exact Hc.
    + apply Forall_map. eapply Forall_impl; [| exact HA].
      intros r Hr. unfold qrow. rewrite length_map. exact Hr.
    + unfold qrow, qtab. rewrite !length_map. exact Hb.
  - destruct IH as [F Hinv].
    pose proof (body_transport it s F Hf) as Ht. rewrite Hb in Ht.
    destruct Ht as [Hb' F']. split; [exact F' |].
    apply (ExactProofs.ex_body_pivot_step (qrow c) it (qstate s) (qstate s') Hinv);
      [rewrite <- feasibleb_transport; assumption | exact Hb'].
Qed.

(** *** Comparisons of floats *)





(** *** Bland's rule over floats *)




(** *** The ratio test over floats *)








(** *** The ratio test on finite tableaus, by its exact counterpart *)






Lemma setup_sizes (c : list pyfloat) (A : Mat) (b : list pyfloat) (s s0 : LPSolver) :
  setup c A b s = Ok (tt, s0) ->
  num_variables s0 = (mcols A + length (mrows A))%nat /\
  num_constraints s0 = length (mrows A).
Proof.
  unfold setup, standard_form, initialize_basis; monad_unfold; cbn.
  destruct (create_initial_tableau _ _ _); intro H; inversion H; subst; cbn; auto.
Qed.

(** ** The claims *)

(** C7: a result [iteration_limit] of [solve] always carries
    [iterations = max_iterations]; when the loop pivots [max_iterations]
    times without terminating, [solve] returns [iteration_limit] with the
    instance the last pivot left; with [max_iterations = 0] the loop does
    not run and [solve] returns [iteration_limit] with [iterations = 0]
    (once [setup] succeeds, as it does on any problem whose shapes agree). *)
Theorem solve_iteration_limit (c : list pyfloat) (A : Mat) (b : list pyfloat)
    (max_iterations : Z) (s : LPSolver) :
  (forall k s', solve c A b max_iterations s = Ok (IterationLimit k, s') ->
                k = max_iterations) /\
  (forall s0 s', setup c A b s = Ok (tt, s0) ->
     reach (Z.to_nat max_iterations) 0 s0 = Some s' ->
     solve c A b max_iterations s = Ok (IterationLimit max_iterations, s')) /\
  solve c A b 0 s = match setup c A b s with
                    | Ok (_, s0) => Ok (IterationLimit 0, s0)
                    | Raise e => Raise e
                    end /\
  (length c = mcols A -> length b = length (mrows A) ->
   exists s', solve c A b 0 s = Ok (IterationLimit 0, s')).
Proof.
  assert (H0 : solve c A b 0 s = match setup c A b s with
                                 | Ok (_, s0) => Ok (IterationLimit 0, s0)
                                 | Raise e => Raise e
                                 end).
  { unfold solve, bind. destruct (setup c A b s) as [[[] s0]|e]; reflexivity. }
  split; [| split; [| split; [exact H0 |]]].
  - intros k s' H. unfold solve, bind in H.
    destruct (setup c A b s) as [[[] s0]|e]; [|discriminate].
    exact (loop_limit_count _ _ _ _ _ _ H).
  - intros s0 s' Hs Hr. unfold solve, bind. rewrite Hs.
    exact (loop_reach _ _ _ _ _ Hr).
  - intros Hc Hb. destruct (setup_ok c A b s Hc Hb) as [s0 Hs]. exists s0.
    rewrite H0, Hs. reflexivity.
Qed.

(** C1: the single-variable problem [maximize x] s.t. [x <= 5], solved
    with the default iteration cap, is optimal at [x = 5] after one
    iteration, but its reported objective value is [-5], not [5]. *)
Theorem scenario2_single_variable :
  run_solve [fl 1] (mkMat [[fl 1]] 1) [fl 5] DEFAULT_MAX_ITERATIONS =
  Ok (Optimal [fl 5] (fl (-5)) 1).
Proof. vm_compute. reflexivity. Qed.

(** C9: [solve] is deterministic: its result (or its exception) does not
    depend on the instance it runs on, so two calls with the same inputs,
    on any two instances or twice in a row on one instance, return the
    same result. *)
Theorem solve_deterministic (c : list pyfloat) (A : Mat) (b : list pyfloat)
    (max_iterations : Z) (s1 s2 : LPSolver) :
  res_fst (solve c A b max_iterations s1) =
  res_fst (solve c A b max_iterations s2) /\
  (forall r1 s1', solve c A b max_iterations s1 = Ok (r1, s1') ->
     res_fst (solve c A b max_iterations s1') = Ok r1).
Proof.
  assert (Hall : forall t1 t2, res_fst (solve c A b max_iterations t1) =
                               res_fst (solve c A b max_iterations t2)).
  { intros t1 t2. unfold solve, bind.
    pose proof (setup_same_core c A b t1 t2) as Hs.
    destruct (setup c A b t1) as [[[] u1]|e1], (setup c A b t2) as [[[] u2]|e2];
      try contradiction.
    - apply loop_same_core. exact Hs.
    - subst. reflexivity. }
  split; [apply Hall |].
  intros r1 s1' H. rewrite (Hall s1' s1), H. reflexivity.
Qed.


(** C5: when [solve] returns ["optimal"], its solution has one entry per
    structural variable (the [n] columns of [A], also when [A] has no
    rows); the entry of variable [v] is [T[i + 1, RHS]] for a row [i] with
    [basis[i] == v], or 0 when [v] is basic in no row; the objective value
    is [-T[0, RHS]], all read from the final tableau and basis of the
    instance. *)
Theorem solve_optimal_extraction (c : list pyfloat) (A : Mat) (b : list pyfloat)
    (max_iterations : Z) (s s' : LPSolver) (sol : list pyfloat) (obj : pyfloat) (it : Z) :
  solve c A b max_iterations s = Ok (Optimal sol obj it, s') ->
  length sol = mcols A /\
  obj = fneg (rhs_of (row (tableau s') 0)) /\
  forall v, (v < mcols A)%nat ->
    (exists i, nth_error (basis s') i = Some v /\
               nth v sol (fl 0) = rhs_of (row (tableau s') (S i))) \/
    ((forall i, nth_error (basis s') i <> Some v) /\ nth v sol (fl 0) = fl 0).
Proof.
  intro H. unfold solve, bind in H.
  destruct (setup c A b s) as [[[] s0]|e] eqn:Hs; [| discriminate].
  destruct (setup_sizes _ _ _ _ _ Hs) as [Hnv0 Hnc0].
  destruct (loop_optimal _ _ _ _ _ _ _ _ H) as (Hnv & Hnc & Hsol & Hobj).
  assert (Hn : (num_variables s' - num_constraints s')%nat = mcols A) by lia.
  rewrite Hn in Hsol.
  assert (Hle : (mcols A <= num_variables s')%nat) by lia.
  split; [| split; [exact Hobj |]].
  - rewrite Hsol, length_firstn, length_fill_basic, repeat_length. lia.
  - intros v Hv. rewrite Hsol, nth_firstn_lt by exact Hv.
    destruct (fill_basic_spec (tableau s') (mcols A) (basis s') 0
                (repeat (fl 0) (num_variables s')) v Hv)
      as [(k & Hk & Hval) | (Hk & Hval)]; [rewrite repeat_length; lia | left | right].
    + exists k. split; [exact Hk | exact Hval].
    + split; [exact Hk |]. rewrite Hval.
      destruct (nth_in_or_default v (repeat (fl 0) (num_variables s')) (fl 0)) as [Hin | ->].
      * apply repeat_spec in Hin. exact Hin.
      * reflexivity.
Qed.

Lemma solve_optimal_extraction_witness :
  length [fl 5] = mcols (mkMat [[fl 1]] 1) /\
  fl (-5) = fneg (rhs_of (row (tableau
    (match solve [fl 1] (mkMat [[fl 1]] 1) [fl 5] DEFAULT_MAX_ITERATIONS LPSolver_init with
     | Ok (_, s) => s | Raise _ => LPSolver_init end)) 0)).
Proof.
  destruct (solve_optimal_extraction [fl 1] (mkMat [[fl 1]] 1) [fl 5] DEFAULT_MAX_ITERATIONS
              LPSolver_init
              (match solve [fl 1] (mkMat [[fl 1]] 1) [fl 5] DEFAULT_MAX_ITERATIONS LPSolver_init with
               | Ok (_, s) => s | Raise _ => LPSolver_init end)
              [fl 5] (fl (-5)) 1) as (H1 & H2 & _).
  - vm_compute. reflexivity.
  - split; [exact H1 | exact H2].
Defined.







(** C4: a pivot of a tableau of finite numbers on a nonzero pivot element
    [T[li + 1, j]] keeps the basis invariant (the column of [basis[i]],
    restricted to rows [1..m], is the [i]-th standard basis vector), sets
    [basis[li] = j] and keeps the shape of the tableau.  But [solve] can
    pivot on a zero element: for [maximize x] s.t. [x <= -1], [0 x <= 5],
    the only candidate row has a negative ratio and the ratio test falls
    back to the second row, whose entry in the entering column is 0; the
    pivot divides by it and the basis column of [x] is [nan] after it. *)
Theorem pivot_basis_invariant :
  (forall (s s' : LPSolver) (j li w : nat),
     finite_tab (tableau s) = true ->
     well_shaped (tableau s) (length (basis s)) w ->
     (li < length (basis s))%nat ->
     feq (at_ (tableau s) (S li) j) (fl 0) = false ->
     unit_columns (tableau s) (basis s) ->
     pivot j li s = Ok (tt, s') ->
     unit_columns (tableau s') (basis s') /\
     well_shaped (tableau s') (length (basis s')) w /\
     nth li (basis s') 0%nat = j /\ finite_tab (tableau s') = true) /\
  (let s0 := setup_state [fl 1] (mkMat [[fl 1]; [fl 0]] 1) [fl (-1); fl 5] in
   unit_columns (tableau s0) (basis s0) /\
   get_entering_variable s0 = Ok (Some 0%nat, s0) /\
   get_leaving_variable 0 s0 = Ok (Some 1%nat, s0) /\
   at_ (tableau s0) 2 0 = fl 0 /\
   exists s1, body 0 s0 = Ok (None, s1) /\ ~ unit_columns (tableau s1) (basis s1)).
Proof.
  split.
  - intros s s' j li w HT Hs Hli Hnz HU Hp.
    apply pivot_state in Hp. subst s'. cbn [tableau basis].
    assert (Hnz' : ~ (toQ (at_ (tableau s) (S li) j) == 0)).
    { intro Hz. pose proof (proj2 (feq_finite _ (fl 0) (finite_at _ _ _ HT) eq_refl) Hz).
      congruence. }
    destruct (pivot_tableau_transport (tableau s) j (S li) HT Hnz') as [Hq Hf].
    split; [| split; [| split]].
    + apply (unit_columns_transport _ _ Hf). rewrite Hq.
      apply (ExactProofs.ex_pivot_tableau_unit_columns _ _ w).
      * apply well_shaped_transport. exact Hs.
      * exact Hli.
      * rewrite <- toQ_at. exact Hnz'.
      * apply (unit_columns_transport _ _ HT). exact HU.
    + rewrite length_set_nth. apply well_shaped_transport. rewrite Hq.
      apply ExactProofs.ex_pivot_shape; [apply well_shaped_transport; exact Hs | lia].
    + apply nth_set_nth_eq. exact Hli.
    + exact Hf.
  - cbv zeta. split; [| split; [| split; [| split]]].
    + intros i r Hi Hr. vm_compute in Hi, Hr.
      destruct i as [|[|i]], r as [|[|r]]; try lia; vm_compute; reflexivity.
    + vm_compute. reflexivity.
    + vm_compute. reflexivity.
    + vm_compute. reflexivity.
    + exists (match body 0 (setup_state [fl 1] (mkMat [[fl 1]; [fl 0]] 1) [fl (-1); fl 5]) with
              | Ok (_, s) => s
              | Raise _ => setup_state [fl 1] (mkMat [[fl 1]; [fl 0]] 1) [fl (-1); fl 5]
              end).
      split; [vm_compute; reflexivity |].
      intro H. assert (H1 := H 1%nat 1%nat). vm_compute in H1.
      discriminate (H1 ltac:(lia) ltac:(lia)).
Qed.


(** ** Further properties of the solver *)




(** X3: with [max_iterations <= 0] the pivoting loop never runs: [solve] returns [iteration_limit] with [iterations = max_iterations] and the instance [setup] built, unless [setup] raises. *)
Theorem solve_nonpositive_limit (c : list pyfloat) (A : Mat) (b : list pyfloat)
    (max_iterations : Z) (s : LPSolver) :
  (max_iterations <= 0)%Z ->
  solve c A b max_iterations s =
  match setup c A b s with
  | Ok (_, s0) => Ok (IterationLimit max_iterations, s0)
  | Raise e => Raise e
  end.
Proof.
  intro Hle. unfold solve, bind.
  replace (Z.to_nat max_iterations) with 0%nat by lia.
  destruct (setup c A b s) as [[[] s0]|e]; reflexivity.
Qed.

Lemma solve_nonpositive_limit_witness :
  solve [fl 1] (mkMat [[fl 1]] 1) [fl 5] 0 LPSolver_init =
  Ok (IterationLimit 0, setup_state [fl 1] (mkMat [[fl 1]] 1) [fl 5]).
Proof.
  rewrite (solve_nonpositive_limit [fl 1] (mkMat [[fl 1]] 1) [fl 5] 0 LPSolver_init)
    by lia.
  vm_compute. reflexivity.
Defined.



Lemma setup_state_spec (c : list pyfloat) (A : Mat) (b : list pyfloat) :
  length c = mcols A -> length b = length (mrows A) ->
  let m := length (mrows A) in
  setup_state c A b =
  {| tableau := (map fneg (c ++ repeat (fl 0) m) ++ [fl 0]) ::
                map (fun '(r, bi) => r ++ [bi]) (combine (hstack_eye (mrows A) m 0) b);
     num_variables := mcols A + m;
     num_constraints := m;
     basis := seq (mcols A) m;
     objective_value := None;
     solution := None |}.
Proof.
  intros Hc Hb m. unfold setup_state. rewrite (setup_spec c A b LPSolver_init Hc Hb).
  reflexivity.
Qed.

(** X5: for well-formed [c], [A] and [b], the state that [solve] builds before its loop has the slack variables [n .. n+m-1] as basis and the zero vector as basic solution of the original variables; its tableau holds finite numbers, and satisfies the tableau invariant (unit basis columns, the reduced costs in row 0). *)
Theorem setup_slack_basis (c : list pyfloat) (A : Mat) (b : list pyfloat) :
  well_formed c A b ->
  let s0 := setup_state c A b in
  basis s0 = seq (mcols A) (length (mrows A)) /\
  basic_solution s0 = repeat (fl 0) (mcols A) /\
  finite_tab (tableau s0) = true /\
  Exact.tableau_invariant (qrow c) (qstate s0).
Proof.
  intros Hwf s0. pose proof Hwf as (Hc & _ & Hb & _).
  destruct (feasible_run_invariant c A b s0 Hwf (fr_start c A b)) as [HT Hinv].
  split; [| split; [| split; [exact HT | exact Hinv]]].
  - unfold s0. rewrite (setup_state_spec c A b Hc Hb). reflexivity.
  - unfold s0, basic_solution. rewrite (setup_state_spec c A b Hc Hb).
    cbn [num_variables num_constraints basis tableau].
    replace (mcols A + length (mrows A) - length (mrows A))%nat with (mcols A) by lia.
    rewrite fill_basic_skip.
    + apply firstn_repeat_add.
    + intros v Hv. apply in_seq in Hv. lia.
Qed.

Lemma setup_slack_basis_witness :
  let s0 := setup_state [fl 1; fl 2] (mkMat [[fl 1; fl 0]; [fl 1; fl 1]] 2) [fl 4; fl 6] in
  basis s0 = [2%nat; 3%nat] /\ basic_solution s0 = [fl 0; fl 0].
Proof.
  destruct (setup_slack_basis [fl 1; fl 2] (mkMat [[fl 1; fl 0]; [fl 1; fl 1]] 2) [fl 4; fl 6])
    as (H1 & H2 & _).
  - split; [reflexivity | split; [repeat constructor | split; [reflexivity |]]].
    split; [reflexivity | split; reflexivity].
  - split; [exact H1 | exact H2].
Defined.



(** X7: after [pivot] on a nonzero pivot element [T[p, e]] of a tableau of finite numbers, column [e] of the tableau is the unit vector with its 1 in row [p], row 0 included. *)
Theorem pivot_column_unit (T : list (list pyfloat)) (m w e p : nat) :
  finite_tab T = true -> well_shaped T m w -> (p < S m)%nat ->
  feq (at_ T p e) (fl 0) = false ->
  forall r, (r < S m)%nat ->
    feq (at_ (pivot_tableau T e p) r e) (if Nat.eqb r p then fl 1 else fl 0) = true.
Proof.
  intros HT Hs Hp Hnz r Hr.
  assert (Hnz' : ~ (toQ (at_ T p e) == 0)).
  { intro Hz. pose proof (proj2 (feq_finite _ (fl 0) (finite_at _ _ _ HT) eq_refl) Hz).
    congruence. }
  destruct (pivot_tableau_transport T e p HT Hnz') as [Hq Hf].
  pose proof (ExactProofs.ex_pivot_column_unit (qtab T) m w e p
                (proj1 (well_shaped_transport T m w) Hs) Hp
                ltac:(rewrite <- toQ_at; exact Hnz') r Hr) as H.
  rewrite <- Hq, <- toQ_at in H.
  destruct (Nat.eqb r p);
    [apply (feq_finite _ (fl 1) (finite_at _ _ _ Hf) eq_refl)
    |apply (feq_finite _ (fl 0) (finite_at _ _ _ Hf) eq_refl)]; exact H.
Qed.

Lemma pivot_column_unit_witness :
  feq (at_ (pivot_tableau [[fl (-1); fl 0; fl 0]; [fl 2; fl 1; fl 4]] 0 1) 0 0) (fl 0) = true /\
  feq (at_ (pivot_tableau [[fl (-1); fl 0; fl 0]; [fl 2; fl 1; fl 4]] 0 1) 1 0) (fl 1) = true.
Proof.
  split;
    [apply (pivot_column_unit [[fl (-1); fl 0; fl 0]; [fl 2; fl 1; fl 4]] 1 3 0 1) with (r := 0%nat)
    |apply (pivot_column_unit [[fl (-1); fl 0; fl 0]; [fl 2; fl 1; fl 4]] 1 3 0 1) with (r := 1%nat)];
    (split; [reflexivity | repeat constructor]) || lia || (vm_compute; reflexivity).
Defined.



(** *** Standard form *)

Lemma set_terms_ok (f : Q -> pyfloat) (ts : list (nat * Q)) (v : list pyfloat) :
  Forall (fun t => (fst t < length v)%nat) ts ->
  exists r, set_terms f ts v = Ok r /\ length r = length v.
Proof.
  revert v. induction ts as [| [idx coef] ts IH]; intros v H; cbn; [eauto |].
  inversion H as [| ? ? Hidx Hts]; subst. cbn in Hidx.
  unfold np_set. rewrite (proj2 (Nat.ltb_lt _ _) Hidx).
  destruct (IH (set_nth idx (f coef) v)) as (r & Hr & Hl).
  - rewrite length_set_nth. exact Hts.
  - exists r. rewrite length_set_nth in Hl. auto.
Qed.

Lemma constraint_row_spec (n : nat) (con : LPConstraint) :
  Forall (fun t => (fst t < n)%nat) (terms (lhs con)) ->
  exists r, set_terms fl (terms (lhs con)) (repeat (fl 0) n) = Ok r /\
    (valid_sense (sense con) = false ->
       constraint_row n con = Raise (unsupported_sense (sense con))) /\
    (sense con = ">="%string ->
       constraint_row n con =
         Ok (map fneg r, fneg (fsub (fl (rhs con)) (fl (constant (lhs con)))))) /\
    (sense con = "="%string ->
       constraint_row n con = Ok (r, fsub (fl (rhs con)) (fl (constant (lhs con))))) /\
    (sense con = "<="%string ->
       constraint_row n con = Ok (r, fsub (fl (rhs con)) (fl (constant (lhs con))))).
Proof.
  intro H.
  destruct (set_terms_ok fl (terms (lhs con)) (repeat (fl 0) n))
    as (r & Hr & _); [rewrite repeat_length; exact H |].
  exists r. split; [exact Hr |].
  unfold constraint_row, valid_sense. rewrite Hr.
  split; [| split; [| split]].
  - destruct (String.eqb (sense con) "<="), (String.eqb (sense con) ">="),
      (String.eqb (sense con) "="); cbn; congruence.
  - intros ->. reflexivity.
  - intros ->. reflexivity.
  - intros ->. reflexivity.
Qed.

Lemma constraint_rows_spec (n : nat) (cs : list LPConstraint) :
  Forall (fun con => Forall (fun t => (fst t < n)%nat) (terms (lhs con))) cs ->
  ((exists e, constraint_rows n cs = Raise e) <->
     Exists (fun con => valid_sense (sense con) = false) cs) /\
  (forall e, constraint_rows n cs = Raise e -> exists sn, e = unsupported_sense sn) /\
  (forall A b, constraint_rows n cs = Ok (A, b) ->
     length A = length cs /\ length b = length cs /\
     forall i con, nth_error cs i = Some con -> exists r bi,
       constraint_row n con = Ok (r, bi) /\
       nth_error A i = Some r /\ nth_error b i = Some bi).
Proof.
  induction cs as [| con cs IH]; intro H; cbn.
  - split; [| split].
    + split; [intros [e He]; discriminate | intro He; inversion He].
    + intros e He; discriminate.
    + intros A b Hab. inversion Hab; subst. cbn.
      split; [reflexivity | split; [reflexivity |]]. intros [|i] con Hc; discriminate.
  - inversion H as [| ? ? Hcon Hcs]; subst.
    destruct (IH Hcs) as (IHr & IHe & IHo).
    destruct (constraint_row_spec n con Hcon) as (r & Hr & Hinv & Hge & Heq & Hle).
    destruct (valid_sense (sense con)) eqn:Ev.
    + (* a recognised sense: the row is built *)
      assert (Hok : exists bi r', constraint_row n con = Ok (r', bi)).
      { unfold valid_sense in Ev.
        destruct (String.eqb_spec (sense con) "<=") as [E1|E1];
          [rewrite (Hle E1); eauto |].
        destruct (String.eqb_spec (sense con) ">=") as [E2|E2];
          [rewrite (Hge E2); eauto |].
        destruct (String.eqb_spec (sense con) "=") as [E3|E3];
          [rewrite (Heq E3); eauto | discriminate]. }
      destruct Hok as (bi & r' & Hrow). rewrite Hrow.
      destruct (constraint_rows n cs) as [[A b]|e] eqn:Ecs.
      * split; [| split].
        -- split; [intros [e He]; discriminate |].
           intro Hex. inversion Hex as [? ? Hx | ? ? Hx]; subst; [congruence |].
           apply IHr in Hx as [e He]. discriminate.
        -- intros e He; discriminate.
        -- intros A' b' Hab. inversion Hab; subst.
           destruct (IHo A b eq_refl) as (HA & Hb & Hi).
           cbn. split; [lia | split; [lia |]].
           intros [| i] con' Hc; cbn in Hc.
           ++ inversion Hc; subst. eauto.
           ++ destruct (Hi i con' Hc) as (r1 & b1 & ? & ? & ?). exists r1, b1. auto.
      * split; [| split].
        -- split; [intros _ | intros _; eauto].
           right. apply IHr. eauto.
        -- intros e' He'. inversion He'; subst. exact (IHe _ eq_refl).
        -- intros A b Hab; discriminate.
    + rewrite (Hinv eq_refl). split; [| split].
      * split; [intros _; left; exact Ev | eauto].
      * intros e He. inversion He; subst. eauto.
      * intros A b Hab; discriminate.
Qed.

(** C8: on a model whose variables all belong to it, [to_standard_form]
    raises exactly when some constraint's sense is not one of ['<='],
    ['>='], ['='], and then raises the unsupported-sense [ValueError];
    otherwise row [i] of [A] and [b[i]] are, for ['>='], the negated
    coefficient row and the negated effective right-hand side
    [-(rhs - constant)], and for ['='], the coefficient row and
    [rhs - constant] unchanged, as for ['<=']. *)
Theorem to_standard_form_senses (mdl : LPModel) :
  indices_in_model mdl ->
  let n := length (variables mdl) in
  ((exists sn, to_standard_form mdl = Raise (unsupported_sense sn)) <->
     Exists (fun con => valid_sense (sense con) = false) (constraints mdl)) /\
  (forall e, to_standard_form mdl = Raise e -> exists sn, e = unsupported_sense sn) /\
  (forall c A b, to_standard_form mdl = Ok (c, A, b) ->
     forall i con, nth_error (constraints mdl) i = Some con ->
       exists r, set_terms fl (terms (lhs con)) (repeat (fl 0) n) = Ok r /\
         (sense con = ">="%string ->
            nth_error (mrows A) i = Some (map fneg r) /\
            nth_error b i = Some (fneg (fsub (fl (rhs con)) (fl (constant (lhs con)))))) /\
         (sense con = "="%string ->
            nth_error (mrows A) i = Some r /\
            nth_error b i = Some (fsub (fl (rhs con)) (fl (constant (lhs con))))) /\
         (sense con = "<="%string ->
            nth_error (mrows A) i = Some r /\
            nth_error b i = Some (fsub (fl (rhs con)) (fl (constant (lhs con)))))).
Proof.
  intros [Hobj Hcons] n.
  destruct (constraint_rows_spec n (constraints mdl) Hcons) as (Hr & He & Ho).
  assert (Hc : exists c, match objective mdl with
                         | None => Ok (repeat (fl 0) n)
                         | Some obj =>
                             set_terms (fun coef => if String.eqb (model_sense mdl) "maximize"
                                                    then fl coef else fneg (fl coef))
                               (terms obj) (repeat (fl 0) n)
                         end = Ok c).
  { destruct (objective mdl) as [obj|]; [| eauto].
    destruct (set_terms_ok (fun coef => if String.eqb (model_sense mdl) "maximize"
                                        then fl coef else fneg (fl coef))
                (terms obj) (repeat (fl 0) n))
      as (c & Hc & _); [rewrite repeat_length; exact (Hobj obj eq_refl) | eauto]. }
  destruct Hc as [c Hc].
  assert (Hsf : to_standard_form mdl =
                match constraint_rows n (constraints mdl) with
                | Raise e => Raise e
                | Ok (A, b) => Ok (c, mkMat A n, b)
                end).
  { unfold to_standard_form. fold n. rewrite Hc. reflexivity. }
  rewrite Hsf. split; [| split].
  - split.
    + intros [sn Hsn]. apply Hr. exists (unsupported_sense sn).
      destruct (constraint_rows n (constraints mdl)) as [[A b]|e]; [discriminate |].
      inversion Hsn; subst. reflexivity.
    + intro Hex. apply Hr in Hex as [e He1]. rewrite He1.
      destruct (He e He1) as [sn ->]. eauto.
  - intros e He1. destruct (constraint_rows n (constraints mdl)) as [[A b]|e'] eqn:E;
      [discriminate |]. inversion He1; subst. exact (He e eq_refl).
  - intros c' A b Hok i con Hi.
    destruct (constraint_rows n (constraints mdl)) as [[A' b']|e] eqn:E; [| discriminate].
    inversion Hok; subst c' A b'. cbn [mrows].
    destruct (Ho A' b eq_refl) as (_ & _ & Hrow).
    destruct (Hrow i con Hi) as (r & bi & Hcr & HA & Hb).
    assert (Hin : In con (constraints mdl)) by (eapply nth_error_In; exact Hi).
    rewrite Forall_forall in Hcons.
    destruct (constraint_row_spec n con (Hcons con Hin)) as (r' & Hr' & _ & Hge & Heq & Hle).
    exists r'. split; [exact Hr' |]. split; [| split].
    + intro Hs. rewrite (Hge Hs) in Hcr. inversion Hcr; subst. auto.
    + intro Hs. rewrite (Heq Hs) in Hcr. inversion Hcr; subst. auto.
    + intro Hs. rewrite (Hle Hs) in Hcr. inversion Hcr; subst. auto.
Qed.

Lemma to_standard_form_senses_witness :
  to_standard_form example_model =
    Ok ([fl 1; fl 1], mkMat [[fneg (fl 1); fneg (fl 2)]; [fl 0; fl 1]] 2,
        [fneg (fsub (fl 3) (fl 1)); fsub (fl 4) (fl 0)]) /\
  (forall c A b, to_standard_form example_model = Ok (c, A, b) ->
     exists r, set_terms fl [(0%nat, 1); (1%nat, 2)] [fl 0; fl 0] = Ok r /\
       nth_error (mrows A) 0 = Some (map fneg r) /\
       nth_error b 0 = Some (fneg (fsub (fl 3) (fl 1)))).
Proof.
  split; [vm_compute; reflexivity |].
  intros c A b Hok.
  assert (Hm : indices_in_model example_model).
  { split.
    - intros obj Hobj. inversion Hobj; subst.
      repeat constructor; cbn; lia.
    - repeat constructor; cbn; lia. }
  destruct (to_standard_form_senses example_model Hm) as (_ & _ & Ho).
  destruct (Ho c A b Hok 0%nat _ eq_refl) as (r & Hr & Hge & _).
  exists r. split; [exact Hr |]. apply Hge. reflexivity.
Defined.

(** *** The methods of [LPModel] *)

Lemma digit_char_val (d : nat) : (d < 10)%nat -> (Ascii.nat_of_ascii (digit_char d) - 48)%nat = d.
Proof.
  intro H. unfold digit_char. rewrite Ascii.nat_ascii_embedding by lia. lia.
Qed.

Lemma str_nat_fuel_parse (f n : nat) (acc : string) :
  (n < f)%nat -> parse_dec (str_nat_fuel f n acc) 0 = parse_dec acc n.
Proof.
  revert n acc. induction f as [| f IH]; intros n acc H; [lia |].
  cbn [str_nat_fuel].
  assert (Hd : (Ascii.nat_of_ascii (digit_char (n mod 10)) - 48)%nat = (n mod 10)%nat)
    by (apply digit_char_val, Nat.mod_upper_bound; lia).
  pose proof (Nat.div_mod n 10 ltac:(lia)) as Hdm.
  destruct (n / 10)%nat as [| q] eqn:Eq.
  - cbn [parse_dec]. rewrite Hd. f_equal. lia.
  - rewrite IH by (pose proof (Nat.div_lt n 10); lia).
    cbn [parse_dec]. rewrite Hd. f_equal. lia.
Qed.

Lemma py_str_nat_inj (n m : nat) : py_str_nat n = py_str_nat m -> n = m.
Proof.
  intro H. unfold py_str_nat in H.
  apply (f_equal (fun s => parse_dec s 0)) in H.
  rewrite !str_nat_fuel_parse in H by lia. exact H.
Qed.

Lemma map_injective_NoDup {A B} (f : A -> B) (l : list A) :
  (forall a b, f a = f b -> a = b) -> NoDup l -> NoDup (map f l).
Proof.
  intros Hf Hl. induction Hl as [| x l Hx Hl IH]; cbn; constructor; [| exact IH].
  intro Hin. apply in_map_iff in Hin as (y & Hy & Hin). apply Hf in Hy. subst. contradiction.
Qed.

Lemma string_app_inj (p a b : string) : (p ++ a)%string = (p ++ b)%string -> a = b.
Proof. induction p as [| ch p IH]; cbn; [auto | intro H; injection H; exact IH]. Qed.

Lemma add_variables_from_spec (k i : nat) (prefix : string) (mdl : LPModel) :
  let '(vs, mdl') := add_variables_from i k prefix mdl in
  map snd vs = seq (length (variables mdl)) k /\
  map fst vs = map (fun j => (prefix ++ py_str_nat (S j))%string) (seq i k) /\
  variables mdl' = variables mdl ++ map fst vs /\
  constraints mdl' = constraints mdl /\ objective mdl' = objective mdl /\
  model_sense mdl' = model_sense mdl.
Proof.
  revert i mdl. induction k as [| k IH]; intros i mdl.
  - cbn. rewrite app_nil_r. repeat split.
  - cbn [add_variables_from]. unfold add_variable at 1.
    specialize (IH (S i) (mkModel (variables mdl ++ [(prefix ++ py_str_nat (S i))%string])
                          (constraints mdl) (objective mdl) (model_sense mdl))).
    destruct (add_variables_from (S i) k prefix _) as [vs mdl'].
    destruct IH as (H1 & H2 & H3 & H4 & H5 & H6).
    cbn [variables constraints objective model_sense] in *.
    rewrite length_app, Nat.add_1_r in H1.
    cbn [map fst snd seq]. rewrite H1, H3, H2, <- app_assoc.
    repeat split; assumption.
Qed.

(** X15: [add_variables(count, prefix)] appends [count] variables (none when [count <= 0]) with indices [len(variables)], [len(variables) + 1], ... and the pairwise different names [prefix1 .. prefix<count>], and changes nothing else of the model. *)
Theorem add_variables_spec (count : Z) (prefix : string) (mdl : LPModel) :
  let '(vs, mdl') := add_variables count prefix mdl in
  map snd vs = seq (length (variables mdl)) (Z.to_nat count) /\
  map fst vs = map (fun j => (prefix ++ py_str_nat (S j))%string) (seq 0 (Z.to_nat count)) /\
  NoDup (map fst vs) /\
  variables mdl' = variables mdl ++ map fst vs /\
  constraints mdl' = constraints mdl /\ objective mdl' = objective mdl /\
  model_sense mdl' = model_sense mdl.
Proof.
  unfold add_variables.
  pose proof (add_variables_from_spec (Z.to_nat count) 0 prefix mdl) as H.
  destruct (add_variables_from 0 _ prefix mdl) as [vs mdl'].
  destruct H as (H1 & H2 & H3 & H4 & H5 & H6).
  split; [exact H1 |]. split; [exact H2 |]. split; [| repeat split; assumption].
  rewrite H2. apply map_injective_NoDup; [| apply seq_NoDup].
  intros a b Hab. apply string_app_inj, py_str_nat_inj in Hab. lia.
Qed.

Lemma add_variables_names (count : Z) (prefix : string) (mdl : LPModel) :
  let '(vs, mdl') := add_variables count prefix mdl in
  map fst vs = map (fun j => (prefix ++ py_str_nat (S j))%string) (seq 0 (Z.to_nat count)) /\
  variables mdl' = variables mdl ++ map fst vs.
Proof.
  unfold add_variables.
  pose proof (add_variables_from_spec (Z.to_nat count) 0 prefix mdl) as H.
  destruct (add_variables_from 0 _ prefix mdl) as [vs mdl'].
  destruct H as (_ & H2 & H3 & _). split; assumption.
Qed.

(** X16: on a model without variables, [add_variables(count)] with the default prefix followed by [add_variable()] with the default name gives the new variable the name [x<count>] of the last variable added before, so the model then has two variables of one name. *)
Theorem default_name_collision (count : Z) (mdl : LPModel) :
  variables mdl = [] -> (0 < count)%Z ->
  let '(vs, mdl1) := add_variables count "x" mdl in
  let '((nm, idx), mdl2) := add_variable None mdl1 in
  idx = Z.to_nat count /\ In nm (map fst vs) /\ ~ NoDup (variables mdl2).
Proof.
  intros H0 Hc.
  pose proof (add_variables_names count "x" mdl) as H.
  destruct (add_variables count "x" mdl) as [vs mdl1].
  destruct H as (H2 & H3). rewrite H0 in H3. cbn in H3.
  assert (Hlen : length (variables mdl1) = Z.to_nat count).
  { rewrite H3, H2, length_map, length_seq. reflexivity. }
  assert (Hin : In ("x" ++ py_str_nat (Z.to_nat count))%string (map fst vs)).
  { rewrite H2. apply in_map_iff. exists (Z.to_nat count - 1)%nat.
    split; [f_equal; f_equal; lia | apply in_seq; lia]. }
  unfold add_variable. rewrite Hlen. cbn [variables].
  split; [reflexivity | split; [exact Hin |]].
  rewrite H3. intro Hnd.
  apply (NoDup_remove_2 (map fst vs) [] _) in Hnd. rewrite app_nil_r in Hnd.
  contradiction.
Qed.

Lemma default_name_collision_witness :
  let '(vs, mdl1) := add_variables 2 "x" (mkModel [] [] None "maximize") in
  let '((nm, idx), mdl2) := add_variable None mdl1 in
  idx = 2%nat /\ In nm (map fst vs) /\ ~ NoDup (variables mdl2).
Proof.
  apply (default_name_collision 2 (mkModel [] [] None "maximize")); [reflexivity | lia].
Defined.

Lemma str_lookup_set {V} (d : list (string * V)) (k k' : string) (v : V) :
  str_lookup (str_dict_set d k v) k' = if String.eqb k k' then Some v else str_lookup d k'.
Proof.
  induction d as [| [k0 w] d IH]; cbn; [destruct (String.eqb k k'); reflexivity |].
  destruct (String.eqb_spec k0 k) as [->|Hne]; cbn.
  - destruct (String.eqb k k'); reflexivity.
  - rewrite IH. destruct (String.eqb_spec k0 k') as [->|Hne'];
      destruct (String.eqb_spec k k') as [->|]; congruence.
Qed.

Lemma str_dict_set_keys {V} (d : list (string * V)) (k x : string) (v : V) :
  In x (map fst (str_dict_set d k v)) -> In x (map fst d) \/ x = k.
Proof.
  induction d as [| [k0 w] d IH]; cbn; [intros [<-|[]]; right; reflexivity |].
  destruct (String.eqb k0 k); cbn; [tauto |].
  intros [<-|H]; [left; left; reflexivity |]. destruct (IH H); tauto.
Qed.

Lemma str_dict_set_nodup {V} (d : list (string * V)) (k : string) (v : V) :
  NoDup (map fst d) -> NoDup (map fst (str_dict_set d k v)).
Proof.
  induction d as [| [k0 w] d IH]; intro H; cbn; [constructor; [intros [] | constructor] |].
  inversion H as [| ? ? Hn Hd]; subst.
  destruct (String.eqb_spec k0 k) as [->|Hne]; cbn; [exact H |].
  constructor; [| exact (IH Hd)].
  intro Hin. apply str_dict_set_keys in Hin as [Hin|Hin]; contradiction.
Qed.

Lemma skipn_nth_cons {A} (l : list A) (i : nat) (d : A) :
  (i < length l)%nat -> skipn i l = nth i l d :: skipn (S i) l.
Proof.
  revert i. induction l as [| x l IH]; intros [| i] H; cbn in *; try lia; [reflexivity |].
  apply IH. lia.
Qed.

Lemma variable_values_from_lookup (names : list string) (sol : list pyfloat) :
  forall i acc k,
  str_lookup (variable_values_from i names sol acc) k =
    match last_value (combine names (skipn i sol)) k with
    | Some w => Some w
    | None => str_lookup acc k
    end /\
  (NoDup (map fst acc) -> NoDup (map fst (variable_values_from i names sol acc))).
Proof.
  induction names as [| nm names IH]; intros i acc k; cbn [variable_values_from].
  - split; [destruct (skipn i sol); reflexivity | auto].
  - destruct (Nat.ltb_spec i (length sol)) as [Hi|Hi].
    + destruct (IH (S i) (str_dict_set acc nm (nth i sol (fl 0))) k) as [IH1 IH2].
      split; [| intro Hnd; apply IH2, str_dict_set_nodup, Hnd].
      rewrite IH1, (skipn_nth_cons sol i (fl 0) Hi). cbn [combine last_value].
      rewrite str_lookup_set.
      destruct (last_value (combine names (skipn (S i) sol)) k); [reflexivity |].
      destruct (String.eqb nm k); reflexivity.
    + destruct (IH (S i) acc k) as [IH1 IH2]. split; [| exact IH2].
      rewrite IH1, !skipn_all2 by lia. cbn. destruct names; reflexivity.
Qed.

(** X17: the [variable_values] dict built by [LPModel.solve] maps each name to the solution value of the last variable of that name (among the variables that have a solution entry), and holds each name once. *)
Theorem variable_values_lookup (names : list string) (sol : list pyfloat) (nm : string) :
  str_lookup (variable_values names sol) nm = last_value (combine names sol) nm /\
  NoDup (map fst (variable_values names sol)).
Proof.
  destruct (variable_values_from_lookup names sol 0 [] nm) as [H1 H2]. unfold variable_values.
  split; [rewrite H1; cbn; destruct (last_value _ _); reflexivity | apply H2; constructor].
Qed.

Lemma set_terms_ext (f g : Q -> pyfloat) (ts : list (nat * Q)) (v : list pyfloat) :
  (forall x, f x = g x) -> set_terms f ts v = set_terms g ts v.
Proof.
  intro H. revert v. induction ts as [| [idx coef] ts IH]; intro v; cbn; [reflexivity |].
  rewrite H. destruct (np_set idx (g coef) v); [apply IH | reflexivity].
Qed.

Lemma Forall2_set_nth {A B} (R : A -> B -> Prop) (i : nat) (x : A) (y : B) l1 l2 :
  R x y -> Forall2 R l1 l2 -> Forall2 R (set_nth i x l1) (set_nth i y l2).
Proof.
  intros Hxy H. revert i. induction H as [| a b l1 l2 Hab H IH]; intros [| i]; cbn;
    constructor; auto.
Qed.

(** Two runs of the loop of [to_standard_form] over one term list whose
    assigned values are related entry by entry, from related vectors. *)
Lemma set_terms_rel (R : pyfloat -> pyfloat -> Prop) (f g : Q -> pyfloat)
    (ts : list (nat * Q)) (v w r : list pyfloat) :
  (forall q, R (f q) (g q)) -> Forall2 R v w ->
  set_terms g ts w = Ok r ->
  exists r', set_terms f ts v = Ok r' /\ Forall2 R r' r.
Proof.
  intro Hfg. revert v w. induction ts as [| [idx coef] ts IH]; intros v w Hvw H; cbn in H |- *.
  - injection H as <-. eauto.
  - unfold np_set in H |- *. rewrite (Forall2_length Hvw).
    destruct (Nat.ltb idx (length w)); [| discriminate].
    exact (IH _ _ (Forall2_set_nth R idx _ _ v w (Hfg coef) Hvw) H).
Qed.

(** X18: [set_objective] followed by [to_standard_form]: the objective vector is the one for ['maximize'] when [sense.lower()] is ['maximize'], and for any other string (so ['max'] means minimize) a vector of the same length whose entries equal the negated entries of that one; a variable given as objective gives the unit vector at its index. *)
Theorem set_objective_sense (mdl : LPModel) (o : objective_arg) (sn : string)
    (c : list pyfloat) (A : Mat) (b : list pyfloat) :
  to_standard_form (set_objective mdl o "maximize") = Ok (c, A, b) ->
  (String.eqb (py_lower sn) "maximize" = true ->
     to_standard_form (set_objective mdl o sn) = Ok (c, A, b)) /\
  (String.eqb (py_lower sn) "maximize" = false ->
     exists c', to_standard_form (set_objective mdl o sn) = Ok (c', A, b) /\
       Forall2 (fun x y => feq x (fneg y) = true) c' c) /\
  (forall idx, o = ObjVar idx -> c = set_nth idx (fl 1) (repeat (fl 0) (length (variables mdl)))).
Proof.
  unfold to_standard_form, set_objective. cbn [variables constraints objective model_sense].
  set (ts := terms (match o with ObjVar idx => mkExpr [(idx, 1)] 0 | ObjExpr e => e end)).
  set (n := length (variables mdl)).
  rewrite (set_terms_ext (fun coef => if String.eqb (py_lower "maximize") "maximize"
                                      then fl coef else fneg (fl coef)) fl) by reflexivity.
  destruct (set_terms fl ts (repeat (fl 0) n)) as [c0|e] eqn:Hc; [| discriminate].
  destruct (constraint_rows n (constraints mdl)) as [[A0 b0]|e]; [| discriminate].
  intro H. injection H as <- <- <-. split; [| split].
  - intro Es. rewrite (set_terms_ext _ fl) by (intro; rewrite Es; reflexivity).
    rewrite Hc. reflexivity.
  - intro Es.
    rewrite (set_terms_ext _ (fun coef => fneg (fl coef))) by (intro; rewrite Es; reflexivity).
    destruct (set_terms_rel (fun x y => feq x (fneg y) = true) (fun coef => fneg (fl coef)) fl
                ts (repeat (fl 0) n) (repeat (fl 0) n) c0) as (c' & Hc' & Hrel).
    + intro q. unfold feq. apply andb_true_intro.
      split; unfold fneg, fl, mkflt, fle; apply Qle_bool_iff, Qle_refl.
    + clear. induction n as [| n IH]; constructor; [reflexivity | exact IH].
    + exact Hc.
    + rewrite Hc'. eauto.
  - intros idx ->. cbn in ts. subst ts. cbn in Hc. unfold np_set in Hc.
    destruct (Nat.ltb idx (length (repeat (fl 0) n))); [| discriminate].
    injection Hc as <-. reflexivity.
Qed.

Lemma set_objective_sense_witness :
  (exists c', to_standard_form (set_objective example_model (ObjVar 0) "Minimize") =
                Ok (c', mkMat [[fneg (fl 1); fneg (fl 2)]; [fl 0; fl 1]] 2,
                    [fneg (fsub (fl 3) (fl 1)); fsub (fl 4) (fl 0)]) /\
              Forall2 (fun x y => feq x (fneg y) = true) c' [fl 1; fl 0]) /\
  [fl 1; fl 0] = set_nth 0 (fl 1) (repeat (fl 0) 2).
Proof.
  destruct (set_objective_sense example_model (ObjVar 0) "Minimize"
              [fl 1; fl 0] (mkMat [[fneg (fl 1); fneg (fl 2)]; [fl 0; fl 1]] 2)
              [fneg (fsub (fl 3) (fl 1)); fsub (fl 4) (fl 0)]) as (_ & H2 & H3);
    [vm_compute; reflexivity |].
  split; [exact (H2 eq_refl) | exact (H3 0%nat eq_refl)].
Defined.









(** X20: [_parse_constraint] picks the first of ['<='], ['>='] and ['='] (the last one only without ['==']) that the string contains; with none it raises [ValueError('Invalid constraint format: ...')]; when that operator splits the string in other than two parts it raises a [ValueError]; when it splits it in two parts, it raises the [ValueError] of [float] on the stripped right part, or appends a constraint with an empty left-hand side, that operator as sense and the value of [float] of the stripped right part; and nothing else. *)
Theorem model_parse_constraint_spec (py_float : string -> res Q) (s : string)
    (var_dict : list (string * nat)) (mdl : LPModel) :
  let sn := if str_contains "<=" s then "<="%string
            else if str_contains ">=" s then ">="%string else "="%string in
  let found := str_contains "<=" s || str_contains ">=" s ||
               (str_contains "=" s && negb (str_contains "==" s)) in
  (found = false ->
     model_parse_constraint py_float s var_dict mdl =
       Raise (ValueError ("Invalid constraint format: " ++ s))) /\
  (found = true -> length (py_split s sn) <> 2%nat ->
     model_parse_constraint py_float s var_dict mdl =
       Raise (ValueError (UnpackCount (length (py_split s sn))))) /\
  (forall l r, found = true -> py_split s sn = [l; r] ->
     model_parse_constraint py_float s var_dict mdl =
       match py_float (py_strip r) with
       | Ok q => Ok (add_constraint (mkConstraint (mkExpr [] 0) sn q) mdl)
       | Raise e => Raise e
       end) /\
  (forall mdl', model_parse_constraint py_float s var_dict mdl = Ok mdl' ->
     found = true /\
     exists l r q, py_split s sn = [l; r] /\ py_float (py_strip r) = Ok q /\
       mdl' = add_constraint (mkConstraint (mkExpr [] 0) sn q) mdl).
Proof.
  intros sn found. unfold model_parse_constraint. fold sn.
  assert (Hsn : (if str_contains "<=" s then Some "<="%string
                 else if str_contains ">=" s then Some ">="%string
                 else if str_contains "=" s && negb (str_contains "==" s)
                 then Some "="%string else None) =
                if found then Some sn else None).
  { unfold found, sn.
    destruct (str_contains "<=" s), (str_contains ">=" s),
      (str_contains "=" s && negb (str_contains "==" s)); reflexivity. }
  rewrite Hsn. split; [| split; [| split]].
  - intros ->. reflexivity.
  - intros -> Hlen. unfold unpack2.
    destruct (py_split s sn) as [| x [| y [| z rest]]]; cbn in Hlen |- *;
      [reflexivity | reflexivity | lia | reflexivity].
  - intros l r -> Hsplit. unfold unpack2. rewrite Hsplit. reflexivity.
  - intros mdl' H. destruct found; [| discriminate]. split; [reflexivity |].
    unfold unpack2 in H.
    destruct (py_split s sn) as [| l [| r [| z rest]]]; try discriminate.
    destruct (py_float (py_strip r)) as [q|e] eqn:Eq; [| discriminate].
    injection H as <-. exists l, r, q. auto.
Qed.

Lemma model_parse_constraint_spec_witness :
  model_parse_constraint (fun _ => Ok 5) "x <= 5" [] example_model =
    Ok (add_constraint (mkConstraint (mkExpr [] 0) "<=" 5) example_model) /\
  model_parse_constraint (fun _ => Ok 5) "x <= 5 <= 6" [] example_model =
    Raise (ValueError (UnpackCount 3)).
Proof.
  destruct (model_parse_constraint_spec (fun _ => Ok 5) "x <= 5" [] example_model)
    as (_ & _ & H3 & _).
  destruct (model_parse_constraint_spec (fun _ => Ok 5) "x <= 5 <= 6" [] example_model)
    as (_ & H2 & _).
  split.
  - rewrite (H3 "x "%string " 5"%string); [reflexivity | reflexivity | vm_compute; reflexivity].
  - rewrite H2; [reflexivity | reflexivity | vm_compute; discriminate].
Defined.
(** ** Properties of the operators of [src/lpsolver/variables.py] *)

Import Variables.

Lemma same_key_neq (str_hash : string -> Z) (k key : LPVariable) :
  var_hash str_hash k <> var_hash str_hash key -> same_key str_hash k key = VOk false.
Proof. intro H. unfold same_key. apply Z.eqb_neq in H. rewrite H. reflexivity. Qed.

Lemma dict_lookup_absent {V} (str_hash : string -> Z) (d : list (LPVariable * V)) key :
  (forall k, In k (map fst d) -> var_hash str_hash k <> var_hash str_hash key) ->
  dict_lookup str_hash d key = VOk None.
Proof.
  induction d as [| [k v] d IH]; intro H; cbn; [reflexivity |].
  rewrite same_key_neq by (apply H; left; reflexivity).
  apply IH. intros k' Hk'. apply H. right. exact Hk'.
Qed.

Lemma dict_set_absent {V} (str_hash : string -> Z) (d : list (LPVariable * V)) key v :
  (forall k, In k (map fst d) -> var_hash str_hash k <> var_hash str_hash key) ->
  dict_set str_hash d key v = VOk (d ++ [(key, v)]).
Proof.
  induction d as [| [k w] d IH]; intro H; cbn; [reflexivity |].
  rewrite same_key_neq by (apply H; left; reflexivity).
  rewrite IH; [reflexivity |]. intros k' Hk'. apply H. right. exact Hk'.
Qed.

Lemma dict_lookup_clash {V} (str_hash : string -> Z) (d : list (LPVariable * V)) key :
  (exists k, In k (map fst d) /\ var_hash str_hash k = var_hash str_hash key) ->
  (forall k, In k (map fst d) -> vid k <> vid key) ->
  dict_lookup str_hash d key = VRaise RecursionError.
Proof.
  induction d as [| [k v] d IH]; intros (k0 & Hk0 & Hh) Hid; [destruct Hk0 |].
  cbn. unfold same_key.
  destruct (Z.eqb (var_hash str_hash k) (var_hash str_hash key)) eqn:E.
  - rewrite (proj2 (Nat.eqb_neq _ _) (Hid k (or_introl eq_refl))). reflexivity.
  - apply IH.
    + destruct Hk0 as [<-|Hk0]; [apply Z.eqb_neq in E; contradiction |].
      exists k0. split; [exact Hk0 | exact Hh].
    + intros k' Hk'. apply Hid. right. exact Hk'.
Qed.

Lemma add_term_absent (str_hash : string -> Z) (e : LPExpression) var c :
  (forall k, In k (map fst (terms e)) -> var_hash str_hash k <> var_hash str_hash var) ->
  add_term str_hash e var c = VOk (mkExpr (terms e ++ [(var, c)]) (constant e)).
Proof.
  intro H. unfold add_term.
  rewrite dict_lookup_absent by exact H. rewrite dict_set_absent by exact H.
  reflexivity.
Qed.

Lemma add_term_clash (str_hash : string -> Z) (e : LPExpression) var c :
  (exists k, In k (map fst (terms e)) /\ var_hash str_hash k = var_hash str_hash var) ->
  (forall k, In k (map fst (terms e)) -> vid k <> vid var) ->
  add_term str_hash e var c = VRaise RecursionError.
Proof.
  intros H1 H2. unfold add_term. rewrite dict_lookup_clash by assumption. reflexivity.
Qed.

Lemma add_terms_clash (str_hash : string -> Z) (items : list (LPVariable * Q)) :
  forall (r : LPExpression) (f : Q -> Q),
  NoDup (map vid (map fst items)) ->
  (forall k w, In k (map fst (terms r)) -> In w (map fst items) -> vid k <> vid w) ->
  (exists k w, In k (map fst (terms r)) /\ In w (map fst items) /\
               var_hash str_hash k = var_hash str_hash w) ->
  add_terms str_hash r items f = VRaise RecursionError.
Proof.
  induction items as [| [w0 c0] items IH]; intros r f Hnd Hid (k & w & Hk & Hw & Hh);
    [destruct Hw |].
  cbn. inversion Hnd as [| ? ? Hnin Hnd']; subst.
  destruct (List.existsb (fun k => Z.eqb (var_hash str_hash k) (var_hash str_hash w0))
              (map fst (terms r))) eqn:Ex.
  - apply existsb_exists in Ex as (k1 & Hk1 & Hh1). apply Z.eqb_eq in Hh1.
    rewrite add_term_clash; [reflexivity | exists k1; auto |].
    intros k' Hk'. apply Hid; [exact Hk' | left; reflexivity].
  - assert (Habs : forall k, In k (map fst (terms r)) -> var_hash str_hash k <> var_hash str_hash w0).
    { intros k' Hk' Heq. assert (Hin : existsb (fun k => Z.eqb (var_hash str_hash k)
                                   (var_hash str_hash w0)) (map fst (terms r)) = true).
      { apply existsb_exists. exists k'. split; [exact Hk' | apply Z.eqb_eq; exact Heq]. }
      congruence. }
    rewrite add_term_absent by exact Habs.
    apply IH; [exact Hnd' | |].
    + cbn. rewrite map_app. intros k' w' Hk' Hw'. apply in_app_or in Hk' as [Hk'|[<-|[]]].
      * apply Hid; [exact Hk' | right; exact Hw'].
      * cbn. intro Heq. apply Hnin. rewrite Heq. apply in_map. exact Hw'.
    + destruct Hw as [<-|Hw]; [exfalso; exact (Habs k Hk Hh) |].
      exists k, w. cbn. rewrite map_app. split; [apply in_or_app; left; exact Hk |].
      split; [exact Hw | exact Hh].
Qed.

Lemma add_terms_disjoint (str_hash : string -> Z) (items : list (LPVariable * Q)) :
  forall (r : LPExpression) (f : Q -> Q),
  NoDup (map (var_hash str_hash) (map fst items)) ->
  (forall k w, In k (map fst (terms r)) -> In w (map fst items) ->
     var_hash str_hash k <> var_hash str_hash w) ->
  add_terms str_hash r items f =
    VOk (mkExpr (terms r ++ map (fun '(v, c) => (v, f c)) items) (constant r)).
Proof.
  induction items as [| [w0 c0] items IH]; intros r f Hnd Hh; cbn.
  - rewrite app_nil_r. destruct r; reflexivity.
  - inversion Hnd as [| ? ? Hnin Hnd']; subst.
    rewrite add_term_absent by (intros k Hk; apply Hh; [exact Hk | left; reflexivity]).
    rewrite IH; [cbn; rewrite <- app_assoc; reflexivity | exact Hnd' |].
    cbn. rewrite map_app. intros k w Hk Hw. apply in_app_or in Hk as [Hk|[<-|[]]].
    + apply Hh; [exact Hk | right; exact Hw].
    + cbn. intro Heq. apply Hnin. rewrite Heq. apply in_map. exact Hw.
Qed.

Lemma copy_terms_spec (ts : list (LPVariable * Q)) (n : nat) :
  exists ts', copy_terms ts n = VOk (ts', n + length ts)%nat /\
    map (fun '(v, c) => (name v, index v, c)) ts' =
    map (fun '(v, c) => (name v, index v, c)) ts /\
    forall k, In k (map fst ts') -> (n <= vid k)%nat.
Proof.
  revert n. induction ts as [| [v c] ts IH]; intro n.
  - exists []. cbn. rewrite Nat.add_0_r. split; [reflexivity | split; [reflexivity | intros k []]].
  - destruct (IH (S n)) as (ts' & Hc & Hv & Hid).
    exists ((mkVar n (name v) (lower_bound v) (upper_bound v) (index v), c) :: ts').
    cbn. unfold vbind, copy_var, fresh, vret. cbn. rewrite Hc.
    rewrite Nat.add_succ_r. split; [reflexivity |].
    split; [f_equal; exact Hv |].
    intros k [<-|Hk]; [cbn; lia |]. specialize (Hid k Hk). lia.
Qed.

(** X9: [x + y] and [x - y] on two variables: with different hashes they give the expressions [{x: 1, y: 1}] and [{x: 1, y: -1}]; with [y] the object [x] itself the dict display keeps one key, so [x + x] is [{x: 1}], [x - x] is [{x: -1}] and [x <= x] is the constraint [{x: -1} <= 0]; with another object of the same hash, building the dict calls [__eq__], which builds the same dict again and raises [RecursionError]. *)
Theorem variable_pair_operations (str_hash : string -> Z) (x y : LPVariable) (n : nat) :
  (var_hash str_hash x <> var_hash str_hash y ->
     var_add str_hash x (Var y) n = VOk (mkExpr [(x, 1); (y, 1)] 0, n) /\
     var_sub str_hash x (Var y) n = VOk (mkExpr [(x, 1); (y, -1)] 0, n)) /\
  (var_add str_hash x (Var x) n = VOk (mkExpr [(x, 1)] 0, n) /\
   var_sub str_hash x (Var x) n = VOk (mkExpr [(x, -1)] 0, n) /\
   var_cmp str_hash "<=" x (Var x) n = VOk (mkConstraint (mkExpr [(x, -1)] 0) "<=" 0, n)) /\
  (var_hash str_hash x = var_hash str_hash y -> vid x <> vid y ->
     var_add str_hash x (Var y) n = VRaise RecursionError /\
     var_sub str_hash x (Var y) n = VRaise RecursionError).
Proof.
  unfold var_add, var_sub, var_cmp, dict_display, vbind, vlift, vret. cbn.
  unfold same_key. rewrite Z.eqb_refl, Nat.eqb_refl.
  split; [| split; [split; [reflexivity | split; reflexivity] |]].
  - intro H. apply Z.eqb_neq in H. rewrite H. split; reflexivity.
  - intros Hh Hid. apply Z.eqb_eq in Hh. apply Nat.eqb_neq in Hid.
    rewrite Hh, Hid. split; reflexivity.
Qed.

Lemma scale_keys (e : LPExpression) (f : Q) :
  map fst (terms (scale e f)) = map fst (terms e).
Proof. unfold scale. cbn. rewrite map_map. apply map_ext. intros [v c]. reflexivity. Qed.

Lemma copy_terms_name (ts ts' : list (LPVariable * Q)) :
  map (fun '(v, c) => (name v, index v, c)) ts' =
  map (fun '(v, c) => (name v, index v, c)) ts ->
  forall u, In u (map fst ts) -> exists k, In k (map fst ts') /\ name k = name u.
Proof.
  intros Hv u Hu. apply in_map_iff in Hu as ([u' c] & <- & Hu). cbn.
  assert (Hin : In (name u', index u', c) (map (fun '(v, c) => (name v, index v, c)) ts'))
    by (rewrite Hv; apply in_map_iff; exists (u', c); auto).
  apply in_map_iff in Hin as ([k c'] & Hk & Hin).
  injection Hk as Hk _ _. exists k. split; [apply in_map_iff; exists (k, c'); auto | exact Hk].
Qed.

(** X10: [e1 + e2] and [e1 - e2] raise [RecursionError] when a variable of [e1] and a variable of [e2] have the same name and the variables of [e2] are distinct existing objects: [deepcopy] gives the variables of [e1] new identities, so [add_term] compares two distinct objects of the same hash. *)
Theorem expr_shared_variable_raises (str_hash : string -> Z) (e1 e2 : LPExpression)
    (u w : LPVariable) (n : nat) :
  NoDup (map vid (map fst (terms e2))) ->
  (forall v, In v (map fst (terms e2)) -> (vid v < n)%nat) ->
  In u (map fst (terms e1)) -> In w (map fst (terms e2)) -> name u = name w ->
  expr_add str_hash e1 (Expr e2) n = VRaise RecursionError /\
  expr_sub str_hash e1 (Expr e2) n = VRaise RecursionError.
Proof.
  intros Hnd Hlt Hu Hw Hname.
  destruct (copy_terms_spec (terms e1) n) as (ts & Hc & Hv & Hge).
  destruct (copy_terms_name _ _ Hv u Hu) as (k & Hk & Hkn).
  assert (Hcl : forall f, add_terms str_hash (mkExpr ts (constant e1)) (terms e2) f =
                          VRaise RecursionError).
  { intro f. apply add_terms_clash; [exact Hnd | |].
    - intros k' w' Hk' Hw'. specialize (Hge k' Hk'). specialize (Hlt w' Hw'). lia.
    - exists k, w. split; [exact Hk | split; [exact Hw |]].
      unfold var_hash. rewrite Hkn, Hname. reflexivity. }
  unfold expr_add, expr_sub, deepcopy, vbind, vret, vlift. rewrite Hc.
  rewrite !Hcl. split; reflexivity.
Qed.

Lemma expr_shared_variable_raises_witness :
  let x0 := mkVar 0 "x" 0 PInf (Some 0%nat) in
  expr_add (fun s => Z.of_nat (String.length s)) (mkExpr [(x0, 2)] 0) (Expr (mkExpr [(x0, 3)] 0)) 1%nat
    = VRaise RecursionError /\
  expr_sub (fun s => Z.of_nat (String.length s)) (mkExpr [(x0, 2)] 0) (Expr (mkExpr [(x0, 3)] 0)) 1%nat
    = VRaise RecursionError.
Proof.
  intro x0.
  apply (expr_shared_variable_raises _ _ _ x0 x0 1%nat).
  - repeat constructor. intros [].
  - intros v [<-|[]]. cbn. lia.
  - left. reflexivity.
  - left. reflexivity.
  - reflexivity.
Defined.

(** X11: likewise [x + e], [x - e], [x <= e], [e + x] and [e - x] raise [RecursionError] when the expression [e] has a variable of the name of the variable [x]. *)
Theorem variable_expr_shared_raises (str_hash : string -> Z) (x u : LPVariable)
    (e : LPExpression) (n : nat) :
  (vid x < n)%nat -> In u (map fst (terms e)) -> name u = name x ->
  var_add str_hash x (Expr e) n = VRaise RecursionError /\
  var_sub str_hash x (Expr e) n = VRaise RecursionError /\
  var_cmp str_hash "<=" x (Expr e) n = VRaise RecursionError /\
  expr_add str_hash e (Var x) n = VRaise RecursionError /\
  expr_sub str_hash e (Var x) n = VRaise RecursionError.
Proof.
  intros Hlt Hu Hname.
  destruct (copy_terms_spec (terms e) n) as (ts & Hc & Hv & Hge).
  destruct (copy_terms_name _ _ Hv u Hu) as (k & Hk & Hkn).
  assert (Hcl : forall (r : LPExpression) c, map fst (terms r) = map fst ts ->
                add_term str_hash r x c = VRaise RecursionError).
  { intros r c Hr. apply add_term_clash; rewrite Hr.
    - exists k. split; [exact Hk |]. unfold var_hash. rewrite Hkn, Hname. reflexivity.
    - intros k' Hk'. specialize (Hge k' Hk'). lia. }
  assert (Hsub : var_sub str_hash x (Expr e) n = VRaise RecursionError).
  { unfold var_sub, deepcopy, vbind, vret, vlift. rewrite Hc.
    rewrite Hcl by (rewrite scale_keys; reflexivity). reflexivity. }
  unfold var_cmp. unfold vbind at 1. rewrite Hsub.
  unfold var_add, expr_add, expr_sub, deepcopy, vbind, vret, vlift.
  rewrite Hc. rewrite !Hcl by reflexivity.
  repeat split.
Qed.

Lemma variable_expr_shared_raises_witness :
  let x0 := mkVar 0 "x" 0 PInf (Some 0%nat) in
  let h := fun s => Z.of_nat (String.length s) in
  var_add h x0 (Expr (mkExpr [(x0, 2)] 0)) 1%nat = VRaise RecursionError /\
  var_sub h x0 (Expr (mkExpr [(x0, 2)] 0)) 1%nat = VRaise RecursionError /\
  var_cmp h "<=" x0 (Expr (mkExpr [(x0, 2)] 0)) 1%nat = VRaise RecursionError /\
  expr_add h (mkExpr [(x0, 2)] 0) (Var x0) 1%nat = VRaise RecursionError /\
  expr_sub h (mkExpr [(x0, 2)] 0) (Var x0) 1%nat = VRaise RecursionError.
Proof.
  intros x0 h.
  apply (variable_expr_shared_raises h x0 x0 (mkExpr [(x0, 2)] 0) 1%nat).
  - cbn. lia.
  - left. reflexivity.
  - reflexivity.
Defined.






(** ** Properties of [parse_expression] and [parse_constraint] ([src/lpsolver/parser.py]) *)

Import Parser.

(** *** Strings

    [str.replace], [str.split] and [str.strip] as the parser uses them. *)

Lemma str_app_nil_r (s : string) : (s ++ EmptyString)%string = s.
Proof. induction s as [| a s IH]; cbn; [reflexivity | rewrite IH; reflexivity]. Qed.

Lemma str_app_assoc (a b c : string) : ((a ++ b) ++ c)%string = (a ++ (b ++ c))%string.
Proof. induction a as [| x a IH]; cbn; [reflexivity | rewrite IH; reflexivity]. Qed.

Lemma str_length_app (a b : string) : String.length (a ++ b) = (String.length a + String.length b)%nat.
Proof. induction a as [| x a IH]; cbn; [reflexivity | rewrite IH; reflexivity]. Qed.

Lemma substring_0_all (s : string) (m : nat) :
  (String.length s <= m)%nat -> substring 0 m s = s.
Proof.
  revert m. induction s as [| a s IH]; intros [| m] H; cbn in *; try lia; [reflexivity | reflexivity |].
  rewrite IH by lia. reflexivity.
Qed.

Lemma prefix_app_self (s b : string) : String.prefix s (s ++ b) = true.
Proof.
  induction s as [| a s IH]; cbn; [destruct b; reflexivity |].
  destruct (Ascii.ascii_dec a a) as [_|n]; [exact IH | contradiction].
Qed.

Lemma str_contains_app_mid (sub a b : string) : str_contains sub (a ++ sub ++ b) = true.
Proof.
  induction a as [| x a IH]; cbn [append].
  - destruct sub as [| y sub]; cbn; [destruct b; reflexivity |].
    destruct (Ascii.ascii_dec y y) as [_|n]; [| contradiction].
    rewrite prefix_app_self. reflexivity.
  - cbn [str_contains]. rewrite IH, orb_true_r. reflexivity.
Qed.

Lemma str_contains_cons (sub : string) (x : Ascii.ascii) (s : string) :
  str_contains sub (String x s) = String.prefix sub (String x s) || str_contains sub s.
Proof. reflexivity. Qed.

Lemma prefix_char (c x : Ascii.ascii) (s : string) :
  String.prefix (String c EmptyString) (String x s) = Ascii.eqb c x.
Proof.
  cbn. destruct (Ascii.ascii_dec c x) as [<-|n].
  - rewrite Ascii.eqb_refl. destruct s; reflexivity.
  - symmetry. apply Ascii.eqb_neq. exact n.
Qed.

(** [str.replace] of one character, a character at a time. *)
Lemma py_replace_cons (c x : Ascii.ascii) (n s : string) :
  py_replace (String x s) (String c EmptyString) n =
  if Ascii.eqb c x then (n ++ py_replace s (String c EmptyString) n)%string
  else String x (py_replace s (String c EmptyString) n).
Proof.
  unfold py_replace. cbn [String.length replace_fuel].
  rewrite prefix_char. destruct (Ascii.eqb c x); [| reflexivity].
  cbn [String.length substring]. rewrite substring_0_all by lia. reflexivity.
Qed.

Lemma py_replace_app (c : Ascii.ascii) (n a b : string) :
  py_replace (a ++ b) (String c EmptyString) n =
  (py_replace a (String c EmptyString) n ++ py_replace b (String c EmptyString) n)%string.
Proof.
  induction a as [| x a IH]; cbn [append]; [reflexivity |].
  rewrite !py_replace_cons, IH. destruct (Ascii.eqb c x); [| reflexivity].
  apply eq_sym, str_app_assoc.
Qed.

Lemma py_replace_absent (c : Ascii.ascii) (n s : string) :
  str_contains (String c EmptyString) s = false -> py_replace s (String c EmptyString) n = s.
Proof.
  induction s as [| x s IH]; intro H; [reflexivity |].
  rewrite str_contains_cons, prefix_char in H. rewrite py_replace_cons.
  destruct (Ascii.eqb c x); [discriminate |]. rewrite IH by exact H. reflexivity.
Qed.

(** [str.split] on one character. *)
Lemma split_fuel_cons (c x : Ascii.ascii) (s cur : string) :
  split_fuel (String.length (String x s)) (String c EmptyString) (String x s) cur =
  if Ascii.eqb c x
  then cur :: split_fuel (String.length s) (String c EmptyString) s EmptyString
  else split_fuel (String.length s) (String c EmptyString) s (cur ++ String x EmptyString).
Proof.
  cbn [String.length split_fuel]. rewrite prefix_char.
  destruct (Ascii.eqb c x); [| reflexivity].
  cbn [String.length substring]. rewrite substring_0_all by lia. reflexivity.
Qed.

Lemma split_fuel_app (c : Ascii.ascii) (a b : string) : forall cur,
  split_fuel (String.length (a ++ String c b)) (String c EmptyString) (a ++ String c b) cur =
  split_fuel (String.length a) (String c EmptyString) a cur ++
  split_fuel (String.length b) (String c EmptyString) b EmptyString.
Proof.
  induction a as [| x a IH]; intro cur; cbn [append].
  - rewrite split_fuel_cons, Ascii.eqb_refl.
    cbn [String.length split_fuel app]. rewrite str_app_nil_r. reflexivity.
  - rewrite !split_fuel_cons. destruct (Ascii.eqb c x); rewrite IH; reflexivity.
Qed.

Lemma py_split_app (c : Ascii.ascii) (a b : string) :
  py_split (a ++ String c b) (String c EmptyString) =
  py_split a (String c EmptyString) ++ py_split b (String c EmptyString).
Proof. apply split_fuel_app. Qed.

Lemma split_fuel_absent (c : Ascii.ascii) (s : string) : forall cur,
  str_contains (String c EmptyString) s = false ->
  split_fuel (String.length s) (String c EmptyString) s cur = [(cur ++ s)%string].
Proof.
  induction s as [| x s IH]; intros cur H.
  - cbn. rewrite str_app_nil_r. reflexivity.
  - rewrite str_contains_cons, prefix_char in H. rewrite split_fuel_cons.
    destruct (Ascii.eqb c x); [discriminate |].
    rewrite IH by exact H. rewrite str_app_assoc. reflexivity.
Qed.

(** [str.strip]. *)
Lemma lstrip_length (s : string) : (String.length (lstrip s) <= String.length s)%nat.
Proof.
  induction s as [| a s IH]; cbn; [lia |]. destruct (is_space a); cbn; lia.
Qed.

Lemma lstrip_length_eq (s : string) :
  String.length (lstrip s) = String.length s -> lstrip s = s.
Proof.
  destruct s as [| a s]; cbn; [reflexivity |].
  destruct (is_space a); [| reflexivity].
  pose proof (lstrip_length s). lia.
Qed.

Lemma string_of_list_ascii_app (l1 l2 : list Ascii.ascii) :
  string_of_list_ascii (l1 ++ l2) = (string_of_list_ascii l1 ++ string_of_list_ascii l2)%string.
Proof. induction l1 as [| a l1 IH]; cbn; [reflexivity | rewrite IH; reflexivity]. Qed.

Lemma length_string_of_list_ascii (l : list Ascii.ascii) :
  String.length (string_of_list_ascii l) = List.length l.
Proof. induction l as [| a l IH]; cbn; [reflexivity | rewrite IH; reflexivity]. Qed.

Lemma length_list_ascii_of_string (s : string) :
  List.length (list_ascii_of_string s) = String.length s.
Proof. induction s as [| a s IH]; cbn; [reflexivity | rewrite IH; reflexivity]. Qed.

Lemma list_ascii_of_string_app (a b : string) :
  list_ascii_of_string (a ++ b) = list_ascii_of_string a ++ list_ascii_of_string b.
Proof. induction a as [| x a IH]; cbn; [reflexivity | rewrite IH; reflexivity]. Qed.

Lemma str_rev_length (s : string) : String.length (str_rev s) = String.length s.
Proof.
  unfold str_rev. rewrite length_string_of_list_ascii, length_rev.
  apply length_list_ascii_of_string.
Qed.

Lemma str_rev_app (a b : string) :
  str_rev (a ++ b) = (str_rev b ++ str_rev a)%string.
Proof.
  unfold str_rev. rewrite list_ascii_of_string_app, rev_app_distr.
  apply string_of_list_ascii_app.
Qed.

Lemma str_rev_involutive (s : string) : str_rev (str_rev s) = s.
Proof.
  unfold str_rev. rewrite list_ascii_of_string_of_list_ascii, rev_involutive.
  apply string_of_list_ascii_of_string.
Qed.

Lemma lstrip_app_kept (x y : string) :
  lstrip x = x -> x <> EmptyString -> lstrip (x ++ y) = (x ++ y)%string.
Proof.
  destruct x as [| a x]; intros H Hne; [contradiction |]. cbn in *.
  destruct (is_space a); [| reflexivity].
  exfalso. pose proof (lstrip_length x). apply (f_equal String.length) in H. cbn in H. lia.
Qed.

(** A stripped string has no whitespace at either end. *)
Lemma py_strip_fixed (t : string) :
  py_strip t = t -> lstrip t = t /\ lstrip (str_rev t) = str_rev t.
Proof.
  intro H. assert (HL := f_equal String.length H). unfold py_strip in HL.
  rewrite str_rev_length in HL.
  pose proof (lstrip_length t) as H1.
  pose proof (lstrip_length (str_rev (lstrip t))) as H2. rewrite str_rev_length in H2.
  assert (Ht : lstrip t = t) by (apply lstrip_length_eq; lia).
  split; [exact Ht |]. apply lstrip_length_eq. rewrite Ht in HL. rewrite str_rev_length. lia.
Qed.

Lemma py_strip_cons_kept (a : Ascii.ascii) (t : string) :
  is_space a = false -> py_strip t = t -> t <> EmptyString ->
  py_strip (String a t) = String a t.
Proof.
  intros Ha Ht Hne. destruct (py_strip_fixed t Ht) as [_ Hr].
  unfold py_strip. cbn [lstrip]. rewrite Ha.
  change (String a t) with (String a EmptyString ++ t)%string.
  rewrite str_rev_app, lstrip_app_kept; [| exact Hr |].
  - rewrite str_rev_app, !str_rev_involutive. reflexivity.
  - intro He. apply (f_equal String.length) in He. rewrite str_rev_length in He.
    destruct t; [contradiction | discriminate].
Qed.

(** *** [parse_expression] and [parse_constraint] *)

Section ParserProofs.

Variable str_hash : string -> Z.
Variable py_float : string -> res Q.

Lemma parse_terms_app (variables : list (string * LPVariable)) (l1 l2 : list string) :
  forall e, parse_terms str_hash py_float variables e (l1 ++ l2) =
  match parse_terms str_hash py_float variables e l1 with
  | POk e' => parse_terms str_hash py_float variables e' l2
  | PRaise x => PRaise x
  end.
Proof.
  induction l1 as [| t l1 IH]; intro e; cbn; [reflexivity |].
  destruct (parse_term _ _ _ _ _); [apply IH | reflexivity].
Qed.

End ParserProofs.

(** X21: In [parse_expression], a numeric constant after a minus sign keeps
    its sign dropped: once [-] is rewritten to [+-], the piece [-t] is
    stripped of its leading [-] before [float] reads it, so [p - t] parses
    exactly like [p + t] (for instance ["x - 5"] gives the constant [5]). *)
Theorem parse_expression_minus_constant (str_hash : string -> Z) (py_float : string -> res Q)
    (variables : list (string * LPVariable)) (p t : string) (q : Q) :
  py_strip t = t -> t <> EmptyString ->
  str_contains "+" t = false -> str_contains "-" t = false ->
  str_contains "=" t = false -> str_contains "*" t = false ->
  py_float t = Ok q ->
  parse_expression str_hash py_float (p ++ "-" ++ t) variables =
  parse_expression str_hash py_float (p ++ "+" ++ t) variables.
Proof.
  intros Hs Hne Hplus Hminus Heq Hstar Hq. unfold parse_expression.
  (* [.replace('-', '+-').replace('=', '')] *)
  rewrite !py_replace_app.
  rewrite (py_replace_absent _ _ t Hminus), (py_replace_absent _ _ t Heq).
  replace (py_replace (py_replace "-" "-" "+-") "=" EmptyString) with "+-"%string
    by reflexivity.
  replace (py_replace (py_replace "+" "-" "+-") "=" EmptyString) with "+"%string
    by reflexivity.
  (* [.split('+')] *)
  cbn [append]. rewrite !py_split_app, !parse_terms_app.
  destruct (parse_terms _ _ _ _ _) as [e|x]; [| reflexivity].
  unfold py_split. rewrite !split_fuel_absent; [| exact Hplus |].
  2:{ rewrite str_contains_cons, Hplus, prefix_char. reflexivity. }
  cbn [append parse_terms]. unfold parse_term.
  rewrite (py_strip_cons_kept _ t) by (reflexivity || assumption). rewrite Hs.
  assert (Ht0 : String.prefix "-" t = false).
  { destruct t as [| a t']; [contradiction |].
    rewrite str_contains_cons in Hminus. apply orb_false_iff in Hminus. exact (proj1 Hminus). }
  destruct (String.eqb_spec t EmptyString) as [E|_]; [contradiction |].
  rewrite Ht0, prefix_char, Ascii.eqb_refl. cbn [str_tail].
  rewrite Hs, Hstar, Hq. reflexivity.
Qed.

Lemma prefix_le_skip (x : Ascii.ascii) (l r : string) :
  str_contains "<=" (String x l) = false ->
  String.prefix "<=" (String x (l ++ "<=" ++ r)) = false.
Proof.
  rewrite str_contains_cons. intro H. apply orb_false_iff in H as [H _].
  revert H. cbn [String.prefix]. destruct (Ascii.ascii_dec _ x) as [_|_]; [| reflexivity].
  destruct l as [| y l]; [reflexivity |]. cbn [append String.prefix].
  destruct (Ascii.ascii_dec _ y) as [_|_]; [| reflexivity].
  destruct l; discriminate.
Qed.

Lemma split1_fuel_le (l r : string) : forall cur,
  str_contains "<=" l = false ->
  split1_fuel (String.length (l ++ "<=" ++ r)) "<=" (l ++ "<=" ++ r) cur =
  [(cur ++ l)%string; r].
Proof.
  induction l as [| x l IH]; intros cur H.
  - pose proof (prefix_app_self "<=" r) as Hp. cbn [append] in Hp |- *.
    cbn [String.length split1_fuel]. rewrite Hp.
    cbn [String.length substring]. rewrite substring_0_all by lia.
    rewrite str_app_nil_r. reflexivity.
  - pose proof (prefix_le_skip x l r H) as Hp.
    rewrite str_contains_cons in H. apply orb_false_iff in H as [_ H].
    specialize (IH (cur ++ String x EmptyString)%string H).
    cbn [append] in Hp, IH |- *. cbn [String.length split1_fuel].
    rewrite Hp, IH, str_app_assoc. reflexivity.
Qed.

(** X22: [parse_constraint] on [l <= r]: when the stripped right-hand side
    reads as a float [q], the constraint is [L <= q]; otherwise [r] is parsed
    as an expression [R], its terms are added to [L] one by one with
    [add_term] and their coefficients negated (a variable of [R] already in
    [L] has its coefficient summed, and removed when the sum is below
    [1e-10]), and the right-hand side becomes [- constant R]; when no
    variable of [R] shares a hash with one of [L] or another one of [R],
    the terms of [R] are appended negated (so ["x <= yy + 3"] gives
    [x - yy <= -3]). *)
Theorem parse_constraint_le_rhs (str_hash : string -> Z) (py_float : string -> res Q)
    (variables : list (string * LPVariable)) (l r : string) (L : LPExpression) :
  str_contains "<=" l = false ->
  parse_expression str_hash py_float l variables = POk L ->
  (forall q, py_float (py_strip r) = Ok q ->
     parse_constraint str_hash py_float (l ++ "<=" ++ r) variables =
       POk (mkConstraint L "<=" q)) /\
  (forall msg, py_float (py_strip r) = Raise (ValueError msg) ->
     parse_constraint str_hash py_float (l ++ "<=" ++ r) variables =
       match parse_expression str_hash py_float r variables with
       | PRaise e => PRaise e
       | POk R =>
           match add_terms str_hash L (terms R) (fun coef => - coef) with
           | VOk L' => POk (mkConstraint L' "<=" (- constant R))
           | VRaise e => PRaise (PPyExn e)
           end
       end) /\
  (forall msg R, py_float (py_strip r) = Raise (ValueError msg) ->
     parse_expression str_hash py_float r variables = POk R ->
     NoDup (map (var_hash str_hash) (map fst (terms R))) ->
     (forall u w, In u (map fst (terms L)) -> In w (map fst (terms R)) ->
        var_hash str_hash u <> var_hash str_hash w) ->
     parse_constraint str_hash py_float (l ++ "<=" ++ r) variables =
       POk (mkConstraint (mkExpr (terms L ++ map (fun '(v, c) => (v, - c)) (terms R))
                                 (constant L))
                         "<=" (- constant R))).
Proof.
  intros Hl HL.
  assert (Hsplit : py_split1 (l ++ "<=" ++ r) "<=" = [l; r])
    by (unfold py_split1; rewrite split1_fuel_le by exact Hl; reflexivity).
  assert (Hop : str_contains "<=" (l ++ "<=" ++ r) = true) by apply str_contains_app_mid.
  unfold parse_constraint. rewrite Hop, Hsplit. cbn [unpack2]. rewrite HL.
  split; [| split].
  - intros q Hq. rewrite Hq. reflexivity.
  - intros msg Hq. rewrite Hq. reflexivity.
  - intros msg R Hq HR Hnd Hdis. rewrite Hq, HR.
    rewrite (add_terms_disjoint str_hash (terms R) L (fun coef => - coef) Hnd Hdis).
    reflexivity.
Qed.

Lemma py_strip_app_kept (a b : string) :
  py_strip a = a -> a <> EmptyString -> py_strip b = b -> b <> EmptyString ->
  py_strip (a ++ b) = (a ++ b)%string.
Proof.
  intros Ha Hane Hb Hbne.
  destruct (py_strip_fixed a Ha) as [Hla _]. destruct (py_strip_fixed b Hb) as [_ Hrb].
  unfold py_strip. rewrite (lstrip_app_kept a b Hla Hane), str_rev_app.
  rewrite lstrip_app_kept; [| exact Hrb |].
  - rewrite str_rev_app, !str_rev_involutive. reflexivity.
  - intro He. apply (f_equal String.length) in He. rewrite str_rev_length in He.
    destruct b; [contradiction | discriminate].
Qed.

Lemma split1_fuel_char (c : Ascii.ascii) (a b : string) : forall cur,
  str_contains (String c EmptyString) a = false ->
  split1_fuel (String.length (a ++ String c b)) (String c EmptyString) (a ++ String c b) cur =
  [(cur ++ a)%string; b].
Proof.
  induction a as [| x a IH]; intros cur H; cbn [append String.length split1_fuel].
  - rewrite prefix_char, Ascii.eqb_refl. cbn [String.length substring].
    rewrite substring_0_all by lia. rewrite str_app_nil_r. reflexivity.
  - rewrite str_contains_cons, prefix_char in H. apply orb_false_iff in H as [Hx H].
    rewrite prefix_char, Hx.
    specialize (IH (cur ++ String x EmptyString)%string H).
    cbn [String.length] in IH. rewrite IH, str_app_assoc. reflexivity.
Qed.

Lemma str_contains_app_false (sub a b : string) :
  String.length sub = 1%nat ->
  str_contains sub a = false -> str_contains sub b = false -> str_contains sub (a ++ b) = false.
Proof.
  intros Hl Ha Hb. destruct sub as [| c [| d sub]]; cbn in Hl; try lia.
  induction a as [| x a IH]; cbn [append]; [exact Hb |].
  rewrite str_contains_cons, prefix_char in Ha |- *. apply orb_false_iff in Ha as [Hx Ha].
  rewrite Hx, IH by exact Ha. reflexivity.
Qed.

Section ParserLast.

Variable str_hash : string -> Z.
Variable py_float : string -> res Q.

(** The last piece of an expression, after a [+] or a [-]. *)
Lemma parse_expression_last (variables : list (string * LPVariable)) (p x : string) :
  str_contains "+" x = false -> str_contains "-" x = false -> str_contains "=" x = false ->
  parse_expression str_hash py_float (p ++ "+" ++ x) variables =
    match parse_expression str_hash py_float p variables with
    | POk e => parse_term str_hash py_float variables e x
    | PRaise err => PRaise err
    end /\
  parse_expression str_hash py_float (p ++ "-" ++ x) variables =
    match parse_expression str_hash py_float p variables with
    | POk e => parse_term str_hash py_float variables e ("-" ++ x)
    | PRaise err => PRaise err
    end.
Proof.
  intros Hplus Hminus Heq. unfold parse_expression.
  rewrite !py_replace_app.
  rewrite (py_replace_absent _ _ x Hminus), (py_replace_absent _ _ x Heq).
  replace (py_replace (py_replace "-" "-" "+-") "=" EmptyString) with "+-"%string
    by reflexivity.
  replace (py_replace (py_replace "+" "-" "+-") "=" EmptyString) with "+"%string
    by reflexivity.
  cbn [append]. rewrite !py_split_app, !parse_terms_app.
  assert (Hplus' : str_contains "+" ("-" ++ x) = false)
    by (cbn [append]; rewrite str_contains_cons, Hplus, prefix_char; reflexivity).
  unfold py_split. rewrite (split_fuel_absent _ x _ Hplus).
  cbn [append] in Hplus'. rewrite (split_fuel_absent _ _ _ Hplus').
  cbn [append parse_terms].
  split; (destruct (parse_terms _ _ _ _ _) as [e|err]; [| reflexivity]);
    (destruct (parse_term _ _ _ _ _); reflexivity).
Qed.

End ParserLast.

(** X23: In [parse_expression], a product term [k*u] of a number [k] and a
    variable name [u] adds [u] with coefficient [k], whichever side of [*]
    the number is written on; after a minus sign the coefficient is [-k]. *)
Theorem parse_expression_product_term (str_hash : string -> Z) (py_float : string -> res Q)
    (variables : list (string * LPVariable)) (p k u : string) (q : Q) (msg : string)
    (v : LPVariable) :
  py_strip k = k -> k <> EmptyString -> py_strip u = u -> u <> EmptyString ->
  Forall (fun sep => str_contains sep k = false /\ str_contains sep u = false)
    ["+"; "-"; "="; "*"]%string ->
  py_float k = Ok q -> py_float u = Raise (ValueError msg) ->
  var_lookup variables u = Some v ->
  let after (coef : Q) :=
    match parse_expression str_hash py_float p variables with
    | POk e => lift_vres (add_term str_hash e v coef)
    | PRaise err => PRaise err
    end in
  parse_expression str_hash py_float (p ++ "+" ++ k ++ "*" ++ u) variables = after q /\
  parse_expression str_hash py_float (p ++ "+" ++ u ++ "*" ++ k) variables = after q /\
  parse_expression str_hash py_float (p ++ "-" ++ k ++ "*" ++ u) variables = after (- q) /\
  parse_expression str_hash py_float (p ++ "-" ++ u ++ "*" ++ k) variables = after (- q).
Proof.
  intros Hk Hkne Hu Hune Hsep Hq Hmsg Hv after.
  inversion Hsep as [| ? ? [Hk1 Hu1] Hsep1]; subst.
  inversion Hsep1 as [| ? ? [Hk2 Hu2] Hsep2]; subst.
  inversion Hsep2 as [| ? ? [Hk3 Hu3] Hsep3]; subst.
  inversion Hsep3 as [| ? ? [Hk4 Hu4] _]; subst.
  clear Hsep Hsep1 Hsep2 Hsep3.
  assert (Hsp : forall a b, py_strip a = a -> a <> EmptyString -> py_strip b = b ->
                  b <> EmptyString -> py_strip (a ++ "*" ++ b) = (a ++ "*" ++ b)%string).
  { intros a b Ha Hane Hb Hbne. apply py_strip_app_kept; [exact Ha | exact Hane | | discriminate].
    apply py_strip_cons_kept; [reflexivity | exact Hb | exact Hbne]. }
  assert (Hnc : forall sep a b, String.length sep = 1%nat -> str_contains sep a = false ->
                  str_contains sep b = false -> sep <> "*"%string ->
                  str_contains sep (a ++ "*" ++ b) = false).
  { intros sep a b Hl Ha Hb Hs. apply str_contains_app_false; [exact Hl | exact Ha |].
    destruct sep as [| c [| d sep]]; cbn in Hl; try lia.
    cbn [append]. rewrite str_contains_cons, prefix_char, Hb, orb_false_r.
    apply Ascii.eqb_neq. intros ->. apply Hs. reflexivity. }
  assert (Hnotneg : forall a b, str_contains "-" a = false -> a <> EmptyString ->
                      String.prefix "-" (a ++ b) = false).
  { intros a b Ha Hane. destruct a as [| c a]; [contradiction |].
    rewrite str_contains_cons in Ha. apply orb_false_iff in Ha as [Ha _].
    cbn [append]. rewrite prefix_char in Ha |- *. exact Ha. }
  (* the two orders of one product term, on any expression [e], with a sign *)
  assert (Hterm : forall e (neg : bool),
    let pre := if neg then "-"%string else EmptyString in
    parse_term str_hash py_float variables e (pre ++ k ++ "*" ++ u) =
      lift_vres (add_term str_hash e v (if neg then - q else q)) /\
    parse_term str_hash py_float variables e (pre ++ u ++ "*" ++ k) =
      lift_vres (add_term str_hash e v (if neg then - q else q))).
  { intros e neg pre.
    assert (Hs1 := Hsp k u Hk Hkne Hu Hune). assert (Hs2 := Hsp u k Hu Hune Hk Hkne).
    assert (Hst : forall a b, py_strip (a ++ "*" ++ b) = (a ++ "*" ++ b)%string ->
               a <> EmptyString -> str_contains "-" a = false ->
               let term := py_strip (pre ++ a ++ "*" ++ b) in
               term <> EmptyString /\ String.prefix "-" term = neg /\
               (if String.prefix "-" term then py_strip (str_tail term) else term) =
                 (a ++ "*" ++ b)%string).
    { intros a b Hab Hane Ha term. unfold term, pre.
      destruct neg.
      - assert (Hc : py_strip ("-" ++ (a ++ "*" ++ b)) = ("-" ++ (a ++ "*" ++ b))%string).
        { apply (py_strip_cons_kept _ (a ++ "*" ++ b)); [reflexivity | exact Hab |].
          destruct a; [contradiction | discriminate]. }
        rewrite Hc, prefix_app_self.
        change (str_tail ("-" ++ (a ++ "*" ++ b))) with (a ++ "*" ++ b)%string.
        split; [discriminate | split; [reflexivity | exact Hab]].
      - change (EmptyString ++ (a ++ "*" ++ b))%string with (a ++ "*" ++ b)%string.
        rewrite Hab, (Hnotneg a _ Ha Hane).
        split; [destruct a; [contradiction | discriminate] | split; reflexivity]. }
    destruct (Hst k u Hs1 Hkne Hk2) as (Hne1 & Hn1 & Ht1).
    destruct (Hst u k Hs2 Hune Hu2) as (Hne2 & Hn2 & Ht2).
    assert (Hspl1 : py_split1 (k ++ "*" ++ u) "*" = [k; u])
      by (unfold py_split1; apply split1_fuel_char; exact Hk4).
    assert (Hspl2 : py_split1 (u ++ "*" ++ k) "*" = [u; k])
      by (unfold py_split1; apply split1_fuel_char; exact Hu4).
    assert (Hadd : forall c, add_named_term str_hash variables e c u =
                              lift_vres (add_term str_hash e v c))
      by (intro c; unfold add_named_term; rewrite Hu, Hv; reflexivity).
    unfold parse_term.
    split.
    + destruct (String.eqb_spec (py_strip (pre ++ k ++ "*" ++ u)) EmptyString)
        as [E|_]; [contradiction |].
      rewrite Hn1, <- Hn1, Ht1, str_contains_app_mid, Hspl1. cbn [unpack2].
      rewrite Hk, Hq, Hadd, Hn1. reflexivity.
    + destruct (String.eqb_spec (py_strip (pre ++ u ++ "*" ++ k)) EmptyString)
        as [E|_]; [contradiction |].
      rewrite Hn2, <- Hn2, Ht2, str_contains_app_mid, Hspl2. cbn [unpack2].
      rewrite Hu, Hmsg, Hk, Hq, Hadd, Hn2. reflexivity. }
  assert (Hx1 := Hnc "+"%string k u eq_refl Hk1 Hu1 ltac:(discriminate)).
  assert (Hx2 := Hnc "-"%string k u eq_refl Hk2 Hu2 ltac:(discriminate)).
  assert (Hx3 := Hnc "="%string k u eq_refl Hk3 Hu3 ltac:(discriminate)).
  assert (Hy1 := Hnc "+"%string u k eq_refl Hu1 Hk1 ltac:(discriminate)).
  assert (Hy2 := Hnc "-"%string u k eq_refl Hu2 Hk2 ltac:(discriminate)).
  assert (Hy3 := Hnc "="%string u k eq_refl Hu3 Hk3 ltac:(discriminate)).
  destruct (parse_expression_last str_hash py_float variables p _ Hx1 Hx2 Hx3) as [A1 A2].
  destruct (parse_expression_last str_hash py_float variables p _ Hy1 Hy2 Hy3) as [B1 B2].
  rewrite A1, A2, B1, B2. unfold after.
  destruct (parse_expression _ _ p _) as [e|err]; [| repeat split].
  destruct (Hterm e false) as [T1 T2]. destruct (Hterm e true) as [T3 T4].
  split; [exact T1 | split; [exact T2 | split; [exact T3 | exact T4]]].
Qed.

Lemma parse_expression_minus_constant_witness :
  let pyf := fun s : string => if String.eqb s "5" then Ok 5 else Raise (ValueError s) in
  parse_expression (fun s => Z.of_nat (String.length s)) pyf ("x " ++ "-" ++ "5")
    [("x"%string, mkVar 0 "x" 0 PInf (Some 0%nat))] =
  parse_expression (fun s => Z.of_nat (String.length s)) pyf ("x " ++ "+" ++ "5")
    [("x"%string, mkVar 0 "x" 0 PInf (Some 0%nat))].
Proof.
  intro pyf.
  apply (parse_expression_minus_constant _ pyf _ "x " "5" 5);
    first [reflexivity | discriminate].
Defined.

Lemma parse_constraint_le_rhs_witness :
  let h := fun s => Z.of_nat (String.length s) in
  let pyf := fun s : string => if String.eqb s "3" then Ok 3 else Raise (ValueError s) in
  let X := mkVar 0 "x" 0 PInf (Some 0%nat) in
  let Y := mkVar 1 "yy" 0 PInf (Some 1%nat) in
  parse_constraint h pyf ("x " ++ "<=" ++ " x + 3") [("x"%string, X); ("yy"%string, Y)] =
    POk (mkConstraint (mkExpr [] 0) "<=" (-3)) /\
  parse_constraint h pyf ("x " ++ "<=" ++ " yy + 3") [("x"%string, X); ("yy"%string, Y)] =
    POk (mkConstraint (mkExpr [(X, 1); (Y, -1)] 0) "<=" (-3)).
Proof.
  intros h pyf X Y. split.
  - destruct (parse_constraint_le_rhs h pyf [("x"%string, X); ("yy"%string, Y)] "x " " x + 3"
                (mkExpr [(X, 1)] 0)) as (_ & H2 & _);
      [vm_compute; reflexivity | vm_compute; reflexivity |].
    rewrite (H2 "x + 3"%string); [vm_compute; reflexivity | vm_compute; reflexivity].
  - destruct (parse_constraint_le_rhs h pyf [("x"%string, X); ("yy"%string, Y)] "x " " yy + 3"
                (mkExpr [(X, 1)] 0)) as (_ & _ & H3);
      [vm_compute; reflexivity | vm_compute; reflexivity |].
    apply (H3 "yy + 3"%string (mkExpr [(Y, 1)] 3)).
    + vm_compute. reflexivity.
    + vm_compute. reflexivity.
    + constructor; [intros [] | constructor].
    + intros u w [<-|[]] [<-|[]] E. vm_compute in E. discriminate.
Defined.

Lemma parse_expression_product_term_witness :
  let h := fun s => Z.of_nat (String.length s) in
  let pyf := fun s : string => if String.eqb s "2" then Ok 2 else Raise (ValueError s) in
  let X := mkVar 0 "x" 0 PInf (Some 0%nat) in
  let Y := mkVar 1 "yy" 0 PInf (Some 1%nat) in
  let vars := [("x"%string, X); ("yy"%string, Y)] in
  parse_expression h pyf ("x " ++ "+" ++ "2" ++ "*" ++ "yy") vars = POk (mkExpr [(X, 1); (Y, 2)] 0) /\
  parse_expression h pyf ("x " ++ "+" ++ "yy" ++ "*" ++ "2") vars = POk (mkExpr [(X, 1); (Y, 2)] 0) /\
  parse_expression h pyf ("x " ++ "-" ++ "2" ++ "*" ++ "yy") vars = POk (mkExpr [(X, 1); (Y, -2)] 0) /\
  parse_expression h pyf ("x " ++ "-" ++ "yy" ++ "*" ++ "2") vars = POk (mkExpr [(X, 1); (Y, -2)] 0).
Proof.
  intros h pyf X Y vars.
  pose proof (parse_expression_product_term h pyf vars "x " "2" "yy" 2 "yy" Y) as H.
  cbv zeta in H.
  destruct H as (E1 & E2 & E3 & E4);
    [reflexivity | discriminate | reflexivity | discriminate
    | repeat constructor | reflexivity | reflexivity | reflexivity |].
  rewrite E1, E2, E3, E4. split; [| split; [| split]]; vm_compute; reflexivity.
Defined.
